(** * comp4321: the indexer and the phrase search, embedded and verified

    The development follows the Go sources of the search engine:

    - package [database]: the [Indexer] ([getId], [updateInverted],
      [FlushInverted], [updateForward], [setMaxTf], [getMaxTf],
      [UpdateOrAddPage]);
    - package [retrieval]: [splitToBigrams], [hasPhrase], [searchPhrase].

    The store is [github.com/boltdb/bolt].  Its buckets are modelled with
    the behaviour of bolt's [bucket.go] that the indexer depends on: what
    [Get], [Put], [NextSequence] and [CreateBucketIfNotExists] do on a plain
    key, on a key that holds a nested bucket, and on a key that the store
    refuses.

    The goroutines of [UpdateOrAddPage] and [FlushInverted] are modelled by
    two small machines whose steps are the transactions and critical
    sections of the code, driven by an explicit schedule. *)

From stdpp Require Import gmap strings list fin_maps sorting.
From Stdlib Require Import ZArith Lia.

Open Scope Z_scope.

(** Go's [[]byte] and [string] are both byte sequences; [[]byte(text)] is
    the identity. *)
Abbreviation bytes := string.

(** [len] of a byte slice, as a [Z]. *)
Definition len (b : bytes) : Z := Z.of_nat (String.length b).

(** ** bolt *)

Module bolt.

(** The errors of bolt that the indexer can meet (it ignores all of
    them). *)
Inductive error :=
| ErrKeyRequired
| ErrKeyTooLarge
| ErrValueTooLarge
| ErrIncompatibleValue
| ErrBucketNameRequired.

Definition MaxKeySize : Z := 32768.
Definition MaxValueSize : Z := 2 ^ 31 - 2.

(** A nested bucket.  The indexer keeps plain pairs only in its nested
    buckets (the per-page term frequencies and the per-word posting
    lists), so a nested bucket is a flat map. *)
Abbreviation Sub := (gmap string string).

(** What a key of a bucket holds: a value, or a nested bucket (bolt's
    [bucketLeafFlag]). *)
Inductive entry :=
| Leaf (v : bytes)
| Nested (b : Sub).

(** A top-level bucket: its keys, and the counter behind
    [NextSequence]. *)
Record Bucket := mkBucket {
  pairs : gmap string entry;
  sequence : Z
}.

Definition emptyBucket : Bucket := mkBucket ∅ 0.

(** The argument checks at the head of [Bucket.Put]. *)
Definition checkPut (key value : bytes) : option error :=
  if decide (len key = 0) then Some ErrKeyRequired
  else if decide (MaxKeySize < len key) then Some ErrKeyTooLarge
  else if decide (MaxValueSize < len value) then Some ErrValueTooLarge
  else None.

(** [Bucket.Get]: nil for a missing key and for a key that holds a
    nested bucket. *)
Definition Get (b : Bucket) (key : bytes) : option bytes :=
  match pairs b !! key with
  | Some (Leaf v) => Some v
  | _ => None
  end.

(** [Bucket.Put]: refuses a bad key or value, and a key that holds a
    nested bucket; otherwise it overwrites. *)
Definition Put (b : Bucket) (key value : bytes) : Bucket * option error :=
  match checkPut key value with
  | Some e => (b, Some e)
  | None =>
      match pairs b !! key with
      | Some (Nested _) => (b, Some ErrIncompatibleValue)
      | _ => (mkBucket (<[key := Leaf value]> (pairs b)) (sequence b), None)
      end
  end.

(** [Put] on a nested bucket; it holds no bucket of its own. *)
Definition SubPut (s : Sub) (key value : bytes) : gmap string string * option error :=
  match checkPut key value with
  | Some e => (s, Some e)
  | None => (<[key := value]> s, None)
  end.

(** [Bucket.NextSequence]: [sequence++] on a [uint64]. *)
Definition NextSequence (b : Bucket) : Z * Bucket :=
  let n := (sequence b + 1) mod 2 ^ 64 in
  (n, mkBucket (pairs b) n).

(** [Bucket.CreateBucketIfNotExists]: the nested bucket under [key],
    created empty when the key is free; an error (and a nil bucket) for
    an empty name and for a key that holds a value. *)
Definition CreateBucketIfNotExists (b : Bucket) (key : bytes)
  : Bucket * (gmap string string + error) :=
  if decide (len key = 0) then (b, inr ErrBucketNameRequired)
  else
    match pairs b !! key with
    | Some (Nested s) => (b, inl s)
    | Some (Leaf _) => (b, inr ErrIncompatibleValue)
    | None => (mkBucket (<[key := Nested ∅]> (pairs b)) (sequence b), inl ∅)
    end.

(** Writing through the handle of the nested bucket [key]: the parent
    sees the new content. *)
Definition storeSub (b : Bucket) (key : bytes) (s : Sub) : Bucket :=
  mkBucket (<[key := Nested s]> (pairs b)) (sequence b).

(** The nested bucket under [key], as a reader sees it. *)
Definition sub (b : Bucket) (key : bytes) : option (gmap string string) :=
  match pairs b !! key with
  | Some (Nested s) => Some s
  | _ => None
  end.

End bolt.

(** ** The tables *)

(** Modelled from the spec: the table constants ([UrlToPageId], ...,
    [NumTable]) are declared in a file of package [database] that is not
    among the sources; the spec lists the six tables of the index and the
    table of page records. *)
Inductive Table :=
| UrlToPageId
| PageIdToUrl
| WordToWordId
| WordIdToWord
| ForwardTable
| InvertedTable
| PageInfo.

#[global] Instance Table_eq_dec : EqDecision Table.
Proof. solve_decision. Defined.

(** The database: [LoadIndexer] makes every table exist, so [tx.Bucket]
    never returns nil on a table. *)
Definition DB := Table → bolt.Bucket.

Definition emptyDB : DB := fun _ => bolt.emptyBucket.

(** The bucket of table [t] replaced, as a committed transaction leaves
    it. *)
Definition setBucket (t : Table) (b : bolt.Bucket) (d : DB) : DB :=
  fun t' => if decide (t' = t) then b else d t'.

(** Modelled from the spec: [models.Document] is declared in a file that is
    not among the sources; the indexer reads [Uri], [Words] and [MaxTf]. *)
Record Document := mkDocument {
  Uri : string;
  Title : string;
  Words : gmap string Z;
  MaxTf : Z
}.

(** ** The conversion helpers *)

(** [intToByte], [byteToInt], [uint64ToByte] and [byteToUint64] belong to
    package [database] but are not among the sources, and neither is the
    JSON encoding of a document.  The development is parametric in them and
    asks only for what any fixed-width encoding gives: an id is a key that
    bolt accepts, decoding an encoded [uint64] gives it back, and an
    encoded [int] is a value that bolt accepts. *)
Class Codec := {
  uint64ToByte : Z → bytes;
  byteToUint64 : bytes → Z;
  intToByte : Z → bytes;
  byteToInt : bytes → Z;
  jsonMarshal : Document → bytes;
  uint64ToByte_key : ∀ n, 0 < len (uint64ToByte n) ≤ bolt.MaxKeySize;
  byteToUint64_range : ∀ b, 0 ≤ byteToUint64 b < 2 ^ 64;
  byteToUint64_uint64ToByte :
    ∀ n, 0 ≤ n < 2 ^ 64 → byteToUint64 (uint64ToByte n) = n;
  intToByte_value : ∀ n, len (intToByte n) ≤ bolt.MaxValueSize
}.

(** A codec to run the model with: eight bytes, big endian. *)
Module BigEndian.

Fixpoint encode (k : nat) (n : Z) : string :=
  match k with
  | O => EmptyString
  | S k' =>
      String (Ascii.ascii_of_N (Z.to_N ((n / 256 ^ Z.of_nat k') mod 256)))
             (encode k' n)
  end.

Fixpoint decode (s : string) (acc : Z) : Z :=
  match s with
  | EmptyString => acc
  | String c s' => decode s' (acc * 256 + Z.of_N (Ascii.N_of_ascii c))
  end.

Definition put64 (n : Z) : bytes := encode 8 (n mod 2 ^ 64).
Definition get64 (b : bytes) : Z := decode b 0 mod 2 ^ 64.

End BigEndian.

(** ** The indexer *)

(** The [Indexer] struct.  [tempInverted] is nil until the first
    [updateInverted]; a missing key of it reads as a nil posting list. *)
Record Indexer := mkIndexer {
  db : DB;
  tempInverted : option (gmap Z (gmap Z bool));
  wordIdList : list Z
}.

(** [LoadIndexer] on a store: a new session, nothing staged. *)
Definition LoadIndexer (d : DB) : Indexer := mkIndexer d None [].

(** [Indexer.DropAll]. *)
Definition DropAll (i : Indexer) : Indexer :=
  mkIndexer emptyDB (tempInverted i) (wordIdList i).

Section Indexer.

Context `{Codec}.

(** *** [getId] *)

(** The [View] of [getId]: the id under [text] in the forward map, or
    nil. *)
Definition getId_view (text : string) (fwMapTable : Table) (d : DB)
  : option bytes :=
  bolt.Get (d fwMapTable) text.

(** The [Batch] of [getId]: a new id from the sequence of the forward
    map, written to both maps; the errors of the two [Put] are dropped. *)
Definition getId_batch (text : string) (fwMapTable invMapTable : Table)
    (d : DB) : bytes * DB :=
  let '(uniqueId, forwardMap) := bolt.NextSequence (d fwMapTable) in
  let id := uint64ToByte uniqueId in
  let d1 := setBucket fwMapTable (fst (bolt.Put forwardMap text id)) d in
  let d2 := setBucket invMapTable (fst (bolt.Put (d1 invMapTable) id text)) d1 in
  (id, d2).

(** [getId], run without interference. *)
Definition getId (text : string) (fwMapTable invMapTable : Table) (d : DB)
  : bytes * DB :=
  match getId_view text fwMapTable d with
  | Some id => (id, d)
  | None => getId_batch text fwMapTable invMapTable d
  end.

Definition getOrCreatePageId (url : string) (d : DB) : bytes * DB :=
  getId url UrlToPageId PageIdToUrl d.

Definition getOrCreateWordId (word : string) (d : DB) : bytes * DB :=
  getId word WordToWordId WordIdToWord d.

(** *** [updateInverted] *)

(** The critical section of [updateInverted], between [i.Lock()] and
    [i.Unlock()]: the page joins the posting list staged for the word, and
    the word joins [wordIdList] when its posting list is made. *)
Definition updateInverted_locked (wordIdUint64 pageIdUint64 : Z) (i : Indexer)
  : Indexer :=
  let temp := default ∅ (tempInverted i) in
  let '(postingList, wordIds) :=
    match temp !! wordIdUint64 with
    | None => (∅, wordIdList i ++ [wordIdUint64])
    | Some postingList => (postingList, wordIdList i)
    end in
  let postingList := <[pageIdUint64 := true]> postingList in
  mkIndexer (db i) (Some (<[wordIdUint64 := postingList]> temp)) wordIds.

(** [updateInverted], run without interference. *)
Definition updateInverted (word : string) (pageId : bytes) (i : Indexer)
  : Indexer :=
  let '(wordId, d) := getOrCreateWordId word (db i) in
  updateInverted_locked (byteToUint64 wordId) (byteToUint64 pageId)
    (mkIndexer d (tempInverted i) (wordIdList i)).

(** The page ids staged for a word id. *)
Definition staged (i : Indexer) (wordId : Z) : gmap Z bool :=
  default ∅ (default ∅ (tempInverted i) !! wordId).

(** *** [updateForward], [setMaxTf], [getMaxTf] *)

(** The [Batch] of [updateForward].  When [CreateBucketIfNotExists] fails,
    [set] is nil and [set.Put] dereferences it: the goroutine panics
    ([None]). *)
Definition updateForward_batch (wordId pageId : bytes) (tf : Z)
    (tablename : Table) (d : DB) : option DB :=
  match bolt.CreateBucketIfNotExists (d tablename) pageId with
  | (fw, inl set) =>
      Some (setBucket tablename
              (bolt.storeSub fw pageId
                 (fst (bolt.SubPut set wordId (intToByte tf)))) d)
  | (_, inr _) => None
  end.

(** [updateForward], run without interference. *)
Definition updateForward (word : string) (pageId : bytes) (tf : Z)
    (tablename : Table) (d : DB) : option DB :=
  let '(wordId, d1) := getOrCreateWordId word d in
  updateForward_batch wordId pageId tf tablename d1.

Definition setMaxTf (pageId : bytes) (maxTf : Z) (d : DB) : DB :=
  setBucket ForwardTable
    (fst (bolt.Put (d ForwardTable) pageId (intToByte maxTf))) d.

(** [getMaxTf]: [byteToInt] of what [Get] returns, the nil slice included. *)
Definition getMaxTf (pageId : bytes) (d : DB) : Z :=
  byteToInt (default EmptyString (bolt.Get (d ForwardTable) pageId)).

(** The last [Batch] of [UpdateOrAddPage]. *)
Definition putPageInfo (pageId : bytes) (p : Document) (d : DB) : DB :=
  setBucket PageInfo (fst (bolt.Put (d PageInfo) pageId (jsonMarshal p))) d.

(** [ContainsUrl]. *)
Definition ContainsUrl (url : string) (d : DB) : bool :=
  bool_decide (is_Some (bolt.Get (d UrlToPageId) url)).

(** The term frequency stored for a word id of a page, as a reader of the
    forward index sees it. *)
Definition forward (d : DB) (pageId wordId : bytes) : option bytes :=
  s ← bolt.sub (d ForwardTable) pageId; s !! wordId.

(** The posting list persisted for a word id. *)
Definition posting (d : DB) (wordId : Z) : option (gmap string string) :=
  bolt.sub (d InvertedTable) (uint64ToByte wordId).

End Indexer.

(** ** [UpdateOrAddPage] and its goroutines *)

(** The sources predate Go 1.22 (they import their packages by GOPATH
    path and declare no language version): [for word, tf := range p.Words]
    declares [word] and [tf] once for the whole loop and assigns them at
    the head of each turn, and the two closures started in the body capture
    these variables, not their values.  A goroutine reads them when it
    evaluates the arguments of its call, which can be after the loop has
    moved on.  The machine below keeps the two variables in its state, next
    to the wait group and the goroutines started so far.

    A step is what runs without interleaving: a transaction of the store
    ([View], [Batch]), the critical section of [updateInverted], an
    assignment to a loop variable, a read of one, a [wg.Done()].  The two
    [go] statements of a turn are taken together with the assignment before
    them, since starting a goroutine changes nothing that another one
    reads. *)
Module AddPage.

(** Where the first closure of the loop is:
    [go func() { i.updateInverted(word, pageId, InvertedTable); wg.Done() }()]. *)
Inductive inverted_pc :=
| InvertedStart
| InvertedView (word : string)
| InvertedBatch (word : string)
| InvertedLock (wordId : bytes)
| InvertedDone
| InvertedExited.

(** Where the second closure of the loop is:
    [go func() { i.updateForward(word, pageId, tf, ForwardTable); wg.Done() }()]. *)
Inductive forward_pc :=
| ForwardStart
| ForwardWord (word : string)
| ForwardView (word : string) (tf : Z)
| ForwardBatch (word : string) (tf : Z)
| ForwardPut (wordId : bytes) (tf : Z)
| ForwardDone
| ForwardExited.

Inductive goroutine :=
| Inverted (at_pc : inverted_pc)
| Forward (at_pc : forward_pc).

(** Where the caller of [UpdateOrAddPage] is. *)
Inductive pc :=
| PageIdView
| PageIdBatch
| Range (rest : list (string * Z))
| RangeTf (t : Z) (rest : list (string * Z))
| Wait
| SetMaxTf
| PutPageInfo
| Returned.

Record config := mkConfig {
  ix : Indexer;
  at_pc : pc;
  pageId : bytes;
  word : string;
  tf : Z;
  wg : Z;
  goroutines : list goroutine
}.

(** A configuration, or the process killed by a panic. *)
Inductive state :=
| Running (c : config)
| Crashed.

Definition exited (g : goroutine) : bool :=
  match g with
  | Inverted InvertedExited | Forward ForwardExited => true
  | _ => false
  end.

Section Machine.

Context `{Codec}.

(** The document, and the order in which [range] visits [p.Words] (Go
    leaves it unspecified). *)
Variable p : Document.
Variable order : list (string * Z).

Definition withDB (d : DB) (c : config) : config :=
  mkConfig (mkIndexer d (tempInverted (ix c)) (wordIdList (ix c)))
    (at_pc c) (pageId c) (word c) (tf c) (wg c) (goroutines c).

Definition withPc (a : pc) (c : config) : config :=
  mkConfig (ix c) a (pageId c) (word c) (tf c) (wg c) (goroutines c).

Definition withGoroutine (k : nat) (g : goroutine) (c : config) : config :=
  mkConfig (ix c) (at_pc c) (pageId c) (word c) (tf c) (wg c)
    (<[k := g]> (goroutines c)).

(** [pageId] is set, then [wg.Add(2 * len(p.Words))], then the loop. *)
Definition enterLoop (id : bytes) (d : DB) (c : config) : config :=
  mkConfig (mkIndexer d (tempInverted (ix c)) (wordIdList (ix c)))
    (Range order) id (word c) (tf c)
    (2 * Z.of_nat (size (Words p))) (goroutines c).

(** A step of the caller; [None] when it cannot move ([wg.Wait()] with
    the counter above zero, or after the return). *)
Definition stepMain (c : config) : option state :=
  let d := db (ix c) in
  match at_pc c with
  | PageIdView =>
      match getId_view (Uri p) UrlToPageId d with
      | Some id => Some (Running (enterLoop id d c))
      | None => Some (Running (withPc PageIdBatch c))
      end
  | PageIdBatch =>
      let '(id, d1) := getId_batch (Uri p) UrlToPageId PageIdToUrl d in
      Some (Running (enterLoop id d1 c))
  | Range ((w, t) :: rest) =>
      Some (Running (mkConfig (ix c) (RangeTf t rest) (pageId c) w (tf c)
                       (wg c) (goroutines c)))
  | RangeTf t rest =>
      Some (Running (mkConfig (ix c) (Range rest) (pageId c) (word c) t (wg c)
                       (goroutines c
                          ++ [Inverted InvertedStart; Forward ForwardStart])))
  | Range [] => Some (Running (withPc Wait c))
  | Wait =>
      if decide (wg c = 0) then Some (Running (withPc SetMaxTf c)) else None
  | SetMaxTf =>
      Some (Running (withPc PutPageInfo
                       (withDB (setMaxTf (pageId c) (MaxTf p) d) c)))
  | PutPageInfo =>
      Some (Running (withPc Returned (withDB (putPageInfo (pageId c) p d) c)))
  | Returned => None
  end.

Definition withWg (n : Z) (c : config) : config :=
  mkConfig (ix c) (at_pc c) (pageId c) (word c) (tf c) n (goroutines c).

(** A step of the first closure, started [k]-th; [None] when it has
    exited. *)
Definition stepInverted (k : nat) (a : inverted_pc) (c : config)
  : option state :=
  let d := db (ix c) in
  let goto a' c' := Some (Running (withGoroutine k (Inverted a') c')) in
  match a with
  | InvertedStart => goto (InvertedView (word c)) c
  | InvertedView w =>
      match getId_view w WordToWordId d with
      | Some id => goto (InvertedLock id) c
      | None => goto (InvertedBatch w) c
      end
  | InvertedBatch w =>
      let '(id, d1) := getId_batch w WordToWordId WordIdToWord d in
      goto (InvertedLock id) (withDB d1 c)
  | InvertedLock wordId =>
      goto InvertedDone
        (mkConfig
           (updateInverted_locked (byteToUint64 wordId)
              (byteToUint64 (pageId c)) (ix c))
           (at_pc c) (pageId c) (word c) (tf c) (wg c) (goroutines c))
  | InvertedDone => goto InvertedExited (withWg (wg c - 1) c)
  | InvertedExited => None
  end.

(** A step of the second closure. *)
Definition stepForward (k : nat) (a : forward_pc) (c : config)
  : option state :=
  let d := db (ix c) in
  let goto a' c' := Some (Running (withGoroutine k (Forward a') c')) in
  match a with
  | ForwardStart => goto (ForwardWord (word c)) c
  | ForwardWord w => goto (ForwardView w (tf c)) c
  | ForwardView w t =>
      match getId_view w WordToWordId d with
      | Some id => goto (ForwardPut id t) c
      | None => goto (ForwardBatch w t) c
      end
  | ForwardBatch w t =>
      let '(id, d1) := getId_batch w WordToWordId WordIdToWord d in
      goto (ForwardPut id t) (withDB d1 c)
  | ForwardPut wordId t =>
      match updateForward_batch wordId (pageId c) t ForwardTable d with
      | Some d1 => goto ForwardDone (withDB d1 c)
      | None => Some Crashed
      end
  | ForwardDone => goto ForwardExited (withWg (wg c - 1) c)
  | ForwardExited => None
  end.

Definition stepGoroutine (k : nat) (g : goroutine) (c : config)
  : option state :=
  match g with
  | Inverted a => stepInverted k a c
  | Forward a => stepForward k a c
  end.

(** The scheduler picks who moves: [0] is the caller, [S k] the goroutine
    started [k]-th. *)
Definition step (who : nat) (c : config) : option state :=
  match who with
  | O => stepMain c
  | S k => g ← goroutines c !! k; stepGoroutine k g c
  end.

(** A schedule is the list of picks; a pick that cannot move is passed
    over. *)
Fixpoint run (schedule : list nat) (s : state) : state :=
  match schedule, s with
  | [], _ => s
  | _, Crashed => Crashed
  | who :: schedule', Running c =>
      match step who c with
      | Some s' => run schedule' s'
      | None => run schedule' s
      end
  end.

Definition start (i : Indexer) : state :=
  Running (mkConfig i PageIdView EmptyString EmptyString 0 0 []).

(** [UpdateOrAddPage(p)] on the indexer [i] under a schedule. *)
Definition UpdateOrAddPage (schedule : list nat) (i : Indexer) : state :=
  run schedule (start i).

(** The indexer that the call leaves when it has returned. *)
Definition returned (s : state) : option Indexer :=
  match s with
  | Running c => match at_pc c with Returned => Some (ix c) | _ => None end
  | Crashed => None
  end.

(** The schedule without interference: each goroutine runs to its end as
    soon as it is started, before the loop moves on.  The caller takes one
    step to the loop when the page has its id and two when it has not, and
    two steps for a turn of the loop; a goroutine takes at most six
    steps. *)
Fixpoint inOrderFrom (k : nat) (n : nat) : list nat :=
  match n with
  | O => []
  | S n' =>
      [0; 0]%nat ++ replicate 6 (S k) ++ replicate 6 (S (S k))
        ++ inOrderFrom (S (S k)) n'
  end.

Definition inOrder (i : Indexer) : list nat :=
  (if ContainsUrl (Uri p) (db i) then [0%nat] else [0%nat; 0%nat])
    ++ inOrderFrom 0 (length order) ++ [0; 0; 0; 0]%nat.

End Machine.

End AddPage.

(** ** [sort.Slice] *)

(** A slice is in the order of [less] when no element is less than one
    before it. *)
Definition Ascending {A} (less : A → A → bool) (l : list A) : Prop :=
  StronglySorted (λ x y, less y x = false) l.

(** What [sort.Slice] asks of [less]. *)
Record StrictWeakOrder {A} (less : A → A → bool) : Prop := {
  less_asym : ∀ x y, less x y = true → less y x = false;
  less_trans : ∀ x y z, less x y = true → less y z = true → less x z = true;
  less_incomp : ∀ x y z, less x y = false → less y z = false → less x z = false
}.

(** [sort.Slice] is not stable: it leaves the slice in some order of
    [less], with the same elements.  The development is parametric in the
    sort. *)
Class SortSlice := {
  sort_Slice : ∀ {A}, (A → A → bool) → list A → list A;
  sort_Slice_Permutation :
    ∀ A (less : A → A → bool) l, sort_Slice less l ≡ₚ l;
  sort_Slice_Ascending :
    ∀ A (less : A → A → bool) l,
      StrictWeakOrder less → Ascending less (sort_Slice less l)
}.

(** A sort to run the model with: insertion from the right. *)
Module Insertion.

Fixpoint insert {A} (less : A → A → bool) (x : A) (l : list A) : list A :=
  match l with
  | [] => [x]
  | y :: l' => if less x y then x :: l else y :: insert less x l'
  end.

Definition sort {A} (less : A → A → bool) (l : list A) : list A :=
  foldr (insert less) [] l.

End Insertion.

(** ** [FlushInverted] and its goroutines *)

(** The marker [[]byte{1}]. *)
Definition marker : bytes := String (Ascii.ascii_of_nat 1) EmptyString.

(** As in [UpdateOrAddPage], the closure handed to [Batch] captures the
    loop variable [id] itself; [idBytes] is declared in the body of the
    loop, so each closure has its own.

    [wg.Done()] is called by the closure, inside the transaction, and not
    after [Batch] has returned.  bolt runs the closures of a batch one
    after the other in one write transaction and commits it afterwards; a
    closure sees the writes of the closures before it, and other readers
    see them at the commit.  The machine therefore keeps the open write
    transaction apart from the committed store: a closure works on the
    transaction, and the commit is a step of its own. *)
Module Flush.

(** Where the caller of [FlushInverted] is. *)
Inductive pc :=
| Sort
| FillPercent
| Range (rest : list Z)
| Wait
| Returned.

(** [tasks] holds, for each [go i.db.Batch(...)] so far, the [idBytes] of
    its closure, or [None] once the closure has run.  [txn] is the state of
    the store in the write transaction of the running batch, when there is
    one; [db ix] is the committed store. *)
Record config := mkConfig {
  ix : Indexer;
  txn : option DB;
  at_pc : pc;
  id : Z;
  wg : Z;
  tasks : list (option bytes)
}.

Inductive state :=
| Running (c : config)
| Crashed.

(** Who moves: the caller, the closure of the task started [k]-th, or the
    batch, which commits. *)
Inductive pick :=
| Caller
| Closure (k : nat)
| Commit.

(** The store as the next closure sees it. *)
Definition view (c : config) : DB := default (db (ix c)) (txn c).

(** The indexer that the call leaves when it has returned and the last
    batch has committed. *)
Definition returned (s : state) : option Indexer :=
  match s with
  | Running c =>
      match at_pc c, txn c with
      | Returned, None => Some (ix c)
      | _, _ => None
      end
  | Crashed => None
  end.

Section Machine.

Context `{Codec} `{SortSlice}.

(** The loop [for docId, _ := range postingList], on the nested bucket
    [wordSet]. *)
Definition putAll (postingList : gmap Z bool) (wordSet : gmap string string)
  : gmap string string :=
  map_fold (λ docId _ set, fst (bolt.SubPut set (uint64ToByte docId) marker))
    wordSet postingList.

(** The closure handed to [Batch], on the posting list that
    [i.tempInverted[id]] gives when it runs.  A nil [wordSet] makes
    [wordSet.Put] panic ([None]); a nil [postingList] is an empty loop. *)
Definition merge_batch (idBytes : bytes) (postingList : gmap Z bool) (d : DB)
  : option DB :=
  match bolt.CreateBucketIfNotExists (d InvertedTable) idBytes with
  | (inverted, inl wordSet) =>
      Some (setBucket InvertedTable
              (bolt.storeSub inverted idBytes (putAll postingList wordSet)) d)
  | (_, inr _) => None
  end.

Definition withPc (a : pc) (c : config) : config :=
  mkConfig (ix c) (txn c) a (id c) (wg c) (tasks c).

(** A step of the caller.  [wordIdList] shares its array with
    [i.wordIdList], which [sort.Slice] therefore sorts.  The [Update] that
    sets [FillPercent] is a write transaction, so it waits for the one that
    is open; it changes a field of its bucket object and nothing in the
    store.  In a turn of the loop the assignment to [id] and the [go]
    statement are one step: starting a task changes nothing that a closure
    reads.  What the loop prints is left out. *)
Definition stepMain (c : config) : option state :=
  match at_pc c with
  | Sort =>
      let wordIdList := sort_Slice Z.ltb (wordIdList (ix c)) in
      Some (Running
              (mkConfig (mkIndexer (db (ix c)) (tempInverted (ix c)) wordIdList)
                 (txn c) FillPercent (id c) (wg c) (tasks c)))
  | FillPercent =>
      match txn c with
      | None =>
          Some (Running
                  (mkConfig (ix c) None (Range (wordIdList (ix c))) (id c)
                     (Z.of_nat (length (wordIdList (ix c)))) (tasks c)))
      | Some _ => None
      end
  | Range (x :: rest) =>
      Some (Running
              (mkConfig (ix c) (txn c) (Range rest) x (wg c)
                 (tasks c ++ [Some (uint64ToByte x)])))
  | Range [] => Some (Running (withPc Wait c))
  | Wait => if decide (wg c = 0) then Some (Running (withPc Returned c)) else None
  | Returned => None
  end.

(** The closure of the task started [k]-th runs, once, in the write
    transaction of its batch: it reads [id] and [i.tempInverted] as they
    are now, and calls [wg.Done()]. *)
Definition stepClosure (k : nat) (c : config) : option state :=
  match tasks c !! k with
  | Some (Some idBytes) =>
      match merge_batch idBytes (staged (ix c) (id c)) (view c) with
      | Some d =>
          Some (Running
                  (mkConfig (ix c) (Some d) (at_pc c) (id c) (wg c - 1)
                     (<[k := None]> (tasks c))))
      | None => Some Crashed
      end
  | _ => None
  end.

(** The batch commits its transaction. *)
Definition stepCommit (c : config) : option state :=
  match txn c with
  | Some d =>
      Some (Running
              (mkConfig (mkIndexer d (tempInverted (ix c)) (wordIdList (ix c)))
                 None (at_pc c) (id c) (wg c) (tasks c)))
  | None => None
  end.

Definition step (who : pick) (c : config) : option state :=
  match who with
  | Caller => stepMain c
  | Closure k => stepClosure k c
  | Commit => stepCommit c
  end.

(** A schedule is the list of picks; a pick that cannot move is passed
    over. *)
Fixpoint run (schedule : list pick) (s : state) : state :=
  match schedule, s with
  | [], _ => s
  | _, Crashed => Crashed
  | who :: schedule', Running c =>
      match step who c with
      | Some s' => run schedule' s'
      | None => run schedule' s
      end
  end.

Definition start (i : Indexer) : state :=
  Running (mkConfig i None Sort 0 0 []).

(** [FlushInverted()] on the indexer [i] under a schedule. *)
Definition FlushInverted (schedule : list pick) (i : Indexer) : state :=
  run schedule (start i).

(** The schedule without interference: each closure runs, and its batch
    commits, as soon as the task is started, before the loop moves on. *)
Fixpoint inOrderFrom (k : nat) (n : nat) : list pick :=
  match n with
  | O => []
  | S n' => [Caller; Closure k; Commit] ++ inOrderFrom (S k) n'
  end.

Definition inOrder (n : nat) : list pick :=
  [Caller; Caller] ++ inOrderFrom 0 n ++ [Caller; Caller].

End Machine.

End Flush.

(** ** Retrieval *)

(** Modelled from the spec: [database.Viewer] is not among the sources.
    The retrieval code reads two things through it: the posting list of a
    term, an ordered sequence of page ids, and
    [GetPositionIndices(pageId, term)], the ordered sequence of the offsets
    of the term in the page. *)
Record Viewer := mkViewer {
  GetPostingList : string → list Z;
  GetPositionIndices : Z → string → list Z
}.

(** Modelled from the spec: [intersect] is not among the sources; the spec
    describes it as the two-pointer merge of two sorted sequences, linear
    in the sum of their sizes.  [searchPhrase] applies it to slices of page
    ids, [[]uint64], and [hasPhrase] to position lists, which are therefore
    [[]uint64] as well. *)
Fixpoint intersect (a b : list Z) : list Z :=
  let fix advance (b : list Z) : list Z :=
    match a, b with
    | x :: a', y :: b' =>
        if decide (x < y) then intersect a' b
        else if decide (y < x) then advance b'
        else x :: intersect a' b'
    | _, _ => []
    end in
  advance b.

Record Bigram := mkBigram {
  n1 : string;
  n2 : string
}.

(** [splitToBigrams]: the loop over [i] with [i+1 < len(query)]. *)
Fixpoint splitToBigrams (query : list string) : list Bigram :=
  match query with
  | a :: rest =>
      match rest with
      | b :: _ => mkBigram a b :: splitToBigrams rest
      | [] => []
      end
  | [] => []
  end.

(** [pos2[i]--] on a [uint64]. *)
Definition decrement (pos : Z) : Z := (pos - 1) mod 2 ^ 64.

(** The [less] of the two sorts by size:
    [len(docWithBigrams[i]) < len(docWithBigrams[j])]. *)
Definition shorter (a b : list Z) : bool := bool_decide (length a < length b)%nat.

Section Retrieval.

Context `{SortSlice}.

(** Modelled from the spec: [booleanFilter] is not among the sources.  It
    fetches the posting list of each term, sorts the lists ascending by
    size and intersects them pairwise, empty as soon as an intermediate
    result is empty; one term gives its posting list unchanged, no term
    gives the empty sequence. *)
Definition booleanFilter (terms : list string) (viewer : Viewer) : list Z :=
  match sort_Slice shorter (GetPostingList viewer <$> terms) with
  | [] => []
  | first :: others =>
      foldl (λ acc l, match acc with [] => [] | _ => intersect acc l end)
        first others
  end.

(** [hasPhrase]: the loop over the candidates.  Each call of
    [GetPositionIndices] is taken to give a slice of its own, so that the
    decrement in place stays local to the candidate. *)
Definition hasPhrase (bigram : Bigram) (viewer : Viewer) : list Z :=
  let docIds := booleanFilter [n1 bigram; n2 bigram] viewer in
  foldl
    (λ rv id,
       let pos1 := GetPositionIndices viewer id (n1 bigram) in
       let pos2 := decrement <$> GetPositionIndices viewer id (n2 bigram) in
       let common := intersect pos1 pos2 in
       if decide (0 < length common)%nat then rv ++ [id] else rv)
    [] docIds.

(** [searchPhrase].  With two terms or more there is at least one bigram,
    so [docWithBigrams[0]] exists. *)
Definition searchPhrase (query : list string) (viewer : Viewer) : list Z :=
  if decide (length query ≤ 1)%nat then booleanFilter query viewer
  else
    let bigrams := splitToBigrams query in
    let docWithBigrams :=
      foldl (λ acc bigram, acc ++ [hasPhrase bigram viewer]) [] bigrams in
    let docWithBigrams := sort_Slice shorter docWithBigrams in
    match docWithBigrams with
    | [] => []
    | first :: others =>
        foldl (λ docIDs docs, intersect docIDs docs) ([] ++ first) others
    end.

End Retrieval.

(** ** Invariants and predicates *)

(** The invariant of the staging structure: [wordIdList] lists the keys of
    [tempInverted], each once. *)
Definition StagingOk (i : Indexer) : Prop :=
  NoDup (wordIdList i)
  ∧ ∀ w, w ∈ wordIdList i ↔ w ∈ dom (default ∅ (tempInverted i)).

(** A table holds plain pairs only: no key of it holds a nested bucket.
    This is so for the four mapping tables and the table of page records,
    where the indexer never creates a bucket. *)
Definition Flat (b : bolt.Bucket) : Prop :=
  ∀ k s, bolt.pairs b !! k ≠ Some (bolt.Nested s).

(** The state of a pair of mapping tables that [getId] maintains: the ids
    of the forward map were drawn from its sequence, and the inverse map
    resolves each of them to its text. *)
Definition IdTablesOk `{Codec} (fwMapTable invMapTable : Table) (d : DB) : Prop :=
  0 ≤ bolt.sequence (d fwMapTable) < 2 ^ 64
  ∧ Flat (d fwMapTable)
  ∧ Flat (d invMapTable)
  ∧ ∀ text id,
      bolt.Get (d fwMapTable) text = Some id →
      ∃ n, 0 ≤ n ≤ bolt.sequence (d fwMapTable)
           ∧ id = uint64ToByte n
           ∧ bolt.Get (d invMapTable) id = Some text.

(** The candidates of a bigram whose position lists, the second one moved
    back by one, have a common value. *)
Definition adjacent (viewer : Viewer) (bigram : Bigram) (id : Z) : Prop :=
  ∃ pos, pos ∈ GetPositionIndices viewer id (n1 bigram)
         ∧ pos ∈ decrement <$> GetPositionIndices viewer id (n2 bigram).

(** A page that reads [b a b]: it holds the phrase [a b] at offsets 1
    and 2, and its second term at offset 0 as well. *)
Definition pageBAB : Viewer :=
  mkViewer
    (λ term, if decide (term = "a" ∨ term = "b")%string then [7] else [])
    (λ id term,
       if decide (id = 7) then
         if decide (term = "a"%string) then [1]
         else if decide (term = "b"%string) then [0; 2] else []
       else []).

(** The goroutines of a call that are still to call [wg.Done()]. *)
Definition pending (gs : list AddPage.goroutine) : Z :=
  Z.of_nat (length (filter (λ g, AddPage.exited g = false) gs)).

(** The caller is past [wg.Wait()]: the write of [maxTf] and the write of
    the page record are issued from these places only. *)
Definition pastBarrier (a : AddPage.pc) : Prop :=
  a = AddPage.SetMaxTf ∨ a = AddPage.PutPageInfo ∨ a = AddPage.Returned.

(** The account of the wait group of [UpdateOrAddPage]: the counter is
    the number of goroutines still to be started or still to call
    [wg.Done()]. *)
Definition Barrier (order : list (string * Z)) (c : AddPage.config) : Prop :=
  match AddPage.at_pc c with
  | AddPage.PageIdView | AddPage.PageIdBatch => AddPage.goroutines c = []
  | AddPage.Range rest =>
      AddPage.wg c = 2 * Z.of_nat (length rest) + pending (AddPage.goroutines c)
      ∧ (length (AddPage.goroutines c) + 2 * length rest = 2 * length order)%nat
  | AddPage.RangeTf _ rest =>
      AddPage.wg c
      = 2 * Z.of_nat (S (length rest)) + pending (AddPage.goroutines c)
      ∧ (length (AddPage.goroutines c) + 2 * S (length rest)
         = 2 * length order)%nat
  | AddPage.Wait =>
      AddPage.wg c = pending (AddPage.goroutines c)
      ∧ (length (AddPage.goroutines c) = 2 * length order)%nat
  | AddPage.SetMaxTf | AddPage.PutPageInfo | AddPage.Returned =>
      pending (AddPage.goroutines c) = 0
      ∧ (length (AddPage.goroutines c) = 2 * length order)%nat
  end.

(** The second closure of the loop has come back from [updateForward]. *)
Definition forwardWritten (g : AddPage.goroutine) : Prop :=
  g = AddPage.Forward AddPage.ForwardDone
  ∨ g = AddPage.Forward AddPage.ForwardExited.

Definition isForward (g : AddPage.goroutine) : bool :=
  match g with AddPage.Forward _ => true | AddPage.Inverted _ => false end.

(** The state of the forward index while [UpdateOrAddPage] runs: once a
    goroutine has come back from [updateForward], the key of the page in
    the forward table holds a nested bucket; and half of the goroutines of
    the loop are those of [updateForward]. *)
Definition ForwardKey (c : AddPage.config) : Prop :=
  (∀ k g, AddPage.goroutines c !! k = Some g → forwardWritten g →
          is_Some (bolt.sub (db (AddPage.ix c) ForwardTable) (AddPage.pageId c)))
  ∧ (2 * length (filter (λ g, isForward g = true) (AddPage.goroutines c))
     = length (AddPage.goroutines c))%nat.

(** The closures of [FlushInverted] that are still to run. *)
Definition waiting (ts : list (option bytes)) : Z :=
  Z.of_nat (length (filter (λ t : option bytes, is_Some t) ts)).

(** The task started for the word id [w]: its closure holds the key of
    the word, and once it has run the posting list of the word exists. *)
Definition TaskOf `{Codec} (d : DB) (w : Z) (t : option bytes) : Prop :=
  match t with
  | Some idBytes => idBytes = uint64ToByte w
  | None => is_Some (bolt.sub (d InvertedTable) (uint64ToByte w))
  end.

(** The inverted index only grows: a posting list keeps the pages it
    holds. *)
Definition Grows (d0 d : DB) : Prop :=
  ∀ key s, bolt.sub (d0 InvertedTable) key = Some s →
           ∃ s', bolt.sub (d InvertedTable) key = Some s' ∧ dom s ⊆ dom s'.

(** The state of [FlushInverted] on the indexer [i0]: the committed store
    has grown from the one of [i0], the open transaction from the
    committed store, and the tasks started so far are those of the
    smallest word ids, in their order. *)
Definition FlushInv `{Codec} `{SortSlice} (i0 : Indexer) (c : Flush.config)
  : Prop :=
  let sorted := sort_Slice Z.ltb (wordIdList i0) in
  let d := Flush.view c in
  tempInverted (Flush.ix c) = tempInverted i0
  ∧ Grows (db i0) (db (Flush.ix c))
  ∧ Grows (db (Flush.ix c)) d
  ∧ (∀ t, t ≠ InvertedTable → db (Flush.ix c) t = db i0 t ∧ d t = db i0 t)
  ∧ match Flush.at_pc c with
    | Flush.Sort =>
        wordIdList (Flush.ix c) = wordIdList i0
        ∧ Flush.tasks c = [] ∧ Flush.txn c = None
    | Flush.FillPercent =>
        wordIdList (Flush.ix c) = sorted
        ∧ Flush.tasks c = [] ∧ Flush.txn c = None
    | Flush.Range rest =>
        wordIdList (Flush.ix c) = sorted
        ∧ ∃ visited, sorted = visited ++ rest
            ∧ Forall2 (TaskOf d) visited (Flush.tasks c)
            ∧ Flush.wg c = Z.of_nat (length rest) + waiting (Flush.tasks c)
    | Flush.Wait =>
        wordIdList (Flush.ix c) = sorted
        ∧ Forall2 (TaskOf d) sorted (Flush.tasks c)
        ∧ Flush.wg c = waiting (Flush.tasks c)
    | Flush.Returned =>
        wordIdList (Flush.ix c) = sorted
        ∧ Forall2 (TaskOf d) sorted (Flush.tasks c)
        ∧ waiting (Flush.tasks c) = 0
    end.

(** A table of nested buckets only, as the inverted table is: the indexer
    never puts a plain pair in it. *)
Definition NoLeaf (b : bolt.Bucket) : Prop :=
  ∀ key v, bolt.pairs b !! key ≠ Some (bolt.Leaf v).

(** ** Sample runs *)

(** A page with the terms [a] and [b]. *)
Definition docAB : Document :=
  mkDocument "u1" "AB" (<["a" := 1]> (<["b" := 2]> ∅)) 2.

Definition orderAB : list (string * Z) := [("a"%string, 1); ("b"%string, 2)].

(** The loop of [UpdateOrAddPage] runs to its end before any of the four
    goroutines starts; then each goroutine runs, then the caller goes
    on. *)
Definition lateAB : list nat :=
  [0; 0; 0; 0; 0; 0; 0]%nat
    ++ replicate 5 1%nat ++ replicate 6 2%nat
    ++ replicate 5 3%nat ++ replicate 6 4%nat
    ++ [0; 0; 0]%nat.

(** The two goroutines of the term [a] take their steps in turn: both
    look the word up before either has drawn an id for it.  The rest runs
    without interference. *)
Definition raceAB : list nat :=
  [0; 0; 0; 0]%nat
    ++ [1; 2; 2; 1; 2; 1; 2; 1; 2; 1; 2]%nat
    ++ [0; 0]%nat ++ replicate 5 3%nat ++ replicate 6 4%nat
    ++ [0; 0; 0; 0]%nat.

(** Three pages of one term each. *)
Definition docA : Document := mkDocument "u1" "A" {["a" := 1]} 1.
Definition docB : Document := mkDocument "u2" "B" {["b" := 1]} 1.
Definition docA' : Document := mkDocument "u2" "A2" {["a" := 1]} 1.

(** The loop of [FlushInverted] over two word ids runs to its end before
    either closure runs. *)
Definition lateFlush : list Flush.pick :=
  [Flush.Caller; Flush.Caller; Flush.Caller; Flush.Caller; Flush.Caller;
   Flush.Closure 0; Flush.Closure 1; Flush.Commit; Flush.Caller].

(** The loop runs to its end, the two closures run, and the caller
    returns before their batch commits. *)
Definition earlyReturn : list Flush.pick :=
  [Flush.Caller; Flush.Caller; Flush.Caller; Flush.Caller; Flush.Caller;
   Flush.Closure 0; Flush.Closure 1; Flush.Caller].

(** An indexer of one session with two words staged: word 2 for page 1,
    word 1 for the pages 1 and 2. *)
Definition stagedTwoWords : Indexer :=
  mkIndexer emptyDB
    (Some (<[2 := {[1 := true]}]> {[1 := <[1 := true]> {[2 := true]}]}))
    [2; 1].

Section Scenarios.

Context `{Codec} `{SortSlice}.

(** [UpdateOrAddPage] and [FlushInverted] without interference. *)
Definition addPage (p : Document) (i : Indexer) : option Indexer :=
  let order := map_to_list (Words p) in
  AddPage.returned
    (AddPage.UpdateOrAddPage p order (AddPage.inOrder p order i) i).

Definition flush (i : Indexer) : option Indexer :=
  Flush.returned
    (Flush.FlushInverted (Flush.inOrder (length (wordIdList i))) i).

(** One session on an empty store: the pages [docA] and [docB] are added
    and the index is flushed; then [docA] is added a second time and the
    index is flushed under [lateFlush].  The indexer after the first flush
    and after the second. *)
Definition addTwice : option (Indexer * Indexer) :=
  i1 ← addPage docA (LoadIndexer emptyDB);
  i2 ← addPage docB i1;
  i3 ← flush i2;
  i4 ← addPage docA i3;
  i5 ← Flush.returned (Flush.FlushInverted lateFlush i4);
  Some (i3, i5).

(** Two sessions on one store, without interference: [docA] is added and
    flushed; a new indexer is loaded on the store, [docA'] is added and
    flushed. *)
Definition twoSessions : option Indexer :=
  i1 ← addPage docA (LoadIndexer emptyDB);
  i2 ← flush i1;
  i3 ← addPage docA' (LoadIndexer (db i2));
  flush i3.

End Scenarios.

(** ** Further predicates and sample data *)

(** The caller of [UpdateOrAddPage] has its page id: it is past
    [getOrCreatePageId]. *)
Definition entered (a : AddPage.pc) : Prop :=
  a ≠ AddPage.PageIdView ∧ a ≠ AddPage.PageIdBatch.

(** The address of the page while [UpdateOrAddPage] runs on the indexer
    [i0]: once the caller has its page id, the address is registered under
    it. *)
Definition UrlKnown `{Codec} (p : Document) (i0 : Indexer) (c : AddPage.config)
  : Prop :=
  match AddPage.at_pc c with
  | AddPage.PageIdView | AddPage.PageIdBatch =>
      AddPage.goroutines c = []
      ∧ db (AddPage.ix c) UrlToPageId = db i0 UrlToPageId
  | _ =>
      bolt.Get (db (AddPage.ix c) UrlToPageId) (Uri p) = Some (AddPage.pageId c)
  end.

(** The page id of the caller of [UpdateOrAddPage] on the indexer [i0]:
    once the caller has it, it is one that [uint64ToByte] has made. *)
Definition PageIdOk `{Codec} (i0 : Indexer) (c : AddPage.config) : Prop :=
  match AddPage.at_pc c with
  | AddPage.PageIdView | AddPage.PageIdBatch =>
      AddPage.goroutines c = []
      ∧ db (AddPage.ix c) UrlToPageId = db i0 UrlToPageId
  | _ => ∃ n, AddPage.pageId c = uint64ToByte n
  end.

(** The table of page records while [UpdateOrAddPage] runs on the indexer
    [i0]: untouched until the last [Batch], which stores the record of the
    page under its id and nothing else. *)
Definition PageRecord `{Codec} (p : Document) (i0 : Indexer)
    (c : AddPage.config) : Prop :=
  match AddPage.at_pc c with
  | AddPage.Returned =>
      bolt.Get (db (AddPage.ix c) PageInfo) (AddPage.pageId c)
      = Some (jsonMarshal p)
      ∧ ∀ other, other ≠ AddPage.pageId c →
                 bolt.Get (db (AddPage.ix c) PageInfo) other
                 = bolt.Get (db i0 PageInfo) other
  | _ => db (AddPage.ix c) PageInfo = db i0 PageInfo
  end.

(** The forward table while [UpdateOrAddPage] runs for a page without
    terms on the indexer [i0]: no goroutine is started, and the table is
    touched by [setMaxTf] only. *)
Definition MaxTfStored `{Codec} (p : Document) (i0 : Indexer)
    (c : AddPage.config) : Prop :=
  AddPage.goroutines c = []
  ∧ match AddPage.at_pc c with
    | AddPage.PageIdView | AddPage.PageIdBatch | AddPage.Range []
    | AddPage.Wait | AddPage.SetMaxTf =>
        db (AddPage.ix c) ForwardTable = db i0 ForwardTable
    | AddPage.PutPageInfo | AddPage.Returned =>
        db (AddPage.ix c) ForwardTable
        = (bolt.Put (db i0 ForwardTable) (AddPage.pageId c)
             (intToByte (MaxTf p))).1
    | AddPage.Range (_ :: _) | AddPage.RangeTf _ _ => False
    end.

(** [UpdateOrAddPage] cannot panic from here: the caller is past
    [wg.Wait()], or the forward table holds no plain pair (and the page id
    is not empty). *)
Definition Safe `{Codec} (order : list (string * Z)) (i0 : Indexer)
    (c : AddPage.config) : Prop :=
  Barrier order c
  ∧ PageIdOk i0 c
  ∧ (pastBarrier (AddPage.at_pc c) ∨ NoLeaf (db (AddPage.ix c) ForwardTable)).

(** [UpdateOrAddPage] for a page with terms whose address is registered
    under [id], when the key [id] of the forward table holds a plain
    value: the caller has not passed [wg.Wait()], and no goroutine has
    come back from [updateForward]. *)
Definition Stuck `{Codec} (p : Document) (order : list (string * Z))
    (id : bytes) (c : AddPage.config) : Prop :=
  Barrier order c
  ∧ ForwardKey c
  ∧ bolt.Get (db (AddPage.ix c) UrlToPageId) (Uri p) = Some id
  ∧ is_Some (bolt.Get (db (AddPage.ix c) ForwardTable) id)
  ∧ AddPage.at_pc c ≠ AddPage.PageIdBatch
  ∧ (entered (AddPage.at_pc c) → AddPage.pageId c = id)
  ∧ ¬ pastBarrier (AddPage.at_pc c).

(** The staging structure while [UpdateOrAddPage] runs on the indexer
    [i0]: it keeps what was staged, and what it gains is the page of the
    call. *)
Definition StagesOwnPage `{Codec} (i0 : Indexer) (c : AddPage.config) : Prop :=
  match AddPage.at_pc c with
  | AddPage.PageIdView | AddPage.PageIdBatch => AddPage.goroutines c = []
  | _ => True
  end
  ∧ (∀ w, dom (staged i0 w) ⊆ dom (staged (AddPage.ix c) w))
  ∧ ∀ w pg, pg ∈ dom (staged (AddPage.ix c) w) →
            pg ∈ dom (staged i0 w)
            ∨ (entered (AddPage.at_pc c) ∧ pg = byteToUint64 (AddPage.pageId c)).

(** A page without terms. *)
Definition docNone : Document := mkDocument "u0" "none" ∅ 5.

(** The same address, now with a term. *)
Definition docSome : Document := mkDocument "u0" "some" {["a" := 1]} 1.

(** A page 7 that reads [a b]. *)
Definition pageAB : Viewer :=
  mkViewer
    (λ term, if decide (term = "a" ∨ term = "b")%string then [7] else [])
    (λ id term,
       if decide (id = 7) then
         if decide (term = "a"%string) then [0]
         else if decide (term = "b"%string) then [1] else []
       else []).

(** ** A session *)

(** What a program does with an indexer between [LoadIndexer] and
    [Close]: calls of [UpdateOrAddPage] and of [FlushInverted], one after
    the other, each under a schedule of its own. *)
Inductive call :=
| AddCall (p : Document) (order : list (string * Z)) (schedule : list nat)
| FlushCall (schedule : list Flush.pick).

(** The indexer that a call leaves when it has returned. *)
Definition runCall `{Codec} `{SortSlice} (k : call) (i : Indexer)
  : option Indexer :=
  match k with
  | AddCall p order schedule =>
      AddPage.returned (AddPage.UpdateOrAddPage p order schedule i)
  | FlushCall schedule => Flush.returned (Flush.FlushInverted schedule i)
  end.

(** The calls in turn; [None] when one of them does not return. *)
Definition session `{Codec} `{SortSlice} (calls : list call) (i : Indexer)
  : option Indexer :=
  foldl (λ oi k, oi ≫= runCall k) (Some i) calls.

(** What every call of a session finds: the staging structure and
    [wordIdList] agree, the word ids are [uint64], and the inverted table
    holds nested buckets only. *)
Definition SessionOk (i : Indexer) : Prop :=
  StagingOk i
  ∧ Forall (λ w, 0 ≤ w < 2 ^ 64) (wordIdList i)
  ∧ NoLeaf (db i InvertedTable).

(** ** [UpdateOrAddPage] read without goroutines *)

Section Sequential.

Context `{Codec}.

(** One turn of the loop of [UpdateOrAddPage] when each of its two
    goroutines runs to its end before the next statement: a call of
    [updateInverted], then a call of [updateForward]; [None] when
    [updateForward] panics. *)
Definition turn (pageId : bytes) (i : Indexer) (wt : string * Z)
  : option Indexer :=
  let i1 := updateInverted wt.1 pageId i in
  d2 ← updateForward wt.1 pageId wt.2 ForwardTable (db i1);
  Some (mkIndexer d2 (tempInverted i1) (wordIdList i1)).

(** [UpdateOrAddPage] read in this way, [range] visiting the terms in the
    given order. *)
Definition addPageSeq (p : Document) (order : list (string * Z)) (i : Indexer)
  : option Indexer :=
  let '(pageId, d0) := getOrCreatePageId (Uri p) (db i) in
  i' ← foldl (λ oi wt, oi ≫= λ i, turn pageId i wt)
         (Some (mkIndexer d0 (tempInverted i) (wordIdList i))) order;
  Some (mkIndexer
          (putPageInfo pageId p (setMaxTf pageId (MaxTf p) (db i')))
          (tempInverted i') (wordIdList i')).

End Sequential.

(** ** The command [print] *)

(** [cmd/print.go].  The standard input is given by what the successive
    calls of [reader.ReadString('\n')] return before the end of the input;
    from then on they return the empty string (and [io.EOF], which the
    program drops).  The three printing methods of the viewer, which are
    not among the sources, are recorded by name. *)
Module Print.

Inductive output :=
| PrintAllWords
| PrintAllPages
| PrintAdjList
| InvalidOption.

(** The loop has ended at [break], or the program has panicked. *)
Inductive outcome :=
| Exited (out : list output)
| Panicked (out : list output).

(** [strconv.Atoi(string(opt[0]))] with its error dropped: the value of a
    digit, and 0 for any other byte. *)
Definition atoi (c : Ascii.ascii) : Z :=
  let n := Z.of_nat (Ascii.nat_of_ascii c) in
  if decide (48 ≤ n ≤ 57) then n - 48 else 0.

(** The [switch]. *)
Definition choose (num : Z) : output :=
  if decide (num = 1) then PrintAllWords
  else if decide (num = 2) then PrintAllPages
  else if decide (num = 3) then PrintAdjList
  else InvalidOption.

Definition quit : string :=
  String (Ascii.ascii_of_nat 113) (String (Ascii.ascii_of_nat 10) EmptyString).

(** What a turn of the loop does for a line that is not empty and is not
    [q]: the [switch] on the number read from its first byte. *)
Definition answer (opt : string) : output :=
  match opt with
  | String c _ => choose (atoi c)
  | EmptyString => InvalidOption
  end.

Definition after (o : output) (r : outcome) : outcome :=
  match r with
  | Exited out => Exited (o :: out)
  | Panicked out => Panicked (o :: out)
  end.

(** [main]: [opt[0]] is evaluated before the test for [q], and is out of
    range on the empty string. *)
Fixpoint main (stdin : list string) : outcome :=
  match stdin with
  | [] => Panicked []
  | opt :: rest =>
      match opt with
      | EmptyString => Panicked []
      | String c _ =>
          let num := atoi c in
          if decide (opt = quit) then Exited []
          else after (choose num) (main rest)
      end
  end.

End Print.

(** * Proofs *)

(** ** The sample codec and the sample sort *)

Lemma len_nonneg (b : bytes) : 0 ≤ len b.
Proof. unfold len. lia. Qed.

Lemma BigEndian_encode_length (k : nat) (n : Z) :
  String.length (BigEndian.encode k n) = k.
Proof. induction k as [|k IH]; simpl; [done | by rewrite IH]. Qed.

Lemma BigEndian_decode_encode (k : nat) (n acc : Z) :
  BigEndian.decode (BigEndian.encode k n) acc
  = acc * 256 ^ Z.of_nat k + n mod 256 ^ Z.of_nat k.
Proof.
  revert acc. induction k as [|k IH]; intros acc.
  - simpl. rewrite Z.mod_1_r. lia.
  - cbn [BigEndian.encode BigEndian.decode]. rewrite IH.
    assert (Hd : 0 ≤ (n / 256 ^ Z.of_nat k) mod 256 < 256)
      by (apply Z.mod_pos_bound; lia).
    rewrite Ascii.N_ascii_embedding by lia.
    rewrite Z2N.id by lia.
    replace (Z.of_nat (S k)) with (Z.of_nat k + 1) by lia.
    rewrite Z.pow_add_r, Z.pow_1_r by lia.
    rewrite (Z.rem_mul_r n (256 ^ Z.of_nat k) 256) by lia.
    lia.
Qed.

Lemma BigEndian_get_put (n : Z) :
  0 ≤ n < 2 ^ 64 → BigEndian.get64 (BigEndian.put64 n) = n.
Proof.
  intros Hn. unfold BigEndian.get64, BigEndian.put64.
  rewrite BigEndian_decode_encode.
  change (256 ^ Z.of_nat 8) with (2 ^ 64).
  by rewrite !(Z.mod_small n).
Qed.

(** The big-endian codec; the page record is stood for by its address and
    its title. *)
#[global] Program Instance bigEndian : Codec := {|
  uint64ToByte := BigEndian.put64;
  byteToUint64 := BigEndian.get64;
  intToByte := BigEndian.put64;
  byteToInt := λ b, BigEndian.decode b 0;
  jsonMarshal := λ p, Uri p +:+ Title p
|}.
Next Obligation.
  intros n. unfold len, BigEndian.put64. rewrite BigEndian_encode_length.
  unfold bolt.MaxKeySize. lia.
Qed.
Next Obligation.
  intros b. unfold BigEndian.get64. apply Z.mod_pos_bound. lia.
Qed.
Next Obligation. exact BigEndian_get_put. Qed.
Next Obligation.
  intros n. unfold len, BigEndian.put64. rewrite BigEndian_encode_length.
  unfold bolt.MaxValueSize. lia.
Qed.

Lemma Insertion_insert_perm {A} (less : A → A → bool) x l :
  Insertion.insert less x l ≡ₚ x :: l.
Proof.
  induction l as [|y l IH]; simpl; [done|].
  destruct (less x y); [done|]. rewrite IH. apply Permutation_swap.
Qed.

Lemma Insertion_sort_perm {A} (less : A → A → bool) l :
  Insertion.sort less l ≡ₚ l.
Proof.
  induction l as [|x l IH]; simpl; [done|].
  unfold Insertion.sort in *. simpl.
  rewrite Insertion_insert_perm. by rewrite IH.
Qed.

Lemma Insertion_insert_ascending {A} (less : A → A → bool) x l :
  StrictWeakOrder less → Ascending less l →
  Ascending less (Insertion.insert less x l).
Proof.
  intros Hswo. unfold Ascending.
  induction l as [|y l IH]; intros Hl; simpl.
  - repeat constructor.
  - inversion Hl as [|? ? Hl' Hy]; subst.
    destruct (less x y) eqn:Hxy.
    + constructor; [done|]. constructor.
      * by apply (less_asym _ Hswo).
      * eapply Forall_impl; [exact Hy|]. intros z Hz. simpl in Hz.
        eapply (less_incomp _ Hswo); [exact Hz|].
        by apply (less_asym _ Hswo).
    + constructor; [by apply IH|].
      rewrite (Insertion_insert_perm less x l). by constructor.
Qed.

Lemma Insertion_sort_ascending {A} (less : A → A → bool) l :
  StrictWeakOrder less → Ascending less (Insertion.sort less l).
Proof.
  intros Hswo. induction l as [|x l IH].
  - constructor.
  - unfold Insertion.sort in *. simpl.
    by apply Insertion_insert_ascending.
Qed.

#[global] Instance insertionSort : SortSlice := {|
  sort_Slice := @Insertion.sort;
  sort_Slice_Permutation := @Insertion_sort_perm;
  sort_Slice_Ascending := @Insertion_sort_ascending
|}.

(** ** The staging structure *)

Section Staging.

Context `{Codec}.

Lemma LoadIndexer_staging (d : DB) : StagingOk (LoadIndexer d).
Proof.
  split; simpl; [constructor|].
  intros w. rewrite dom_empty_L. split; [by intros ?%elem_of_nil | set_solver].
Qed.

(** The critical section keeps the invariant, whatever ids it is given. *)
Lemma updateInverted_locked_staging (w pg : Z) (i : Indexer) :
  StagingOk i → StagingOk (updateInverted_locked w pg i).
Proof.
  intros [Hnd Hdom]. unfold updateInverted_locked, StagingOk.
  destruct (default ∅ (tempInverted i) !! w) as [pl|] eqn:Hw; simpl.
  - split; [done|]. intros w'. rewrite dom_insert_L, Hdom.
    assert (w ∈ dom (default ∅ (tempInverted i)))
      by (apply elem_of_dom; eauto).
    set_solver.
  - assert (Hnot : w ∉ wordIdList i).
    { rewrite Hdom. by apply not_elem_of_dom. }
    split.
    + apply NoDup_app. split; [done|]. split.
      * intros x Hx ->%list_elem_of_singleton. done.
      * apply NoDup_singleton.
    + intros w'. rewrite elem_of_app, list_elem_of_singleton, dom_insert_L, Hdom.
      set_solver.
Qed.

Lemma updateInverted_staging (word : string) (pageId : bytes) (i : Indexer) :
  StagingOk i → StagingOk (updateInverted word pageId i).
Proof.
  intros Hi. unfold updateInverted.
  destruct (getOrCreateWordId word (db i)) as [wordId d].
  by apply updateInverted_locked_staging.
Qed.

(** C10. After any sequence of [updateInverted] calls in a session,
    [wordIdList] holds each word id at most once, and its elements are
    exactly the keys of [tempInverted]. *)
Theorem updateInverted_wordIdList_keys (d : DB) (calls : list (string * bytes)) :
  let i := foldl (λ i call, updateInverted call.1 call.2 i) (LoadIndexer d) calls in
  NoDup (wordIdList i)
  ∧ ∀ w, w ∈ wordIdList i ↔ w ∈ dom (default ∅ (tempInverted i)).
Proof.
  simpl. change (StagingOk (foldl (λ i call, updateInverted call.1 call.2 i)
                               (LoadIndexer d) calls)).
  generalize (LoadIndexer_staging d). generalize (LoadIndexer d).
  induction calls as [|[w pg] calls IH]; intros i Hi; simpl; [done|].
  apply IH. by apply updateInverted_staging.
Qed.

(** The goroutines of [UpdateOrAddPage] change the staging structure in
    the critical section only, so the invariant holds under every
    schedule. *)
Lemma UpdateOrAddPage_staging (p : Document) (order : list (string * Z))
    (schedule : list nat) (i : Indexer) (c : AddPage.config) :
  StagingOk i →
  AddPage.UpdateOrAddPage p order schedule i = AddPage.Running c →
  StagingOk (AddPage.ix c).
Proof.
  unfold AddPage.UpdateOrAddPage, AddPage.start. intros Hi.
  change (StagingOk (AddPage.ix (AddPage.mkConfig i AddPage.PageIdView
                                   EmptyString EmptyString 0 0 []))) in Hi.
  revert Hi. generalize (AddPage.mkConfig i AddPage.PageIdView EmptyString
                           EmptyString 0 0 []).
  induction schedule as [|who schedule IH]; intros c0 Hc0; simpl.
  - by intros [= <-].
  - destruct (AddPage.step p order who c0) as [[c1|]|] eqn:Hstep.
    + apply IH. destruct who as [|k]; simpl in Hstep.
      * unfold AddPage.stepMain in Hstep.
        destruct (AddPage.at_pc c0) as [| |[|[w t] rest]|t rest| | | |];
          repeat match type of Hstep with
                 | context [getId_view ?w ?t ?d] => destruct (getId_view w t d)
                 | context [getId_batch ?w ?t ?t' ?d] =>
                     destruct (getId_batch w t t' d)
                 | context [decide ?P] => destruct (decide P)
                 end; try done; by injection Hstep as <-.
      * destruct (AddPage.goroutines c0 !! k) as [g|]; [|done]. simpl in Hstep.
        destruct g as [[]|[]]; simpl in Hstep;
          repeat match type of Hstep with
                 | context [getId_view ?w ?t ?d] => destruct (getId_view w t d)
                 | context [getId_batch ?w ?t ?t' ?d] =>
                     destruct (getId_batch w t t' d)
                 | context [updateForward_batch ?a ?b ?c ?d ?e] =>
                     destruct (updateForward_batch a b c d e)
                 end; try done; injection Hstep as <-; try done.
        simpl. by apply updateInverted_locked_staging.
    + by destruct schedule.
    + by apply IH.
Qed.

End Staging.

(** ** bolt *)

Lemma checkPut_ok (key value : bytes) :
  0 < len key ≤ bolt.MaxKeySize → len value ≤ bolt.MaxValueSize →
  bolt.checkPut key value = None.
Proof.
  intros Hk Hv. unfold bolt.checkPut.
  repeat case_decide; try done; lia.
Qed.

Lemma Put_flat (b : bolt.Bucket) (key value : bytes) :
  bolt.checkPut key value = None → Flat b →
  bolt.Put b key value
  = (bolt.mkBucket (<[key := bolt.Leaf value]> (bolt.pairs b)) (bolt.sequence b),
     None).
Proof.
  intros Hc Hflat. unfold bolt.Put. rewrite Hc.
  destruct (bolt.pairs b !! key) as [[v|s]|] eqn:Hk; try done.
  by destruct (Hflat key s).
Qed.

Lemma Flat_insert_Leaf (b : bolt.Bucket) (key value : bytes) (n : Z) :
  Flat b → Flat (bolt.mkBucket (<[key := bolt.Leaf value]> (bolt.pairs b)) n).
Proof.
  intros Hflat k s. simpl. rewrite lookup_insert.
  case_decide; [done | apply Hflat].
Qed.

Lemma Get_insert_Leaf (m : gmap string bolt.entry) (key k : bytes) (value : bytes) (n : Z) :
  bolt.Get (bolt.mkBucket (<[key := bolt.Leaf value]> m) n) k
  = if decide (key = k) then Some value else bolt.Get (bolt.mkBucket m n) k.
Proof.
  unfold bolt.Get. simpl. rewrite lookup_insert. by case_decide.
Qed.

Lemma setBucket_eq (t : Table) (b : bolt.Bucket) (d : DB) :
  setBucket t b d t = b.
Proof. unfold setBucket. by rewrite decide_True. Qed.

Lemma setBucket_ne (t t' : Table) (b : bolt.Bucket) (d : DB) :
  t' ≠ t → setBucket t b d t' = d t'.
Proof. intros Hne. unfold setBucket. by rewrite decide_False. Qed.

(** ** [getId] *)

Section GetId.

Context `{Codec}.

Lemma uint64ToByte_inj (n m : Z) :
  0 ≤ n < 2 ^ 64 → 0 ≤ m < 2 ^ 64 → uint64ToByte n = uint64ToByte m → n = m.
Proof.
  intros Hn Hm Heq.
  rewrite <- (byteToUint64_uint64ToByte n), <- (byteToUint64_uint64ToByte m) by done.
  by rewrite Heq.
Qed.

Lemma MaxKeySize_MaxValueSize : bolt.MaxKeySize ≤ bolt.MaxValueSize.
Proof. by vm_compute. Qed.

(** The forward map of consistent tables is injective. *)
Lemma IdTablesOk_inj (fw inv : Table) (d : DB) (t1 t2 id : string) :
  IdTablesOk fw inv d →
  bolt.Get (d fw) t1 = Some id → bolt.Get (d fw) t2 = Some id → t1 = t2.
Proof.
  intros (_ & _ & _ & Hmap) H1 H2.
  destruct (Hmap _ _ H1) as (n1 & _ & _ & Hi1).
  destruct (Hmap _ _ H2) as (n2 & _ & _ & Hi2).
  congruence.
Qed.

Lemma emptyDB_IdTablesOk (fw inv : Table) : IdTablesOk fw inv emptyDB.
Proof.
  repeat split; try done.
Qed.

(** What the [Batch] of [getId] leaves, for a text that the store accepts
    as a key and that has no id yet. *)
Lemma getId_batch_fresh (fw inv : Table) (d : DB) (text : string) :
  fw ≠ inv → IdTablesOk fw inv d →
  bolt.sequence (d fw) + 1 < 2 ^ 64 →
  0 < len text ≤ bolt.MaxKeySize →
  bolt.Get (d fw) text = None →
  ∃ id d1,
    getId_batch text fw inv d = (id, d1)
    ∧ id = uint64ToByte (bolt.sequence (d fw) + 1)
    ∧ bolt.Get (d1 fw) text = Some id
    ∧ bolt.Get (d1 inv) id = Some text
    ∧ IdTablesOk fw inv d1.
Proof.
  intros Hne (Hseq & Hfw & Hinv & Hmap) Hroom Htext Hnone.
  pose proof MaxKeySize_MaxValueSize as Hsz.
  unfold getId_batch, bolt.NextSequence.
  rewrite (Z.mod_small (bolt.sequence (d fw) + 1)) by lia.
  set (n := bolt.sequence (d fw) + 1). cbn zeta.
  set (id := uint64ToByte n).
  pose proof (uint64ToByte_key n) as Hid. fold id in Hid.
  rewrite (Put_flat (bolt.mkBucket (bolt.pairs (d fw)) n) text id);
    [| apply checkPut_ok; lia | done].
  cbn [fst bolt.pairs bolt.sequence].
  rewrite setBucket_ne by done.
  rewrite (Put_flat (d inv) id text); [| apply checkPut_ok; lia | done].
  cbn [fst].
  eexists _, _. split; [reflexivity|]. split; [done|].
  rewrite setBucket_ne by done. rewrite !setBucket_eq.
  split; [| split].
  - rewrite Get_insert_Leaf. by rewrite decide_True.
  - destruct (d inv) as [pi si]. rewrite Get_insert_Leaf. by rewrite decide_True.
  - unfold IdTablesOk. rewrite setBucket_ne by done. rewrite !setBucket_eq.
    cbn [bolt.sequence]. split; [lia|]. split; [by apply Flat_insert_Leaf|].
    split; [destruct (d inv); by apply Flat_insert_Leaf|].
    intros t i. rewrite Get_insert_Leaf. case_decide as Ht.
    + intros [= <-]. exists n. subst t. split; [lia|]. split; [done|].
      destruct (d inv). rewrite Get_insert_Leaf. by rewrite decide_True.
    + intros Hget.
      assert (Hget' : bolt.Get (d fw) t = Some i).
      { destruct (d fw). exact Hget. }
      destruct (Hmap _ _ Hget') as (m & Hm & -> & Hback).
      exists m. split; [lia|]. split; [done|].
      destruct (d inv) as [pi si] eqn:Hdinv. rewrite Get_insert_Leaf.
      rewrite decide_False; [exact Hback|].
      intros Heq. apply uint64ToByte_inj in Heq; lia.
Qed.

(** C4, as the code has it.  For a text that bolt accepts as a key (not
    empty, at most [MaxKeySize] bytes), on mapping tables in the state that
    [getId] maintains and whose sequence has not run out: two calls in a
    row return the same id, the second changes nothing, the inverse map
    resolves the id to the text, no other text has this id, and the tables
    stay in that state, in which no two texts share an id. *)
Theorem getId_twice_same_id (fw inv : Table) (d : DB) (text : string) :
  fw ≠ inv → IdTablesOk fw inv d →
  bolt.sequence (d fw) + 1 < 2 ^ 64 →
  0 < len text ≤ bolt.MaxKeySize →
  ∃ id d1,
    getId text fw inv d = (id, d1)
    ∧ getId text fw inv d1 = (id, d1)
    ∧ bolt.Get (d1 inv) id = Some text
    ∧ (∀ text', bolt.Get (d1 fw) text' = Some id → text' = text)
    ∧ IdTablesOk fw inv d1
    ∧ (∀ t1 t2 id', bolt.Get (d1 fw) t1 = Some id' →
                    bolt.Get (d1 fw) t2 = Some id' → t1 = t2).
Proof.
  intros Hne Hok Hroom Htext.
  assert (Hgoal : ∃ id d1,
    getId text fw inv d = (id, d1)
    ∧ bolt.Get (d1 fw) text = Some id
    ∧ bolt.Get (d1 inv) id = Some text
    ∧ IdTablesOk fw inv d1).
  { unfold getId, getId_view.
    destruct (bolt.Get (d fw) text) as [id|] eqn:Hget.
    - exists id, d. split; [done|]. split; [done|]. split; [|done].
      destruct Hok as (_ & _ & _ & Hmap).
      destruct (Hmap _ _ Hget) as (n & _ & _ & Hback). done.
    - destruct (getId_batch_fresh fw inv d text) as (id & d1 & Hb & _ & H1 & H2 & H3);
        try done.
      exists id, d1. done. }
  destruct Hgoal as (id & d1 & Hcall & Hfw & Hinv & Hok1).
  exists id, d1. split; [done|]. split.
  { unfold getId, getId_view. by rewrite Hfw. }
  split; [done|]. split.
  { intros text' Hget'. by apply (IdTablesOk_inj fw inv d1 text' text id). }
  split; [done|].
  intros t1 t2 id'. by apply (IdTablesOk_inj fw inv d1).
Qed.

End GetId.

(** The first call on an empty store, for the address of a page. *)
Lemma getId_twice_same_id_witness :
  ∃ id d1,
    getId "u1" UrlToPageId PageIdToUrl emptyDB = (id, d1)
    ∧ getId "u1" UrlToPageId PageIdToUrl d1 = (id, d1)
    ∧ bolt.Get (d1 PageIdToUrl) id = Some "u1"%string
    ∧ (∀ text', bolt.Get (d1 UrlToPageId) text' = Some id → text' = "u1"%string)
    ∧ IdTablesOk UrlToPageId PageIdToUrl d1
    ∧ (∀ t1 t2 id', bolt.Get (d1 UrlToPageId) t1 = Some id' →
                    bolt.Get (d1 UrlToPageId) t2 = Some id' → t1 = t2).
Proof.
  apply (getId_twice_same_id UrlToPageId PageIdToUrl emptyDB "u1").
  - done.
  - apply emptyDB_IdTablesOk.
  - reflexivity.
  - split; [reflexivity | by vm_compute].
Defined.

(** C4 fails for the empty text: bolt refuses the empty key, the error of
    [Put] is dropped, and each call draws a new id. *)
Lemma getId_empty_text_new_id_each_call :
  let '(id1, d1) := getId EmptyString WordToWordId WordIdToWord emptyDB in
  let '(id2, _) := getId EmptyString WordToWordId WordIdToWord d1 in
  id1 ≠ id2.
Proof. vm_compute. discriminate. Qed.

(** ** [intersect] *)

Lemma intersect_nil_l (b : list Z) : intersect [] b = [].
Proof. by destruct b. Qed.

Lemma intersect_nil_r (a : list Z) : intersect a [] = [].
Proof. by destruct a. Qed.

Lemma intersect_cons (x y : Z) (a b : list Z) :
  intersect (x :: a) (y :: b)
  = if decide (x < y) then intersect a (y :: b)
    else if decide (y < x) then intersect (x :: a) b
    else x :: intersect a b.
Proof. reflexivity. Qed.

(** The merge keeps elements of both sequences only, whatever their
    order. *)
Lemma intersect_elem (a b : list Z) (z : Z) :
  z ∈ intersect a b → z ∈ a ∧ z ∈ b.
Proof.
  revert b. induction a as [|x a IHa]; intros b.
  - rewrite intersect_nil_l. by intros ?%elem_of_nil.
  - induction b as [|y b IHb].
    + rewrite intersect_nil_r. by intros ?%elem_of_nil.
    + rewrite intersect_cons. repeat case_decide.
      * intros [? ?]%IHa. split; [by right | done].
      * intros [? ?]%IHb. split; [done | by right].
      * assert (x = y) as -> by lia.
        intros [->|[? ?]%IHa]%elem_of_cons; split; try by left.
        all: by right.
Qed.

(** The merge yields a subsequence of its first argument. *)
Lemma intersect_sublist (a b : list Z) : intersect a b `sublist_of` a.
Proof.
  revert b. induction a as [|x a IHa]; intros b.
  - by rewrite intersect_nil_l.
  - induction b as [|y b IHb].
    + rewrite intersect_nil_r. apply sublist_nil_l.
    + rewrite intersect_cons. repeat case_decide.
      * by apply sublist_cons.
      * done.
      * by apply sublist_skip.
Qed.

Lemma StronglySorted_sublist {A} (R : relation A) (l k : list A) :
  l `sublist_of` k → StronglySorted R k → StronglySorted R l.
Proof.
  induction 1 as [|x l k Hsub IH|x l k Hsub IH]; intros Hk.
  - constructor.
  - apply StronglySorted_inv in Hk as [Hk Hx]. constructor; [by apply IH|].
    apply Forall_forall. intros z Hz. rewrite Forall_forall in Hx.
    apply Hx. by eapply elem_of_sublist.
  - apply StronglySorted_inv in Hk as [Hk _]. by apply IH.
Qed.

(** On two ascending sequences the merge finds every common element. *)
Lemma intersect_complete (a b : list Z) (z : Z) :
  StronglySorted Z.lt a → StronglySorted Z.lt b →
  z ∈ a → z ∈ b → z ∈ intersect a b.
Proof.
  revert b. induction a as [|x a IHa]; intros b Ha.
  - by intros _ ?%elem_of_nil.
  - apply StronglySorted_inv in Ha as [Ha Hx]. rewrite Forall_forall in Hx.
    induction b as [|y b IHb]; intros Hb.
    + by intros _ ?%elem_of_nil.
    + pose proof Hb as Hb0.
      apply StronglySorted_inv in Hb as [Hb Hy]. rewrite Forall_forall in Hy.
      rewrite intersect_cons. intros Hza Hzb.
      apply elem_of_cons in Hza as [->|Hza]; apply elem_of_cons in Hzb as [Hzb|Hzb].
      * subst y. rewrite !decide_False by lia. by left.
      * specialize (Hy _ Hzb). rewrite decide_False by lia.
        rewrite decide_True by lia. apply IHb; [done | by left | done].
      * subst y. specialize (Hx _ Hza). rewrite decide_True by lia.
        apply IHa; [done | done | done | by left].
      * specialize (Hx _ Hza). specialize (Hy _ Hzb).
        repeat case_decide.
        -- apply IHa; [done | done | done | by right].
        -- apply IHb; [done | by right | done].
        -- right. by apply IHa.
Qed.

Lemma intersect_spec (a b : list Z) (z : Z) :
  StronglySorted Z.lt a → StronglySorted Z.lt b →
  z ∈ intersect a b ↔ z ∈ a ∧ z ∈ b.
Proof.
  intros Ha Hb. split; [apply intersect_elem|].
  intros [? ?]. by apply intersect_complete.
Qed.

Lemma intersect_sorted (a b : list Z) :
  StronglySorted Z.lt a → StronglySorted Z.lt (intersect a b).
Proof. apply StronglySorted_sublist, intersect_sublist. Qed.

(** ** [booleanFilter], [hasPhrase], [searchPhrase] *)

Section RetrievalProofs.

Context `{SortSlice}.

Lemma sort_Slice_nil {A} (less : A → A → bool) : sort_Slice less [] = [].
Proof. apply Permutation_nil_r, sort_Slice_Permutation. Qed.

Lemma sort_Slice_singleton {A} (less : A → A → bool) (x : A) :
  sort_Slice less [x] = [x].
Proof. apply Permutation_singleton_r, sort_Slice_Permutation. Qed.

Lemma sort_Slice_elem_of {A} (less : A → A → bool) (l : list A) (x : A) :
  x ∈ sort_Slice less l ↔ x ∈ l.
Proof. by rewrite sort_Slice_Permutation. Qed.

Lemma shorter_StrictWeakOrder : StrictWeakOrder shorter.
Proof.
  unfold shorter. split.
  - intros x y Hxy%bool_decide_eq_true. apply bool_decide_eq_false. lia.
  - intros x y z Hxy%bool_decide_eq_true Hyz%bool_decide_eq_true.
    apply bool_decide_eq_true. lia.
  - intros x y z Hxy%bool_decide_eq_false Hyz%bool_decide_eq_false.
    apply bool_decide_eq_false. lia.
Qed.

Lemma booleanFilter_nil (viewer : Viewer) : booleanFilter [] viewer = [].
Proof. unfold booleanFilter. simpl. by rewrite sort_Slice_nil. Qed.

Lemma booleanFilter_single (term : string) (viewer : Viewer) :
  booleanFilter [term] viewer = GetPostingList viewer term.
Proof. unfold booleanFilter. simpl. by rewrite sort_Slice_singleton. Qed.

Lemma foldl_sublist (f : list Z → list Z → list Z) (first : list Z)
    (others : list (list Z)) :
  (∀ acc l, f acc l `sublist_of` acc) →
  foldl f first others `sublist_of` first.
Proof.
  intros Hf. revert first. induction others as [|l others IH]; intros first.
  - done.
  - simpl. etrans; [apply IH | apply Hf].
Qed.

Lemma booleanFilter_sorted (terms : list string) (viewer : Viewer) :
  (∀ term, StronglySorted Z.lt (GetPostingList viewer term)) →
  StronglySorted Z.lt (booleanFilter terms viewer).
Proof.
  intros Hsorted. unfold booleanFilter.
  destruct (sort_Slice _ _) as [|first others] eqn:Hsort; [constructor|].
  assert (Hfirst : first ∈ GetPostingList viewer <$> terms).
  { rewrite <- (sort_Slice_elem_of shorter). rewrite Hsort. by left. }
  apply list_elem_of_fmap in Hfirst as (term & -> & _).
  eapply StronglySorted_sublist; [|apply Hsorted].
  apply foldl_sublist. intros [|x acc] l; [done | apply intersect_sublist].
Qed.

(** The loop of [hasPhrase] is a filter of the candidates. *)
Lemma hasPhrase_filter (bigram : Bigram) (viewer : Viewer) :
  hasPhrase bigram viewer
  = filter
      (λ id, (0 < length (intersect
                            (GetPositionIndices viewer id (n1 bigram))
                            (decrement <$> GetPositionIndices viewer id (n2 bigram))))%nat)
      (booleanFilter [n1 bigram; n2 bigram] viewer).
Proof.
  unfold hasPhrase. cbn zeta.
  generalize (booleanFilter [n1 bigram; n2 bigram] viewer). intros docIds.
  set (keep := λ (rv : list Z) (id : Z), _).
  enough (Hloop : ∀ rv, foldl keep rv docIds = rv ++ filter _ docIds)
    by apply (Hloop []).
  induction docIds as [|id docIds IH]; intros rv; simpl.
  - by rewrite app_nil_r.
  - rewrite IH. rewrite filter_cons. unfold keep. case_decide; [|done].
    by rewrite <- app_assoc.
Qed.

Lemma hasPhrase_sorted (bigram : Bigram) (viewer : Viewer) :
  (∀ term, StronglySorted Z.lt (GetPostingList viewer term)) →
  StronglySorted Z.lt (hasPhrase bigram viewer).
Proof.
  intros Hsorted. rewrite hasPhrase_filter.
  eapply StronglySorted_sublist; [apply sublist_filter|].
  by apply booleanFilter_sorted.
Qed.

(** Where the aligned position lists are ascending, [hasPhrase] keeps the
    candidates with a common position. *)
Lemma hasPhrase_aligned_ascending (bigram : Bigram) (viewer : Viewer) (id : Z) :
  StronglySorted Z.lt (GetPositionIndices viewer id (n1 bigram)) →
  StronglySorted Z.lt (decrement <$> GetPositionIndices viewer id (n2 bigram)) →
  id ∈ hasPhrase bigram viewer
  ↔ id ∈ booleanFilter [n1 bigram; n2 bigram] viewer ∧ adjacent viewer bigram id.
Proof.
  intros H1 H2. rewrite hasPhrase_filter, list_elem_of_filter. unfold adjacent.
  rewrite (and_comm (id ∈ _)). apply and_iff_compat_r.
  destruct (intersect _ _) as [|pos common] eqn:Hcommon; simpl.
  - split; [lia|]. intros (pos & Hp1 & Hp2).
    assert (Hin : pos ∈ intersect (GetPositionIndices viewer id (n1 bigram))
                     (decrement <$> GetPositionIndices viewer id (n2 bigram)))
      by by apply intersect_complete.
    rewrite Hcommon in Hin. by apply elem_of_nil in Hin.
  - split; [|lia]. intros _. exists pos. apply intersect_elem.
    rewrite Hcommon. by left.
Qed.

Lemma splitToBigrams_length (query : list string) :
  length (splitToBigrams query) = (length query - 1)%nat.
Proof.
  induction query as [|a [|b rest] IH]; [done..|].
  cbn [splitToBigrams length] in *. lia.
Qed.

Lemma splitToBigrams_lookup (query : list string) (i : nat) (a b : string) :
  splitToBigrams query !! i = Some (mkBigram a b)
  ↔ query !! i = Some a ∧ query !! S i = Some b.
Proof.
  revert i. induction query as [|x [|y rest] IH]; intros i.
  - simpl. rewrite !lookup_nil. naive_solver.
  - simpl. rewrite lookup_nil. destruct i; simpl; naive_solver.
  - cbn [splitToBigrams]. destruct i as [|i].
    + simpl. naive_solver.
    + rewrite lookup_cons. cbn [Nat.pred]. rewrite IH. done.
Qed.

Lemma collect_hasPhrase (bigrams : list Bigram) (viewer : Viewer) :
  foldl (λ acc bigram, acc ++ [hasPhrase bigram viewer]) [] bigrams
  = (λ bigram, hasPhrase bigram viewer) <$> bigrams.
Proof.
  enough (Hloop : ∀ acc,
            foldl (λ acc bigram, acc ++ [hasPhrase bigram viewer]) acc bigrams
            = acc ++ ((λ bigram, hasPhrase bigram viewer) <$> bigrams))
    by apply (Hloop []).
  induction bigrams as [|bg bigrams IH]; intros acc; simpl.
  - by rewrite app_nil_r.
  - rewrite IH. by rewrite <- app_assoc.
Qed.

Lemma foldl_intersect_spec (first : list Z) (others : list (list Z)) (z : Z) :
  StronglySorted Z.lt first → Forall (StronglySorted Z.lt) others →
  z ∈ foldl (λ docIDs docs, intersect docIDs docs) first others
  ↔ z ∈ first ∧ ∀ l, l ∈ others → z ∈ l.
Proof.
  revert first. induction others as [|l others IH]; intros first Hfirst Hothers.
  - simpl. split; [|naive_solver]. intros ?. split; [done|].
    by intros l ?%elem_of_nil.
  - apply Forall_cons in Hothers as [Hl Hothers]. simpl.
    rewrite IH by (try apply intersect_sorted; done).
    rewrite intersect_spec by done. split.
    + intros [[? ?] Hall]. split; [done|].
      intros l' [->|?]%elem_of_cons; [done | by apply Hall].
    + intros [? Hall]. split; [split; [done | apply Hall; by left]|].
      intros l' ?. apply Hall. by right.
Qed.

(** C8. On a query of at most one term [searchPhrase] is
    [booleanFilter]: empty on the empty query, and the filter of the term
    on a query of one term. *)
Theorem searchPhrase_short_query (query : list string) (viewer : Viewer) :
  (length query ≤ 1)%nat →
  searchPhrase query viewer = booleanFilter query viewer
  ∧ searchPhrase [] viewer = []
  ∧ ∀ term, searchPhrase [term] viewer = booleanFilter [term] viewer.
Proof.
  intros Hlen. split; [|split].
  - unfold searchPhrase. by rewrite decide_True.
  - unfold searchPhrase. rewrite decide_True by (simpl; lia).
    apply booleanFilter_nil.
  - intros term. unfold searchPhrase. by rewrite decide_True by (simpl; lia).
Qed.

(** C7. On a query of [n ≥ 2] terms over posting lists in ascending
    order: the bigrams are the [n-1] pairs of neighbours, in the order of
    the query; the sets of the bigrams are sorted by size and intersected
    from the smallest on; a page is in the result exactly when it is in
    the set of every bigram. *)
Theorem searchPhrase_every_bigram (query : list string) (viewer : Viewer) :
  (2 ≤ length query)%nat →
  (∀ term, StronglySorted Z.lt (GetPostingList viewer term)) →
  length (splitToBigrams query) = (length query - 1)%nat
  ∧ (∀ i a b,
       splitToBigrams query !! i = Some (mkBigram a b)
       ↔ query !! i = Some a ∧ query !! S i = Some b)
  ∧ (∃ first others,
       sort_Slice shorter
         ((λ bigram, hasPhrase bigram viewer) <$> splitToBigrams query)
       = first :: others
       ∧ Ascending shorter (first :: others)
       ∧ searchPhrase query viewer
         = foldl (λ docIDs docs, intersect docIDs docs) first others)
  ∧ ∀ pageId,
      pageId ∈ searchPhrase query viewer
      ↔ ∀ bigram, bigram ∈ splitToBigrams query →
                  pageId ∈ hasPhrase bigram viewer.
Proof.
  intros Hlen Hsorted.
  split; [apply splitToBigrams_length|].
  split; [apply splitToBigrams_lookup|].
  set (sets := (λ bigram, hasPhrase bigram viewer) <$> splitToBigrams query).
  assert (Hcall : searchPhrase query viewer
                  = match sort_Slice shorter sets with
                    | [] => []
                    | first :: others =>
                        foldl (λ docIDs docs, intersect docIDs docs) first others
                    end).
  { unfold searchPhrase. rewrite decide_False by lia. cbn zeta.
    by rewrite collect_hasPhrase. }
  pose proof (sort_Slice_Permutation _ shorter sets) as Hperm.
  pose proof (sort_Slice_Ascending _ shorter sets shorter_StrictWeakOrder) as Hasc.
  destruct (sort_Slice shorter sets) as [|first others] eqn:Hsort.
  { apply Permutation_nil_l in Hperm.
    apply (f_equal length) in Hperm. unfold sets in Hperm.
    rewrite length_fmap, splitToBigrams_length in Hperm. simpl in Hperm. lia. }
  split; [by exists first, others|].
  intros pageId. rewrite Hcall.
  assert (Hall : Forall (StronglySorted Z.lt) (first :: others)).
  { apply Forall_forall. intros l Hl. rewrite Hperm in Hl.
    apply list_elem_of_fmap in Hl as (bigram & -> & _).
    by apply hasPhrase_sorted. }
  apply Forall_cons in Hall as [Hfirst Hothers].
  rewrite foldl_intersect_spec by done.
  assert (Hmem : ∀ l, l ∈ first :: others ↔ l ∈ sets)
    by (intros l; by rewrite Hperm).
  split.
  - intros [Hin Hrest] bigram Hbigram.
    assert (Hset : hasPhrase bigram viewer ∈ first :: others).
    { apply Hmem. apply list_elem_of_fmap. by exists bigram. }
    apply elem_of_cons in Hset as [->|Hset]; [done | by apply Hrest].
  - intros Hevery.
    assert (Hof : ∀ l, l ∈ first :: others → pageId ∈ l).
    { intros l Hl. apply Hmem in Hl.
      apply list_elem_of_fmap in Hl as (bigram & -> & Hbigram).
      by apply Hevery. }
    split; [apply Hof; by left|]. intros l Hl. apply Hof. by right.
Qed.

End RetrievalProofs.

(** A query of one term over the page that reads [b a b]. *)
Lemma searchPhrase_short_query_witness :
  searchPhrase ["a"%string] pageBAB = booleanFilter ["a"%string] pageBAB
  ∧ searchPhrase [] pageBAB = []
  ∧ ∀ term, searchPhrase [term] pageBAB = booleanFilter [term] pageBAB.
Proof. apply (searchPhrase_short_query ["a"%string] pageBAB). simpl. lia. Defined.

Lemma pageBAB_postings_ascending (term : string) :
  StronglySorted Z.lt (GetPostingList pageBAB term).
Proof. simpl. case_decide; repeat constructor. Qed.

(** The query [b a b] over the page that reads [b a b]. *)
Lemma searchPhrase_every_bigram_witness :
  let query := ["b"; "a"; "b"]%string in
  length (splitToBigrams query) = (length query - 1)%nat
  ∧ (∀ i a b,
       splitToBigrams query !! i = Some (mkBigram a b)
       ↔ query !! i = Some a ∧ query !! S i = Some b)
  ∧ (∃ first others,
       sort_Slice shorter
         ((λ bigram, hasPhrase bigram pageBAB) <$> splitToBigrams query)
       = first :: others
       ∧ Ascending shorter (first :: others)
       ∧ searchPhrase query pageBAB
         = foldl (λ docIDs docs, intersect docIDs docs) first others)
  ∧ ∀ pageId,
      pageId ∈ searchPhrase query pageBAB
      ↔ ∀ bigram, bigram ∈ splitToBigrams query →
                  pageId ∈ hasPhrase bigram pageBAB.
Proof.
  apply (searchPhrase_every_bigram ["b"; "a"; "b"]%string pageBAB).
  - simpl. lia.
  - apply pageBAB_postings_ascending.
Defined.

(** C6 fails on the page that reads [b a b].  The page is a candidate of
    the bigram [a b], and the positions of [a] and the positions of [b]
    moved back by one have the value 1 in common.  But offset 0 of [b]
    wraps to [2^64-1], the moved list [[2^64-1; 1]] is no longer ascending,
    the merge stops at its head, and [hasPhrase] returns no page. *)
Theorem hasPhrase_misses_phrase_when_second_term_at_offset_0 :
  booleanFilter ["a"; "b"]%string pageBAB = [7]
  ∧ adjacent pageBAB (mkBigram "a" "b") 7
  ∧ decrement <$> GetPositionIndices pageBAB 7 "b" = [2 ^ 64 - 1; 1]
  ∧ hasPhrase (mkBigram "a" "b") pageBAB = [].
Proof.
  split; [by vm_compute|]. split; [|split; by vm_compute].
  exists 1. split; vm_compute; [left | right; left].
Qed.

(** ** The barrier of [UpdateOrAddPage] *)

Lemma pending_nil : pending [] = 0.
Proof. done. Qed.

Lemma pending_app (gs gs' : list AddPage.goroutine) :
  pending (gs ++ gs') = pending gs + pending gs'.
Proof. unfold pending. rewrite filter_app, length_app. lia. Qed.

Lemma pending_cons (g : AddPage.goroutine) (gs : list AddPage.goroutine) :
  pending (g :: gs) = (if AddPage.exited g then 0 else 1) + pending gs.
Proof.
  unfold pending. rewrite filter_cons.
  destruct (AddPage.exited g) eqn:Hg; case_decide; simpl; try done; lia.
Qed.

Lemma pending_insert (gs : list AddPage.goroutine) (k : nat)
    (g g' : AddPage.goroutine) :
  gs !! k = Some g →
  pending (<[k := g']> gs)
  = pending gs - (if AddPage.exited g then 0 else 1)
    + (if AddPage.exited g' then 0 else 1).
Proof.
  revert k. induction gs as [|g0 gs IH]; intros k Hk; [done|].
  destruct k as [|k]; simpl in *.
  - injection Hk as ->. rewrite !pending_cons. lia.
  - rewrite !pending_cons. rewrite (IH k Hk). lia.
Qed.

Lemma pending_nonneg (gs : list AddPage.goroutine) : 0 ≤ pending gs.
Proof. unfold pending. lia. Qed.

Lemma pending_zero (gs : list AddPage.goroutine) :
  pending gs = 0 ↔ Forall (λ g, AddPage.exited g = true) gs.
Proof.
  induction gs as [|g gs IH].
  - split; [constructor | done].
  - rewrite pending_cons, Forall_cons. pose proof (pending_nonneg gs).
    destruct (AddPage.exited g) eqn:Hg.
    + rewrite Z.add_0_l, IH. naive_solver.
    + split; [lia | naive_solver].
Qed.

Section BarrierProofs.

Context `{Codec}.
Variable p : Document.
Variable order : list (string * Z).
Hypothesis order_Words : order ≡ₚ map_to_list (Words p).

Lemma order_length : length order = size (Words p).
Proof using order_Words. by rewrite order_Words, length_map_to_list. Qed.

Lemma Barrier_start (i : Indexer) :
  Barrier order (AddPage.mkConfig i AddPage.PageIdView EmptyString EmptyString 0 0 []).
Proof. done. Qed.

Lemma Barrier_stepMain (c c' : AddPage.config) :
  Barrier order c → AddPage.stepMain p order c = Some (AddPage.Running c') →
  Barrier order c'.
Proof using order_Words.
  unfold Barrier, AddPage.stepMain. intros Hinv Hstep.
  destruct (AddPage.at_pc c) as [| |[|[w t] rest]|t rest| | | |] eqn:Hpc.
  - destruct (getId_view _ _ _); injection Hstep as <-; simpl.
    + rewrite Hinv, pending_nil, order_length. simpl. lia.
    + done.
  - destruct (getId_batch _ _ _ _) as [id d1]. injection Hstep as <-. simpl.
    rewrite Hinv, pending_nil, order_length. simpl. lia.
  - injection Hstep as <-. simpl. simpl in Hinv. lia.
  - injection Hstep as <-. simpl. simpl in Hinv. lia.
  - injection Hstep as <-. simpl. rewrite pending_app, length_app. simpl.
    change (pending [_; _]) with 2. lia.
  - case_decide; [|done]. injection Hstep as <-. simpl. lia.
  - by injection Hstep as <-.
  - by injection Hstep as <-.
  - done.
Qed.

(** A step of a goroutine moves the caller nowhere and leaves the number
    of goroutines. *)
Lemma Barrier_stepGoroutine (k : nat) (g : AddPage.goroutine)
    (c c' : AddPage.config) :
  Barrier order c → AddPage.goroutines c !! k = Some g →
  AddPage.stepGoroutine k g c = Some (AddPage.Running c') →
  Barrier order c'.
Proof.
  intros Hinv Hk Hstep.
  assert (Hshape : AddPage.at_pc c' = AddPage.at_pc c
    ∧ ∃ g', AddPage.goroutines c' = <[k := g']> (AddPage.goroutines c)
            ∧ AddPage.wg c' = AddPage.wg c
                              - (if AddPage.exited g then 0 else 1)
                              + (if AddPage.exited g' then 0 else 1)).
  { destruct g as [a|a]; destruct a; simpl in Hstep;
      repeat match type of Hstep with
             | context [getId_view ?w ?t ?d] => destruct (getId_view w t d)
             | context [getId_batch ?w ?t ?t' ?d] => destruct (getId_batch w t t' d)
             | context [updateForward_batch ?a ?b ?c ?d ?e] =>
                 destruct (updateForward_batch a b c d e)
             end;
      try done; injection Hstep as <-; simpl;
      (split; [done|]); eexists; (split; [reflexivity|]); simpl; lia. }
  destruct Hshape as (Hpc & g' & Hgs & Hwg).
  unfold Barrier in *. rewrite Hpc, Hgs, Hwg.
  rewrite (pending_insert _ _ g g') by done. rewrite length_insert.
  assert (Hlive : AddPage.exited g = false).
  { destruct g as [a|a]; destruct a; try done; simpl in Hstep; done. }
  rewrite Hlive in *.
  destruct (AddPage.at_pc c) as [| |rest|t rest| | | |].
  - by rewrite Hinv in Hk.
  - by rewrite Hinv in Hk.
  - lia.
  - lia.
  - lia.
  - destruct Hinv as [Hz _]. apply pending_zero in Hz.
    rewrite Forall_forall in Hz. specialize (Hz g).
    rewrite Hz in Hlive; [done|]. by eapply list_elem_of_lookup_2.
  - destruct Hinv as [Hz _]. apply pending_zero in Hz.
    rewrite Forall_forall in Hz. specialize (Hz g).
    rewrite Hz in Hlive; [done|]. by eapply list_elem_of_lookup_2.
  - destruct Hinv as [Hz _]. apply pending_zero in Hz.
    rewrite Forall_forall in Hz. specialize (Hz g).
    rewrite Hz in Hlive; [done|]. by eapply list_elem_of_lookup_2.
Qed.

Lemma Barrier_step (who : nat) (c c' : AddPage.config) :
  Barrier order c → AddPage.step p order who c = Some (AddPage.Running c') →
  Barrier order c'.
Proof using order_Words.
  destruct who as [|k]; simpl.
  - apply Barrier_stepMain.
  - intros Hinv. destruct (AddPage.goroutines c !! k) as [g|] eqn:Hk; [|done].
    simpl. by apply Barrier_stepGoroutine.
Qed.

Lemma Barrier_run (schedule : list nat) (c c' : AddPage.config) :
  Barrier order c →
  AddPage.run p order schedule (AddPage.Running c) = AddPage.Running c' →
  Barrier order c'.
Proof using order_Words.
  revert c. induction schedule as [|who schedule IH]; intros c Hinv; simpl.
  - by intros [= <-].
  - destruct (AddPage.step p order who c) as [[c1|]|] eqn:Hstep.
    + apply IH. by eapply Barrier_step.
    + by destruct schedule.
    + by apply IH.
Qed.

(** A goroutine that has not exited can always take its next step: the
    goroutines of a call are not ordered among themselves. *)
Lemma goroutine_enabled (c : AddPage.config) (k : nat) (g : AddPage.goroutine) :
  AddPage.goroutines c !! k = Some g → AddPage.exited g = false →
  is_Some (AddPage.step p order (S k) c).
Proof.
  intros Hk Hlive. simpl. rewrite Hk. simpl.
  destruct g as [a|a]; destruct a; simpl; try done;
    repeat match goal with
           | |- context [getId_view ?w ?t ?d] => destruct (getId_view w t d)
           | |- context [getId_batch ?w ?t ?t' ?d] => destruct (getId_batch w t t' d)
           | |- context [updateForward_batch ?a ?b ?c ?d ?e] =>
               destruct (updateForward_batch a b c d e)
           end; eauto.
Qed.

(** C5. Under every schedule, whenever the caller is at the write of
    [maxTf], at the write of the page record or past them, each of the
    [2 * len(p.Words)] goroutines of the loop has run to its end; and
    until then every goroutine that has not finished can take its next
    step, whatever the others have done. *)
Theorem UpdateOrAddPage_barrier (schedule : list nat) (i : Indexer)
    (c : AddPage.config) :
  AddPage.UpdateOrAddPage p order schedule i = AddPage.Running c →
  (pastBarrier (AddPage.at_pc c) →
   length (AddPage.goroutines c) = (2 * size (Words p))%nat
   ∧ Forall (λ g, AddPage.exited g = true) (AddPage.goroutines c))
  ∧ (∀ k g, AddPage.goroutines c !! k = Some g → AddPage.exited g = false →
            is_Some (AddPage.step p order (S k) c)).
Proof using order_Words.
  intros Hrun. split; [|apply goroutine_enabled].
  apply Barrier_run in Hrun; [|apply Barrier_start].
  unfold Barrier in Hrun. rewrite <- order_length.
  intros [Hpc|[Hpc|Hpc]]; rewrite Hpc in Hrun; destruct Hrun as [Hz Hlen];
    (split; [done | by apply pending_zero]).
Qed.


End BarrierProofs.

(** ** [maxTf] and the forward index *)

Ltac goroutine_cases g Hstep :=
  destruct g as [[]|[]]; simpl in Hstep;
  repeat match type of Hstep with
         | context [getId_view ?w ?t ?d] => destruct (getId_view w t d) eqn:?
         | context [getId_batch ?w ?t ?t' ?d] =>
             destruct (getId_batch w t t' d) eqn:?
         | context [updateForward_batch ?a ?b ?c ?d ?e] =>
             destruct (updateForward_batch a b c d e) eqn:?
         end;
  try done; injection Hstep as <-.

Section ForwardKeyProofs.

Context `{Codec}.

Lemma getId_batch_other (text : string) (fw inv t : Table) (d : DB) :
  t ≠ fw → t ≠ inv → (getId_batch text fw inv d).2 t = d t.
Proof.
  intros Hfw Hinv. unfold getId_batch.
  destruct (bolt.NextSequence (d fw)) as [uniqueId forwardMap]. simpl.
  by rewrite !setBucket_ne.
Qed.

Lemma updateInverted_locked_db (w pg : Z) (i : Indexer) :
  db (updateInverted_locked w pg i) = db i.
Proof.
  unfold updateInverted_locked. by destruct (default ∅ (tempInverted i) !! w).
Qed.

Lemma updateForward_batch_sub (wordId pageId : bytes) (tf : Z) (d d1 : DB) :
  updateForward_batch wordId pageId tf ForwardTable d = Some d1 →
  is_Some (bolt.sub (d1 ForwardTable) pageId)
  ∧ ∀ key, is_Some (bolt.sub (d ForwardTable) key) →
           is_Some (bolt.sub (d1 ForwardTable) key).
Proof.
  unfold updateForward_batch, bolt.CreateBucketIfNotExists.
  case_decide; [done|].
  destruct (bolt.pairs (d ForwardTable) !! pageId) as [[v|s]|] eqn:Hkey; try done.
  all: intros [= <-]; rewrite setBucket_eq; unfold bolt.sub, bolt.storeSub; simpl.
  all: split; [by rewrite lookup_insert_eq|].
  all: intros key; destruct (decide (pageId = key)) as [->|Hne];
    [by rewrite lookup_insert_eq | by rewrite !lookup_insert_ne].
Qed.

(** [setMaxTf] leaves every nested bucket of the forward table: [Put]
    refuses the key of a nested bucket. *)
Lemma setMaxTf_sub (pageId key : bytes) (maxTf : Z) (d : DB) :
  is_Some (bolt.sub (d ForwardTable) key) →
  bolt.sub (setMaxTf pageId maxTf d ForwardTable) key
  = bolt.sub (d ForwardTable) key.
Proof.
  unfold setMaxTf, bolt.Put. rewrite setBucket_eq.
  destruct (bolt.checkPut _ _); [done|].
  unfold bolt.sub.
  destruct (bolt.pairs (d ForwardTable) !! pageId) as [[v|s]|] eqn:Hkey; simpl;
    try done.
  all: rewrite lookup_insert; case_decide as Heq; [subst key|done].
  all: rewrite Hkey; by intros [? ?].
Qed.

Lemma lookup_insert_goroutine (gs : list AddPage.goroutine) (k j : nat)
    (g' g : AddPage.goroutine) :
  <[k := g']> gs !! j = Some g → (j = k ∧ g = g') ∨ gs !! j = Some g.
Proof.
  destruct (decide (j = k)) as [->|Hne].
  - intros Hj. left. split; [done|].
    destruct (decide (k < length gs)%nat).
    + rewrite list_lookup_insert_eq in Hj by done. congruence.
    + rewrite list_insert_ge in Hj by lia.
      apply lookup_lt_Some in Hj. lia.
  - rewrite list_lookup_insert_ne by done. by right.
Qed.

Lemma filter_insert_same_kind (gs : list AddPage.goroutine) (k : nat)
    (g g' : AddPage.goroutine) :
  gs !! k = Some g → isForward g' = isForward g →
  length (filter (λ g, isForward g = true) (<[k := g']> gs))
  = length (filter (λ g, isForward g = true) gs).
Proof.
  revert k. induction gs as [|g0 gs IH]; intros k Hk Hkind; [done|].
  destruct k as [|k]; simpl in *.
  - injection Hk as ->. rewrite !filter_cons. rewrite Hkind.
    by repeat case_decide.
  - rewrite !filter_cons. case_decide; simpl; by rewrite (IH k).
Qed.

Variable p : Document.
Variable order : list (string * Z).
Hypothesis order_Words : order ≡ₚ map_to_list (Words p).

Lemma ForwardKey_stepMain (c c' : AddPage.config) :
  Barrier order c → ForwardKey c →
  AddPage.stepMain p order c = Some (AddPage.Running c') →
  ForwardKey c'.
Proof.
  unfold Barrier, ForwardKey, AddPage.stepMain. intros Hbar [Hkey Hkinds] Hstep.
  destruct (AddPage.at_pc c) as [| |[|[w t] rest]|t rest| | | |] eqn:Hpc.
  - destruct (getId_view _ _ _); injection Hstep as <-; simpl;
      rewrite ?Hbar; [|done]. split; [|done]. by intros k g ?.
  - destruct (getId_batch _ _ _ _) as [id d1]. injection Hstep as <-. simpl.
    rewrite Hbar. split; [|done]. by intros k g ?.
  - by injection Hstep as <-.
  - by injection Hstep as <-.
  - injection Hstep as <-. simpl. split.
    + intros k g Hk Hw. apply lookup_app_Some in Hk as [Hk|[_ Hk]].
      * by eapply Hkey.
      * destruct (k - length (AddPage.goroutines c))%nat as [|[|j]];
          simpl in Hk; try done; injection Hk as <-;
          by destruct Hw.
    + rewrite filter_app, !length_app. simpl. lia.
  - case_decide; [|done]. by injection Hstep as <-.
  - injection Hstep as <-. simpl. split; [|done].
    intros k g Hk Hw. rewrite setMaxTf_sub; by eapply Hkey.
  - injection Hstep as <-. simpl. split; [|done].
    intros k g Hk Hw. unfold putPageInfo. rewrite setBucket_ne by done.
    by eapply Hkey.
  - done.
Qed.

Lemma ForwardKey_stepGoroutine (k : nat) (g : AddPage.goroutine)
    (c c' : AddPage.config) :
  ForwardKey c → AddPage.goroutines c !! k = Some g →
  AddPage.stepGoroutine k g c = Some (AddPage.Running c') →
  ForwardKey c'.
Proof.
  unfold ForwardKey. intros [Hkey Hkinds] Hk Hstep.
  goroutine_cases g Hstep; simpl;
    (split; [| by rewrite (filter_insert_same_kind _ _ _ _ Hk), length_insert]);
    intros j g' Hj Hw;
    apply lookup_insert_goroutine in Hj as [[-> ->]|Hj];
    rewrite ?updateInverted_locked_db;
    try (by destruct Hw);
    try (by eapply Hkey);
    try (by eapply Hkey; [exact Hk | right + left]).
  all: repeat match goal with
         | Hb : getId_batch ?w ?fw ?inv ?d = (?id, ?d1) |- _ =>
             let Heq := fresh in
             pose proof (getId_batch_other w fw inv ForwardTable d) as Heq;
             rewrite Hb in Heq; simpl in Heq; rewrite Heq by done; clear Hb
         end;
       try (by eapply Hkey).
  all: match goal with
       | Hu : updateForward_batch _ _ _ _ _ = Some _ |- _ =>
           apply updateForward_batch_sub in Hu as [Hnew Hold]
       end.
  - done.
  - apply Hold. by eapply Hkey.
Qed.

Lemma ForwardKey_run (schedule : list nat) (c c' : AddPage.config) :
  Barrier order c → ForwardKey c →
  AddPage.run p order schedule (AddPage.Running c) = AddPage.Running c' →
  ForwardKey c'.
Proof using order_Words.
  revert c. induction schedule as [|who schedule IH]; intros c Hbar Hinv; simpl.
  - by intros [= <-].
  - destruct (AddPage.step p order who c) as [[c1|]|] eqn:Hstep.
    + apply IH; [by eapply Barrier_step|].
      destruct who as [|k]; simpl in Hstep.
      * by eapply ForwardKey_stepMain.
      * destruct (AddPage.goroutines c !! k) as [g|] eqn:Hk; [|done].
        by eapply ForwardKey_stepGoroutine.
    + by destruct schedule.
    + by apply IH.
Qed.

(** What the code does where C3 speaks.  For a document with at least
    one term, under every schedule, when [UpdateOrAddPage] has returned the
    key of the page in the forward table holds the nested bucket of the
    term frequencies: [Put] has refused the [maxTf] ([ErrIncompatibleValue],
    dropped), [Get] on the key is nil, and [getMaxTf] is [byteToInt] of the
    nil slice, whatever [p.MaxTf] is. *)
Theorem getMaxTf_after_UpdateOrAddPage (schedule : list nat) (i : Indexer)
    (c : AddPage.config) :
  Words p ≠ ∅ →
  AddPage.UpdateOrAddPage p order schedule i = AddPage.Running c →
  AddPage.at_pc c = AddPage.Returned →
  is_Some (bolt.sub (db (AddPage.ix c) ForwardTable) (AddPage.pageId c))
  ∧ bolt.Get (db (AddPage.ix c) ForwardTable) (AddPage.pageId c) = None
  ∧ getMaxTf (AddPage.pageId c) (db (AddPage.ix c)) = byteToInt EmptyString.
Proof using order_Words.
  intros Hwords Hrun Hpc.
  pose proof (Barrier_run p order order_Words schedule _ _
                (Barrier_start order i) Hrun) as Hbar.
  assert (Hkey : ForwardKey c).
  { eapply ForwardKey_run; [apply Barrier_start | | exact Hrun].
    split; [by intros k g ? | done]. }
  unfold Barrier in Hbar. rewrite Hpc in Hbar. destruct Hbar as [Hz Hlen].
  apply pending_zero in Hz. rewrite Forall_forall in Hz.
  destruct Hkey as [Hkey Hkinds].
  assert (Hsome : is_Some (bolt.sub (db (AddPage.ix c) ForwardTable)
                             (AddPage.pageId c))).
  { destruct (filter (λ g, isForward g = true) (AddPage.goroutines c))
      as [|g gs] eqn:Hfilter.
    - simpl in Hkinds. rewrite (order_length p order order_Words) in Hlen.
      assert (size (Words p) ≠ 0%nat) by by intros ?%map_size_empty_iff.
      lia.
    - assert (Hg : g ∈ filter (λ g, isForward g = true) (AddPage.goroutines c))
        by (rewrite Hfilter; by left).
      apply list_elem_of_filter in Hg as [Hfw Hg].
      pose proof (Hz g Hg) as Hexit.
      apply list_elem_of_lookup in Hg as [k Hk].
      apply (Hkey k g Hk).
      destruct g as [a|a]; [done|]. destruct a; try done. by right. }
  split; [done|].
  assert (Hget : bolt.Get (db (AddPage.ix c) ForwardTable) (AddPage.pageId c)
                 = None).
  { destruct Hsome as [s Hs]. unfold bolt.sub in Hs. unfold bolt.Get.
    by destruct (bolt.pairs _ !! _) as [[v|s']|]. }
  split; [done|]. unfold getMaxTf. by rewrite Hget.
Qed.

End ForwardKeyProofs.

(** ** [FlushInverted] under every schedule *)

Lemma waiting_app (ts ts' : list (option bytes)) :
  waiting (ts ++ ts') = waiting ts + waiting ts'.
Proof. unfold waiting. rewrite filter_app, length_app. lia. Qed.

Lemma waiting_cons (t : option bytes) (ts : list (option bytes)) :
  waiting (t :: ts) = match t with Some _ => 1 | None => 0 end + waiting ts.
Proof.
  unfold waiting. rewrite filter_cons.
  destruct t; case_decide as Ht; simpl; try lia.
  - destruct Ht. eauto.
  - by destruct Ht.
Qed.

Lemma waiting_run (ts : list (option bytes)) (k : nat) (idBytes : bytes) :
  ts !! k = Some (Some idBytes) →
  waiting (<[k := None]> ts) = waiting ts - 1.
Proof.
  revert k. induction ts as [|t ts IH]; intros k Hk; [done|].
  destruct k as [|k]; simpl in *.
  - injection Hk as ->. rewrite !waiting_cons. lia.
  - rewrite !waiting_cons. rewrite (IH k Hk). lia.
Qed.

Lemma waiting_nonneg (ts : list (option bytes)) : 0 ≤ waiting ts.
Proof. unfold waiting. lia. Qed.

Lemma waiting_zero (ts : list (option bytes)) :
  waiting ts = 0 ↔ ts = replicate (length ts) None.
Proof.
  induction ts as [|t ts IH]; [done|].
  rewrite waiting_cons. pose proof (waiting_nonneg ts). simpl.
  destruct t.
  - split; [lia | done].
  - rewrite Z.add_0_l, IH. split; [by intros <- | by intros [= <-]].
Qed.

Lemma Grows_refl (d : DB) : Grows d d.
Proof. intros key s Hs. by exists s. Qed.

Lemma Grows_trans (d0 d1 d2 : DB) : Grows d0 d1 → Grows d1 d2 → Grows d0 d2.
Proof.
  intros H01 H12 key s Hs.
  destruct (H01 _ _ Hs) as (s1 & Hs1 & Hsub1).
  destruct (H12 _ _ Hs1) as (s2 & Hs2 & Hsub2).
  exists s2. split; [done | set_solver].
Qed.

Lemma Forall2_insert_right {A B} (P : A → B → Prop) (l : list A) (k : list B)
    (i : nat) (x : A) (y : B) :
  Forall2 P l k → l !! i = Some x → P x y → Forall2 P l (<[i := y]> k).
Proof.
  intros Hlk. revert i. induction Hlk as [|a b l k Hab Hlk IH]; intros i Hi Hxy.
  - done.
  - destruct i as [|i]; simpl in *.
    + injection Hi as ->. by constructor.
    + constructor; [done | by apply IH].
Qed.

Section FlushProofs.

Context `{Codec} `{SortSlice}.

Lemma SubPut_dom (s : gmap string string) (key value : bytes) :
  dom s ⊆ dom (bolt.SubPut s key value).1.
Proof.
  unfold bolt.SubPut. destruct (bolt.checkPut key value); simpl; [done|].
  rewrite dom_insert_L. set_solver.
Qed.

Lemma putAll_dom (postingList : gmap Z bool) (wordSet : gmap string string) :
  dom wordSet ⊆ dom (Flush.putAll postingList wordSet).
Proof.
  unfold Flush.putAll.
  apply (map_fold_weak_ind (λ r _, dom wordSet ⊆ dom r)); [done|].
  intros docId b m r _ Hr. etrans; [exact Hr | apply SubPut_dom].
Qed.

(** What a closure does to the store: the nested bucket under its key is
    there afterwards, a nested bucket keeps its keys, and the other tables
    are left alone. *)
Lemma merge_batch_grows (idBytes : bytes) (postingList : gmap Z bool)
    (d0 d : DB) :
  Flush.merge_batch idBytes postingList d0 = Some d →
  is_Some (bolt.sub (d InvertedTable) idBytes)
  ∧ Grows d0 d
  ∧ ∀ t, t ≠ InvertedTable → d t = d0 t.
Proof.
  unfold Flush.merge_batch, bolt.CreateBucketIfNotExists.
  case_decide; [done|].
  destruct (bolt.pairs (d0 InvertedTable) !! idBytes) as [[v|s]|] eqn:Hkey;
    try done.
  all: intros [= <-]; rewrite setBucket_eq.
  all: split; [unfold bolt.sub, bolt.storeSub; simpl; by rewrite lookup_insert_eq|].
  all: split; [|intros t Ht; by rewrite setBucket_ne].
  all: intros key s0 Hs0; rewrite setBucket_eq; unfold bolt.sub, bolt.storeSub in *;
    simpl; destruct (decide (idBytes = key)) as [->|Hne].
  - rewrite lookup_insert_eq. rewrite Hkey in Hs0. injection Hs0 as <-.
    eexists. split; [done | apply putAll_dom].
  - rewrite lookup_insert_ne by done. exists s0. done.
  - by rewrite Hkey in Hs0.
  - rewrite !lookup_insert_ne by done. exists s0. done.
Qed.

Lemma TaskOf_Grows (d d' : DB) (w : Z) (t : option bytes) :
  Grows d d' → TaskOf d w t → TaskOf d' w t.
Proof.
  intros Hgrow. destruct t as [idBytes|]; [done|]. simpl.
  intros [s Hs]. destruct (Hgrow _ _ Hs) as (s' & Hs' & _). eauto.
Qed.

Lemma FlushInv_start (i : Indexer) :
  FlushInv i (Flush.mkConfig i None Flush.Sort 0 0 []).
Proof.
  unfold FlushInv, Flush.view. simpl. repeat split; try done; apply Grows_refl.
Qed.

Lemma FlushInv_stepMain (i0 : Indexer) (c c' : Flush.config) :
  FlushInv i0 c → Flush.stepMain c = Some (Flush.Running c') → FlushInv i0 c'.
Proof.
  unfold FlushInv, Flush.stepMain, Flush.view.
  intros (Htemp & Hgrow & Hopen & Hother & Hpc) Hstep.
  destruct (Flush.at_pc c) as [| |[|x rest]| |] eqn:Hat.
  - injection Hstep as <-. simpl. destruct Hpc as (-> & -> & Htxn).
    rewrite Htxn in *. done.
  - destruct (Flush.txn c) eqn:Htxn; [done|]. injection Hstep as <-. simpl.
    destruct Hpc as (-> & -> & _).
    split_and!; try done.
    exists []. split_and!; try done.
    change (waiting []) with 0. lia.
  - injection Hstep as <-. simpl.
    destruct Hpc as (Hlist & visited & Hsplit & Htasks & Hwg).
    rewrite app_nil_r in Hsplit. subst visited. simpl in Hwg. done.
  - injection Hstep as <-. simpl.
    destruct Hpc as (Hlist & visited & Hsplit & Htasks & Hwg).
    split_and!; try done.
    exists (visited ++ [x]).
    split; [by rewrite <- app_assoc|]. split.
    + apply Forall2_app; [done|]. by repeat constructor.
    + rewrite waiting_app. change (waiting [_]) with 1.
      rewrite Hwg. simpl length. lia.
  - case_decide as Hz; [|done]. injection Hstep as <-. simpl.
    destruct Hpc as (Hlist & Htasks & Hwg).
    split_and!; try done. lia.
  - done.
Qed.

Lemma FlushInv_stepClosure (i0 : Indexer) (k : nat) (c c' : Flush.config) :
  FlushInv i0 c → Flush.stepClosure k c = Some (Flush.Running c') →
  FlushInv i0 c'.
Proof.
  unfold Flush.stepClosure.
  intros (Htemp & Hgrow & Hopen & Hother & Hpc) Hstep.
  destruct (Flush.tasks c !! k) as [[idBytes|]|] eqn:Hk; try done.
  destruct (Flush.merge_batch idBytes _ (Flush.view c)) as [d|] eqn:Hm; [|done].
  injection Hstep as <-.
  apply merge_batch_grows in Hm as (Hnew & Hgrow1 & Hother1).
  assert (Htasks : ∀ ws, Forall2 (TaskOf (Flush.view c)) ws (Flush.tasks c) →
                         Forall2 (TaskOf d) ws (<[k := None]> (Flush.tasks c))).
  { intros ws Hws.
    destruct (Forall2_lookup_r _ _ _ _ _ Hws Hk) as (w & Hw & Hof).
    simpl in Hof. subst idBytes.
    apply Forall2_insert_right with (x := w).
    - eapply Forall2_impl; [exact Hws|]. intros. by eapply TaskOf_Grows.
    - done.
    - done. }
  unfold FlushInv, Flush.view. simpl. split; [done|]. split; [done|].
  split; [by eapply Grows_trans|].
  split. { intros t Ht. split; [by apply Hother|].
           rewrite Hother1 by done. by apply Hother. }
  rewrite (waiting_run _ _ _ Hk).
  destruct (Flush.at_pc c) as [| |rest| |].
  - destruct Hpc as (_ & Hnil & _). by rewrite Hnil in Hk.
  - destruct Hpc as (_ & Hnil & _). by rewrite Hnil in Hk.
  - destruct Hpc as (Hlist & visited & Hsplit & Hts & Hwg).
    split; [done|]. exists visited. repeat split; [done | by apply Htasks | lia].
  - destruct Hpc as (Hlist & Hts & Hwg).
    repeat split; [done | by apply Htasks | lia].
  - destruct Hpc as (Hlist & Hts & Hwg).
    pose proof (waiting_nonneg (<[k := None]> (Flush.tasks c))) as Hnn.
    rewrite (waiting_run _ _ _ Hk) in Hnn. lia.
Qed.

Lemma FlushInv_stepCommit (i0 : Indexer) (c c' : Flush.config) :
  FlushInv i0 c → Flush.stepCommit c = Some (Flush.Running c') →
  FlushInv i0 c'.
Proof.
  unfold Flush.stepCommit, FlushInv, Flush.view.
  intros (Htemp & Hgrow & Hopen & Hother & Hpc) Hstep.
  destruct (Flush.txn c) as [d|] eqn:Htxn; [|done].
  injection Hstep as <-. simpl in *.
  split; [done|]. split; [by eapply Grows_trans|]. split; [apply Grows_refl|].
  split. { intros t Ht. split; by apply Hother. }
  destruct (Flush.at_pc c) as [| |rest| |]; try done.
  - by destruct Hpc as (_ & _ & ?).
  - by destruct Hpc as (_ & _ & ?).
Qed.

Lemma FlushInv_run (i0 : Indexer) (schedule : list Flush.pick)
    (c c' : Flush.config) :
  FlushInv i0 c →
  Flush.run schedule (Flush.Running c) = Flush.Running c' →
  FlushInv i0 c'.
Proof.
  revert c. induction schedule as [|who schedule IH]; intros c Hinv; simpl.
  - by intros [= <-].
  - destruct (Flush.step who c) as [[c1|]|] eqn:Hstep.
    + apply IH. destruct who as [|k|]; simpl in Hstep.
      * by eapply FlushInv_stepMain.
      * by eapply FlushInv_stepClosure.
      * by eapply FlushInv_stepCommit.
    + by destruct schedule.
    + by apply IH.
Qed.

(** A closure never panics on a table of nested buckets. *)
Lemma merge_batch_NoLeaf (idBytes : bytes) (postingList : gmap Z bool) (d0 : DB) :
  0 < len idBytes → NoLeaf (d0 InvertedTable) →
  ∃ d, Flush.merge_batch idBytes postingList d0 = Some d
       ∧ NoLeaf (d InvertedTable)
       ∧ bolt.sub (d InvertedTable) idBytes
         = Some (Flush.putAll postingList
                   (default ∅ (bolt.sub (d0 InvertedTable) idBytes)))
       ∧ ∀ key, key ≠ idBytes →
                bolt.sub (d InvertedTable) key = bolt.sub (d0 InvertedTable) key.
Proof.
  intros Hlen Hno. unfold Flush.merge_batch, bolt.CreateBucketIfNotExists.
  rewrite decide_False by lia. unfold bolt.sub, bolt.storeSub.
  destruct (bolt.pairs (d0 InvertedTable) !! idBytes) as [[v|s]|] eqn:Hkey.
  - by destruct (Hno idBytes v).
  - eexists. split; [done|]. rewrite setBucket_eq. simpl.
    split; [|split].
    + intros key v. simpl. rewrite lookup_insert.
      case_decide; [done | apply Hno].
    + by rewrite lookup_insert_eq.
    + intros key Hne. by rewrite lookup_insert_ne.
  - eexists. split; [done|]. rewrite setBucket_eq. simpl.
    split; [|split].
    + intros key v. simpl. rewrite !lookup_insert.
      repeat case_decide; try done.
    + by rewrite lookup_insert_eq.
    + intros key Hne. by rewrite !lookup_insert_ne.
Qed.

Lemma Flush_run_app (s1 s2 : list Flush.pick) (st : Flush.state) :
  Flush.run (s1 ++ s2) st = Flush.run s2 (Flush.run s1 st).
Proof.
  revert st. induction s1 as [|who s1 IH]; intros st; simpl; [done|].
  destruct st as [c|]; [|by destruct s2].
  by destruct (Flush.step who c).
Qed.

(** Under every schedule, [FlushInverted] on a table of nested buckets
    does not panic. *)
Lemma Flush_run_no_panic (schedule : list Flush.pick) (c : Flush.config) :
  NoLeaf (Flush.view c InvertedTable) →
  Forall (λ t : option bytes, ∀ b, t = Some b → 0 < len b) (Flush.tasks c) →
  Flush.run schedule (Flush.Running c) ≠ Flush.Crashed.
Proof.
  revert c. induction schedule as [|who schedule IH]; intros c Hno Hts; [done|].
  simpl. destruct (Flush.step who c) as [s|] eqn:Hstep; [|by apply IH].
  destruct who as [|k|]; simpl in Hstep.
  - unfold Flush.stepMain in Hstep.
    destruct (Flush.at_pc c) as [| |[|x rest]| |]; try done;
      try case_decide; try done;
      try (destruct (Flush.txn c) eqn:Htxn; [done|]);
      injection Hstep as <-; apply IH; simpl; try done.
    + unfold Flush.view in *. simpl. by rewrite Htxn in Hno.
    + apply Forall_app. split; [done|]. constructor; [|done].
      intros b [= <-]. apply uint64ToByte_key.
  - unfold Flush.stepClosure in Hstep.
    destruct (Flush.tasks c !! k) as [[idBytes|]|] eqn:Hk; try done.
    assert (Hlen : 0 < len idBytes).
    { rewrite Forall_forall in Hts. eapply Hts; [|done].
      by eapply list_elem_of_lookup_2. }
    destruct (merge_batch_NoLeaf idBytes (staged (Flush.ix c) (Flush.id c))
                (Flush.view c) Hlen Hno) as (d & Hd & Hno' & _).
    rewrite Hd in Hstep. injection Hstep as <-. apply IH; simpl; [done|].
    apply Forall_insert; [done|]. by intros b.
  - unfold Flush.stepCommit in Hstep.
    destruct (Flush.txn c) as [d|] eqn:Htxn; [|done].
    injection Hstep as <-. apply IH; simpl; [|done].
    unfold Flush.view in *. simpl. by rewrite Htxn in Hno.
Qed.

(** One turn of the loop without interference: the task is started, its
    closure runs and its batch commits before the loop moves on. *)
Lemma Flush_run_inOrderFrom (rest : list Z) (k : nat) (i : Indexer) (id0 : Z) :
  NoLeaf (db i InvertedTable) → NoDup rest →
  Forall (λ w, 0 ≤ w < 2 ^ 64) rest →
  ∃ i' id',
    Flush.run (Flush.inOrderFrom k (length rest))
      (Flush.Running
         (Flush.mkConfig i None (Flush.Range rest) id0
            (Z.of_nat (length rest)) (replicate k None)))
    = Flush.Running
        (Flush.mkConfig i' None (Flush.Range []) id' 0
           (replicate (k + length rest) None))
    ∧ tempInverted i' = tempInverted i
    ∧ wordIdList i' = wordIdList i
    ∧ (∀ w, w ∈ rest →
            posting (db i') w
            = Some (Flush.putAll (staged i w) (default ∅ (posting (db i) w))))
    ∧ (∀ key, (∀ w, w ∈ rest → key ≠ uint64ToByte w) →
              bolt.sub (db i' InvertedTable) key
              = bolt.sub (db i InvertedTable) key).
Proof.
  revert k i id0. induction rest as [|x rest IH]; intros k i id0 Hno Hnd Hrange.
  - exists i, id0. simpl. rewrite Nat.add_0_r.
    repeat split; try done. by intros w ?%elem_of_nil.
  - apply NoDup_cons in Hnd as [Hx Hnd].
    apply Forall_cons in Hrange as [Hxr Hrange].
    pose proof (uint64ToByte_key x) as [Hlen _].
    destruct (merge_batch_NoLeaf (uint64ToByte x) (staged i x) (db i) Hlen Hno)
      as (d & Hd & Hno' & Hown & Hothers).
    set (i1 := mkIndexer d (tempInverted i) (wordIdList i)).
    destruct (IH (S k) i1 x Hno' Hnd Hrange)
      as (i' & id' & Hrun & Htemp & Hlist & Hpost & Hkeep).
    exists i', id'. split; [|split; [done|split; [done|split]]].
    + cbn [length Flush.inOrderFrom app]. cbn [Flush.run Flush.step].
      unfold Flush.stepMain at 1.
      cbn [Flush.at_pc Flush.ix Flush.wg Flush.tasks Flush.txn].
      cbn [Flush.run Flush.step]. unfold Flush.stepClosure at 1, Flush.view.
      cbn [Flush.at_pc Flush.ix Flush.wg Flush.tasks Flush.id Flush.txn default].
      rewrite lookup_app_r by (by rewrite length_replicate).
      rewrite length_replicate, Nat.sub_diag. cbn [lookup list_lookup].
      rewrite Hd.
      rewrite insert_app_r_alt by (by rewrite length_replicate).
      rewrite length_replicate, Nat.sub_diag. cbn [insert list_insert].
      rewrite <- replicate_S_end.
      cbn [Flush.run Flush.step]. unfold Flush.stepCommit at 1.
      cbn [Flush.at_pc Flush.ix Flush.wg Flush.tasks Flush.id Flush.txn].
      replace (Z.of_nat (S (length rest)) - 1) with (Z.of_nat (length rest))
        by lia.
      fold i1. rewrite Hrun. by rewrite Nat.add_succ_r.
    + intros w [->|Hw]%elem_of_cons.
      * unfold posting. rewrite Hkeep.
        -- exact Hown.
        -- intros w Hw Heq. apply uint64ToByte_inj in Heq; [by subst|done|].
           rewrite Forall_forall in Hrange. by apply Hrange.
      * rewrite (Hpost w Hw). unfold posting, staged. simpl.
        rewrite Hothers; [done|].
        intros Heq. apply uint64ToByte_inj in Heq; [by subst|..|done].
        rewrite Forall_forall in Hrange. by apply Hrange.
    + intros key Hkey. rewrite Hkeep.
      * apply Hothers. apply Hkey. by left.
      * intros w Hw. apply Hkey. by right.
Qed.

Lemma Zltb_StrictWeakOrder : StrictWeakOrder Z.ltb.
Proof. split; intros x y; try intros z; lia. Qed.

Lemma Ascending_Zltb (l : list Z) : Ascending Z.ltb l → StronglySorted Z.le l.
Proof.
  unfold Ascending. induction 1 as [|x l Hl IH Hx]; constructor; [done|].
  eapply Forall_impl; [exact Hx|]. intros y. simpl. lia.
Qed.

Lemma marker_value : len marker ≤ bolt.MaxValueSize.
Proof. by vm_compute. Qed.

(** The keys of a posting list after the loop of a closure: the keys it
    had, and the staged pages. *)
Lemma putAll_dom_spec (postingList : gmap Z bool) (wordSet : gmap string string)
    (key : bytes) :
  key ∈ dom (Flush.putAll postingList wordSet)
  ↔ key ∈ dom wordSet
    ∨ ∃ docId, docId ∈ dom postingList ∧ key = uint64ToByte docId.
Proof.
  unfold Flush.putAll.
  apply (map_fold_weak_ind
           (λ r m, key ∈ dom r
                   ↔ key ∈ dom wordSet
                     ∨ ∃ docId, docId ∈ dom m ∧ key = uint64ToByte docId)).
  - rewrite dom_empty_L. set_solver.
  - intros docId b m r Hfresh IH. unfold bolt.SubPut.
    rewrite checkPut_ok by (apply uint64ToByte_key || apply marker_value).
    simpl. rewrite !dom_insert_L, elem_of_union, elem_of_singleton, IH.
    set_solver.
Qed.

(** C2, as the code has it.  On an inverted table of nested buckets and a
    staging structure of distinct [uint64] word ids:

    - under every schedule [FlushInverted] runs without panic; the task
      started [k]-th holds the key of the [k]-th smallest staged word id;
      no posting list loses a page, neither at a commit nor in the open
      transaction, and nothing else in the store changes; and when the
      call has returned, [wordIdList] is sorted ascending, the closure of
      every task has run, and every staged word has its posting list, in
      the store once the last batch has committed;
    - under the schedule without interference the call returns with every
      batch committed, and the posting list of each staged word holds the
      pages it held before and the pages staged for the word. *)
Theorem FlushInverted_merges (i : Indexer) :
  NoLeaf (db i InvertedTable) → NoDup (wordIdList i) →
  Forall (λ w, 0 ≤ w < 2 ^ 64) (wordIdList i) →
  (∀ schedule, Flush.FlushInverted schedule i ≠ Flush.Crashed)
  ∧ (∀ schedule c,
       Flush.FlushInverted schedule i = Flush.Running c →
       (∀ k idBytes,
          Flush.tasks c !! k = Some (Some idBytes) →
          ∃ w, sort_Slice Z.ltb (wordIdList i) !! k = Some w
               ∧ idBytes = uint64ToByte w)
       ∧ Grows (db i) (db (Flush.ix c))
       ∧ Grows (db (Flush.ix c)) (Flush.view c)
       ∧ (∀ t, t ≠ InvertedTable →
               db (Flush.ix c) t = db i t ∧ Flush.view c t = db i t)
       ∧ tempInverted (Flush.ix c) = tempInverted i
       ∧ (Flush.at_pc c = Flush.Returned →
          wordIdList (Flush.ix c) ≡ₚ wordIdList i
          ∧ StronglySorted Z.le (wordIdList (Flush.ix c))
          ∧ Flush.tasks c = replicate (length (wordIdList i)) None
          ∧ ∀ w, w ∈ wordIdList i → is_Some (posting (Flush.view c) w)))
  ∧ ∃ c,
      Flush.FlushInverted (Flush.inOrder (length (wordIdList i))) i
      = Flush.Running c
      ∧ Flush.at_pc c = Flush.Returned
      ∧ Flush.txn c = None
      ∧ ∀ w, w ∈ wordIdList i →
             ∃ s, posting (db (Flush.ix c)) w = Some s
                  ∧ ∀ key, key ∈ dom s
                           ↔ key ∈ dom (default ∅ (posting (db i) w))
                             ∨ ∃ pageId, pageId ∈ dom (staged i w)
                                         ∧ key = uint64ToByte pageId.
Proof.
  intros Hno Hnd Hrange.
  set (sorted := sort_Slice Z.ltb (wordIdList i)).
  assert (Hperm : sorted ≡ₚ wordIdList i) by apply sort_Slice_Permutation.
  split; [|split].
  - intros schedule. apply Flush_run_no_panic; simpl; [done | constructor].
  - intros schedule c Hrun.
    apply (FlushInv_run i) in Hrun; [|apply FlushInv_start].
    destruct Hrun as (Htemp & Hgrow & Hopen & Hother & Hpc). fold sorted in Hpc.
    assert (Htasks : ∃ visited rest, sorted = visited ++ rest
              ∧ Forall2 (TaskOf (Flush.view c)) visited (Flush.tasks c)).
    { destruct (Flush.at_pc c) as [| |rest| |].
      - destruct Hpc as (_ & -> & _). by exists [], sorted.
      - destruct Hpc as (_ & -> & _). by exists [], sorted.
      - destruct Hpc as (_ & visited & ? & ? & _). by exists visited, rest.
      - destruct Hpc as (_ & ? & _). exists sorted, []. by rewrite app_nil_r.
      - destruct Hpc as (_ & ? & _). exists sorted, []. by rewrite app_nil_r. }
    destruct Htasks as (visited & rest & Hsplit & Htasks).
    split.
    { intros k idBytes Hk.
      destruct (Forall2_lookup_r _ _ _ _ _ Htasks Hk) as (w & Hw & Hof).
      exists w. split; [|done]. rewrite Hsplit. by apply lookup_app_l_Some. }
    repeat (split; [done|]).
    intros Hat. rewrite Hat in Hpc. destruct Hpc as (Hlist & Hts & Hz).
    rewrite Hlist. split; [done|]. split.
    { apply Ascending_Zltb, sort_Slice_Ascending, Zltb_StrictWeakOrder. }
    apply waiting_zero in Hz.
    assert (Hlen : length (Flush.tasks c) = length (wordIdList i)).
    { rewrite <- (Forall2_length _ _ _ Hts). by rewrite Hperm. }
    split; [by rewrite <- Hlen|].
    intros w Hw. rewrite <- Hperm in Hw.
    apply list_elem_of_lookup in Hw as [k Hk].
    destruct (Forall2_lookup_l _ _ _ _ _ Hts Hk) as (t & Ht & Hof).
    rewrite Hz in Ht. apply lookup_replicate in Ht as [-> _]. exact Hof.
  - unfold Flush.FlushInverted, Flush.start, Flush.inOrder.
    cbn [app Flush.run Flush.step]. unfold Flush.stepMain at 1.
    cbn [Flush.at_pc Flush.ix Flush.wg Flush.tasks Flush.id Flush.txn db
         tempInverted wordIdList].
    cbn [Flush.run Flush.step]. unfold Flush.stepMain at 1.
    cbn [Flush.at_pc Flush.ix Flush.wg Flush.tasks Flush.id Flush.txn db
         tempInverted wordIdList].
    fold sorted. rewrite Flush_run_app.
    replace (length (wordIdList i)) with (length sorted) by by rewrite Hperm.
    destruct (Flush_run_inOrderFrom sorted 0
                (mkIndexer (db i) (tempInverted i) sorted) 0)
      as (i' & id' & Hrun & Htemp & Hlist & Hpost & Hkeep).
    { done. }
    { by rewrite Hperm. }
    { by rewrite Hperm. }
    change (@nil (option bytes)) with (@replicate (option bytes) 0 None).
    rewrite Hrun. cbn [Flush.run Flush.step]. unfold Flush.stepMain at 1.
    cbn [Flush.at_pc Flush.withPc].
    cbn [Flush.run Flush.step]. unfold Flush.stepMain at 1.
    cbn [Flush.at_pc Flush.withPc Flush.wg]. rewrite decide_True by done.
    eexists. split; [reflexivity|]. split; [done|]. split; [done|].
    cbn [Flush.ix Flush.withPc].
    intros w Hw. rewrite <- Hperm in Hw. rewrite (Hpost w Hw).
    eexists. split; [reflexivity|]. intros key.
    apply putAll_dom_spec.
Qed.

End FlushProofs.

(** ** The sample runs *)

(** The runs below are evaluated with the big-endian codec and the
    insertion sort. *)

Lemma orderAB_Words : orderAB ≡ₚ map_to_list (Words docAB).
Proof. by vm_compute. Qed.

Lemma lateAB_returns :
  ∃ c, AddPage.UpdateOrAddPage docAB orderAB lateAB (LoadIndexer emptyDB)
       = AddPage.Running c
       ∧ AddPage.at_pc c = AddPage.Returned.
Proof. vm_compute. eexists. split; reflexivity. Qed.

(** The barrier, on the page [docAB] under the schedule [lateAB]. *)
Lemma UpdateOrAddPage_barrier_witness :
  ∃ c, AddPage.UpdateOrAddPage docAB orderAB lateAB (LoadIndexer emptyDB)
       = AddPage.Running c
       ∧ (pastBarrier (AddPage.at_pc c) →
          length (AddPage.goroutines c) = (2 * size (Words docAB))%nat
          ∧ Forall (λ g, AddPage.exited g = true) (AddPage.goroutines c))
       ∧ (∀ k g, AddPage.goroutines c !! k = Some g →
                 AddPage.exited g = false →
                 is_Some (AddPage.step docAB orderAB (S k) c)).
Proof.
  destruct lateAB_returns as (c & Hrun & _). exists c. split; [exact Hrun|].
  exact (UpdateOrAddPage_barrier docAB orderAB orderAB_Words lateAB
           (LoadIndexer emptyDB) c Hrun).
Defined.

(** [getMaxTf] after [UpdateOrAddPage], on the page [docAB], whose [MaxTf]
    is 2. *)
Lemma getMaxTf_after_UpdateOrAddPage_witness :
  ∃ c, AddPage.UpdateOrAddPage docAB orderAB lateAB (LoadIndexer emptyDB)
       = AddPage.Running c
       ∧ MaxTf docAB = 2
       ∧ byteToInt EmptyString = 0
       ∧ is_Some (bolt.sub (db (AddPage.ix c) ForwardTable) (AddPage.pageId c))
       ∧ bolt.Get (db (AddPage.ix c) ForwardTable) (AddPage.pageId c) = None
       ∧ getMaxTf (AddPage.pageId c) (db (AddPage.ix c)) = byteToInt EmptyString.
Proof.
  destruct lateAB_returns as (c & Hrun & Hpc). exists c.
  split; [exact Hrun|]. split; [reflexivity|]. split; [reflexivity|].
  apply (getMaxTf_after_UpdateOrAddPage docAB orderAB orderAB_Words lateAB
           (LoadIndexer emptyDB) c).
  - intros Hempty. apply (f_equal size) in Hempty. vm_compute in Hempty.
    discriminate Hempty.
  - exact Hrun.
  - exact Hpc.
Defined.

(** What the code does where C1 speaks, on the page [docAB] with the
    terms [a] (1) and [b] (2), on an empty store.

    Under [lateAB] the four goroutines start after the loop has ended and
    read [word = b], [tf = 2]: the term [a] gets no word id, nothing is
    staged for it, and the forward index of the page holds one entry, for
    [b].

    Under [raceAB] the goroutines of [a] both find no id and both draw
    one: the word map ends with [a] under id 2, the page is staged under
    id 1, and nothing is staged under id 2. *)
Theorem UpdateOrAddPage_skips_and_misfiles_terms :
  orderAB ≡ₚ map_to_list (Words docAB)
  ∧ (∃ c, AddPage.UpdateOrAddPage docAB orderAB lateAB (LoadIndexer emptyDB)
        = AddPage.Running c
        ∧ AddPage.at_pc c = AddPage.Returned
        ∧ AddPage.pageId c = uint64ToByte 1
        ∧ bolt.Get (db (AddPage.ix c) WordToWordId) "a" = None
        ∧ bolt.Get (db (AddPage.ix c) WordToWordId) "b" = Some (uint64ToByte 1)
        ∧ wordIdList (AddPage.ix c) = [1]
        ∧ bolt.sub (db (AddPage.ix c) ForwardTable) (AddPage.pageId c)
          = Some {[uint64ToByte 1 := intToByte 2]})
  ∧ (∃ c, AddPage.UpdateOrAddPage docAB orderAB raceAB (LoadIndexer emptyDB)
          = AddPage.Running c
          ∧ AddPage.at_pc c = AddPage.Returned
          ∧ AddPage.pageId c = uint64ToByte 1
          ∧ bolt.Get (db (AddPage.ix c) WordToWordId) "a" = Some (uint64ToByte 2)
          ∧ staged (AddPage.ix c) 2 = ∅
          ∧ staged (AddPage.ix c) 1 = {[1 := true]}
          ∧ forward (db (AddPage.ix c)) (AddPage.pageId c) (uint64ToByte 2)
            = Some (intToByte 1)
          ∧ forward (db (AddPage.ix c)) (AddPage.pageId c) (uint64ToByte 1)
            = None).
Proof.
  split; [apply orderAB_Words|].
  split; vm_compute; eexists; (split; [reflexivity|]); repeat split.
Qed.

(** What the code does where C9 speaks.  In one session on an empty
    store the pages [docA] (term [a]) and [docB] (term [b]) are added and
    the index is flushed: the posting list of [a] holds page 1.  Then
    [docA] is added again and the index is flushed under [lateFlush]: both
    closures run after the loop and read [id = 2], so the closure of word
    1 writes the pages staged for word 2, and the posting list of [a] now
    holds two pages. *)
Theorem second_UpdateOrAddPage_changes_posting_list :
  ∃ i3 i5,
    addTwice = Some (i3, i5)
    ∧ bolt.Get (db i3 UrlToPageId) "u1" = Some (uint64ToByte 1)
    ∧ bolt.Get (db i3 WordToWordId) "a" = Some (uint64ToByte 1)
    ∧ posting (db i3) 1 = Some {[uint64ToByte 1 := marker]}
    ∧ posting (db i5) 1
      = Some (<[uint64ToByte 2 := marker]> {[uint64ToByte 1 := marker]})
    ∧ size <$> posting (db i3) 1 = Some 1%nat
    ∧ size <$> posting (db i5) 1 = Some 2%nat.
Proof. vm_compute. eexists _, _. repeat split. Qed.

(** C2 fails where a posting list has pages of an earlier session.  After
    [twoSessions] the posting list of word 1 holds the pages 1 and 2, and
    the staging structure of the session holds page 2 only for the
    word. *)
Lemma FlushInverted_keeps_pages_of_earlier_session :
  ∃ i,
    twoSessions = Some i
    ∧ wordIdList i = [1]
    ∧ staged i 1 = {[2 := true]}
    ∧ posting (db i) 1
      = Some (<[uint64ToByte 2 := marker]> {[uint64ToByte 1 := marker]})
    ∧ default ∅ (posting (db i) 1) !! uint64ToByte 1 = Some marker
    ∧ staged i 1 !! 1 = None.
Proof. vm_compute. eexists. repeat split. Qed.

(** [FlushInverted] on the staging structure [stagedTwoWords]. *)
Lemma FlushInverted_merges_witness :
  NoLeaf (db stagedTwoWords InvertedTable)
  ∧ NoDup (wordIdList stagedTwoWords)
  ∧ Forall (λ w, 0 ≤ w < 2 ^ 64) (wordIdList stagedTwoWords)
  ∧ (∀ schedule, Flush.FlushInverted schedule stagedTwoWords ≠ Flush.Crashed)
  ∧ ∃ c,
      Flush.FlushInverted (Flush.inOrder 2) stagedTwoWords = Flush.Running c
      ∧ Flush.at_pc c = Flush.Returned
      ∧ Flush.txn c = None
      ∧ ∀ w, w ∈ [2; 1] →
             ∃ s, posting (db (Flush.ix c)) w = Some s
                  ∧ ∀ key, key ∈ dom s
                           ↔ key ∈ dom (default ∅ (posting (db stagedTwoWords) w))
                             ∨ ∃ pageId, pageId ∈ dom (staged stagedTwoWords w)
                                         ∧ key = uint64ToByte pageId.
Proof.
  assert (H1 : NoLeaf (db stagedTwoWords InvertedTable)).
  { intros key v. simpl. by rewrite lookup_empty. }
  assert (H2 : NoDup (wordIdList stagedTwoWords)).
  { simpl. apply NoDup_cons. split; [|apply NoDup_singleton].
    intros Hin%list_elem_of_singleton. discriminate Hin. }
  assert (H3 : Forall (λ w, 0 ≤ w < 2 ^ 64) (wordIdList stagedTwoWords)).
  { simpl. repeat constructor; done. }
  split; [exact H1|]. split; [exact H2|]. split; [exact H3|].
  destruct (FlushInverted_merges stagedTwoWords H1 H2 H3) as (Hsafe & _ & Hrun).
  split; [exact Hsafe | exact Hrun].
Defined.

(** The caller can return before the last batch has committed: under
    [earlyReturn] both closures have run and called [wg.Done()], the call
    has returned, and the committed store has no posting list yet. *)
Lemma FlushInverted_returns_before_commit :
  ∃ c,
    Flush.FlushInverted earlyReturn stagedTwoWords = Flush.Running c
    ∧ Flush.at_pc c = Flush.Returned
    ∧ Flush.tasks c = [None; None]
    ∧ is_Some (Flush.txn c)
    ∧ posting (db (Flush.ix c)) 1 = None
    ∧ posting (db (Flush.ix c)) 2 = None
    ∧ is_Some (posting (Flush.view c) 1)
    ∧ is_Some (posting (Flush.view c) 2).
Proof. vm_compute. eexists. split; [reflexivity|]. repeat split; eauto. Qed.

(** * Further properties of the indexer and of the phrase search *)

(** ** Invariants of a run of [UpdateOrAddPage] *)

Section RunInvariant.

Context `{Codec}.
Variable p : Document.
Variable order : list (string * Z).

(** A property that holds at the start and that every step keeps holds
    along every schedule. *)
Lemma AddPage_run_invariant (P : AddPage.config → Prop) (schedule : list nat)
    (c c' : AddPage.config) :
  (∀ who c1 c2, P c1 → AddPage.step p order who c1 = Some (AddPage.Running c2) →
                P c2) →
  P c →
  AddPage.run p order schedule (AddPage.Running c) = AddPage.Running c' →
  P c'.
Proof.
  intros Hstep. revert c. induction schedule as [|who schedule IH];
    intros c Hc; simpl.
  - by intros [= <-].
  - destruct (AddPage.step p order who c) as [[c1|]|] eqn:Hwho.
    + apply IH. by eapply Hstep.
    + by destruct schedule.
    + by apply IH.
Qed.

(** What a step of a goroutine leaves alone: the caller, the id of the
    page, the number of goroutines, and every table but the two of the
    words and the forward table. *)
Lemma stepGoroutine_frame (k : nat) (g : AddPage.goroutine)
    (c c' : AddPage.config) :
  AddPage.stepGoroutine k g c = Some (AddPage.Running c') →
  AddPage.at_pc c' = AddPage.at_pc c
  ∧ AddPage.pageId c' = AddPage.pageId c
  ∧ length (AddPage.goroutines c') = length (AddPage.goroutines c)
  ∧ ∀ t, t ≠ WordToWordId → t ≠ WordIdToWord → t ≠ ForwardTable →
         db (AddPage.ix c') t = db (AddPage.ix c) t.
Proof.
  intros Hstep. goroutine_cases g Hstep; simpl; rewrite ?length_insert;
    rewrite ?updateInverted_locked_db;
    (split; [done|]); (split; [done|]); (split; [done|]); intros t H1 H2 H3;
    try done.
  all: rewrite ?setBucket_ne by done; try done.
  match goal with
  | Hu : updateForward_batch _ _ _ _ _ = Some _ |- _ =>
      unfold updateForward_batch in Hu;
      destruct (bolt.CreateBucketIfNotExists _ _) as [fw [set|e]];
      [injection Hu as <-|done]
  end.
  by rewrite setBucket_ne.
Qed.

(** A step of a goroutine changes the staging structure in the critical
    section only. *)
Lemma stepGoroutine_staging (k : nat) (g : AddPage.goroutine)
    (c c' : AddPage.config) :
  AddPage.stepGoroutine k g c = Some (AddPage.Running c') →
  (tempInverted (AddPage.ix c') = tempInverted (AddPage.ix c)
   ∧ wordIdList (AddPage.ix c') = wordIdList (AddPage.ix c))
  ∨ ∃ wordId,
      g = AddPage.Inverted (AddPage.InvertedLock wordId)
      ∧ AddPage.ix c'
        = updateInverted_locked (byteToUint64 wordId)
            (byteToUint64 (AddPage.pageId c)) (AddPage.ix c).
Proof.
  intros Hstep. goroutine_cases g Hstep; simpl; try (by left).
  right. by eexists.
Qed.

(** What a step of the caller leaves alone. *)
Lemma stepMain_frame (c c' : AddPage.config) :
  AddPage.stepMain p order c = Some (AddPage.Running c') →
  tempInverted (AddPage.ix c') = tempInverted (AddPage.ix c)
  ∧ wordIdList (AddPage.ix c') = wordIdList (AddPage.ix c)
  ∧ ∀ t, t ≠ UrlToPageId → t ≠ PageIdToUrl → t ≠ ForwardTable → t ≠ PageInfo →
         db (AddPage.ix c') t = db (AddPage.ix c) t.
Proof.
  unfold AddPage.stepMain. intros Hstep.
  destruct (AddPage.at_pc c) as [| |[|[w t] rest]|t rest| | | |];
    repeat match type of Hstep with
           | context [getId_view ?w ?t ?d] => destruct (getId_view w t d)
           | context [getId_batch ?w ?t ?t' ?d] =>
               destruct (getId_batch w t t' d) eqn:?
           | context [decide ?P] => destruct (decide P)
           end; try done; injection Hstep as <-; simpl;
    (split; [done|]); (split; [done|]); intros t0 H1 H2 H3 H4; try done.
  - match goal with
    | Hb : getId_batch ?w ?fw ?inv ?d = (?id, ?d1) |- _ =>
        let Heq := fresh in
        pose proof (getId_batch_other w fw inv t0 d) as Heq;
        rewrite Hb in Heq; simpl in Heq; by rewrite Heq
    end.
  - unfold setMaxTf. by rewrite setBucket_ne.
  - unfold putPageInfo. by rewrite setBucket_ne.
Qed.

End RunInvariant.

(** ** [getId], [getOrCreatePageId], [ContainsUrl] *)

Lemma Put_sequence (b : bolt.Bucket) (key value : bytes) :
  bolt.sequence (bolt.Put b key value).1 = bolt.sequence b.
Proof.
  unfold bolt.Put. destruct (bolt.checkPut key value); [done|].
  by destruct (bolt.pairs b !! key) as [[v|s]|].
Qed.

Lemma Put_Get_ne (b : bolt.Bucket) (key value k : bytes) :
  k ≠ key → bolt.Get (bolt.Put b key value).1 k = bolt.Get b k.
Proof.
  intros Hne. unfold bolt.Put. destruct (bolt.checkPut key value); [done|].
  destruct (bolt.pairs b !! key) as [[v|s]|]; try done.
  all: unfold bolt.Get; simpl; by rewrite lookup_insert_ne.
Qed.

Lemma Put_refused (b : bolt.Bucket) (key value : bytes) :
  ¬ (0 < len key ≤ bolt.MaxKeySize) → (bolt.Put b key value).1 = b.
Proof.
  intros Hkey. unfold bolt.Put, bolt.checkPut. pose proof (len_nonneg key).
  repeat case_decide; try done; lia.
Qed.

Section GetIdMore.

Context `{Codec}.

(** The [Batch] of [getId] draws the next number of the sequence and
    leaves the id of every other text. *)
Lemma getId_batch_keeps (fw inv : Table) (d : DB) (text : string) :
  fw ≠ inv →
  (getId_batch text fw inv d).1
  = uint64ToByte ((bolt.sequence (d fw) + 1) mod 2 ^ 64)
  ∧ bolt.sequence ((getId_batch text fw inv d).2 fw)
    = (bolt.sequence (d fw) + 1) mod 2 ^ 64
  ∧ ∀ text', text' ≠ text →
      bolt.Get ((getId_batch text fw inv d).2 fw) text' = bolt.Get (d fw) text'.
Proof.
  intros Hne. unfold getId_batch, bolt.NextSequence. cbn zeta. simpl.
  rewrite setBucket_ne by done. rewrite setBucket_eq.
  split; [done|]. split.
  - by rewrite Put_sequence.
  - intros text' Hother. by rewrite Put_Get_ne.
Qed.

(** [getId] on consistent tables, for a text that the store accepts as a
    key: the id it returns is under the text from then on, the inverse map
    resolves it, and the other tables are left alone. *)
Lemma getId_resolves (fw inv : Table) (d : DB) (text : string) :
  fw ≠ inv → IdTablesOk fw inv d →
  bolt.sequence (d fw) + 1 < 2 ^ 64 →
  0 < len text ≤ bolt.MaxKeySize →
  ∃ id d1 n,
    getId text fw inv d = (id, d1)
    ∧ id = uint64ToByte n
    ∧ bolt.Get (d1 fw) text = Some id
    ∧ bolt.Get (d1 inv) id = Some text
    ∧ IdTablesOk fw inv d1
    ∧ ∀ t, t ≠ fw → t ≠ inv → d1 t = d t.
Proof.
  intros Hne Hok Hroom Htext. unfold getId, getId_view.
  destruct (bolt.Get (d fw) text) as [id|] eqn:Hget.
  - destruct Hok as (Hseq & Hfw & Hinv & Hmap).
    destruct (Hmap _ _ Hget) as (n & _ & Hid & Hback).
    exists id, d, n. by repeat (split; [done|]).
  - destruct (getId_batch_fresh fw inv d text)
      as (id & d1 & Hb & Hid & H1 & H2 & H3); try done.
    exists id, d1, (bolt.sequence (d fw) + 1). rewrite Hb.
    repeat (split; [done|]). intros t Ht1 Ht2.
    pose proof (getId_batch_other text fw inv t d Ht1 Ht2) as Hother.
    by rewrite Hb in Hother.
Qed.

(** The state of the mapping tables after the first sighting of each of a
    list of texts, in turn. *)
Lemma getId_fold_state (fw inv : Table) (texts : list string) :
  fw ≠ inv → NoDup texts →
  Forall (λ text, 0 < len text ≤ bolt.MaxKeySize) texts →
  Z.of_nat (length texts) < 2 ^ 64 →
  let d := foldl (λ d text, (getId text fw inv d).2) emptyDB texts in
  IdTablesOk fw inv d
  ∧ bolt.sequence (d fw) = Z.of_nat (length texts)
  ∧ (∀ k text, texts !! k = Some text →
               bolt.Get (d fw) text = Some (uint64ToByte (Z.of_nat k + 1)))
  ∧ (∀ text, text ∉ texts → bolt.Get (d fw) text = None).
Proof.
  intros Hne. induction texts as [|text texts IH] using rev_ind;
    intros Hnodup Hvalid Hlen.
  - simpl. split; [apply emptyDB_IdTablesOk|]. by repeat split.
  - apply NoDup_app in Hnodup as (Hnodup & Hfresh & _).
    apply Forall_app in Hvalid as [Hvalid Htext].
    apply Forall_inv in Htext.
    rewrite length_app in Hlen. simpl in Hlen.
    specialize (IH Hnodup Hvalid ltac:(lia)). cbn zeta in IH.
    destruct IH as (Hok & Hseq & Hold & Hnone).
    rewrite foldl_app. simpl.
    set (d := foldl (λ d text, (getId text fw inv d).2) emptyDB texts) in *.
    assert (Hnew : text ∉ texts).
    { intros Hin. apply (Hfresh text Hin). apply list_elem_of_singleton. done. }
    unfold getId, getId_view. rewrite (Hnone text Hnew).
    destruct (getId_batch_fresh fw inv d text Hne Hok ltac:(lia) Htext
                (Hnone text Hnew))
      as (id & d1 & Hb & Hid & H1 & H2 & H3).
    destruct (getId_batch_keeps fw inv d text Hne) as (_ & Hs & Hkeep).
    rewrite Hb in *. simpl in *.
    split; [done|]. split.
    { rewrite Hs, Hseq, Z.mod_small, length_app by lia. simpl. lia. }
    split.
    + intros k t Hk. apply lookup_app_Some in Hk as [Hk|[Hge Hk]].
      * rewrite Hkeep; [by apply Hold|].
        intros ->. apply Hnew. by eapply list_elem_of_lookup_2.
      * apply list_lookup_singleton_Some in Hk as [Hk <-].
        rewrite H1, Hid, Hseq. do 2 f_equal. lia.
    + intros t Ht. rewrite Hkeep.
      * apply Hnone. intros Hin. apply Ht. apply elem_of_app. by left.
      * intros ->. apply Ht. apply elem_of_app. right.
        by apply list_elem_of_singleton.
Qed.

(** X1.  Ids are handed out in the order of first sight, from 1: after
    [getId] has been called once for each of a list of distinct texts that
    the store accepts as keys, on empty tables, the text seen [k]-th (from
    0) has the id [k + 1]; a further call for it returns this id and
    leaves the store as it is, and the inverse map resolves the id to the
    text. *)
Theorem getId_ids_in_order_of_first_sight (fw inv : Table) (texts : list string)
    (k : nat) (text : string) :
  fw ≠ inv → NoDup texts →
  Forall (λ text, 0 < len text ≤ bolt.MaxKeySize) texts →
  Z.of_nat (length texts) < 2 ^ 64 →
  texts !! k = Some text →
  let d := foldl (λ d text, (getId text fw inv d).2) emptyDB texts in
  getId text fw inv d = (uint64ToByte (Z.of_nat k + 1), d)
  ∧ bolt.Get (d inv) (uint64ToByte (Z.of_nat k + 1)) = Some text.
Proof.
  intros Hne Hnodup Hvalid Hlen Hk d.
  destruct (getId_fold_state fw inv texts) as (Hok & _ & Hids & _); try done.
  fold d in Hok, Hids. specialize (Hids k text Hk).
  split.
  - unfold getId, getId_view. by rewrite Hids.
  - destruct Hok as (_ & _ & _ & Hmap).
    by destruct (Hmap _ _ Hids) as (n & _ & _ & Hback).
Qed.

(** X2.  An address that bolt refuses as a key (empty, or longer than
    [MaxKeySize]) is never registered: [getOrCreatePageId] draws the next
    number of the sequence for it, and [ContainsUrl] still answers no for
    it, as it answers for every address what it answered before. *)
Theorem ContainsUrl_false_after_refused_url (d : DB) (url : string) :
  ¬ (0 < len url ≤ bolt.MaxKeySize) →
  ContainsUrl url d = false →
  let '(id, d1) := getOrCreatePageId url d in
  id = uint64ToByte ((bolt.sequence (d UrlToPageId) + 1) mod 2 ^ 64)
  ∧ bolt.sequence (d1 UrlToPageId)
    = (bolt.sequence (d UrlToPageId) + 1) mod 2 ^ 64
  ∧ ∀ url', ContainsUrl url' d1 = ContainsUrl url' d.
Proof.
  intros Hkey Hno. unfold ContainsUrl in Hno.
  apply bool_decide_eq_false in Hno.
  assert (Hnone : bolt.Get (d UrlToPageId) url = None).
  { destruct (bolt.Get (d UrlToPageId) url); [|done]. by destruct Hno. }
  unfold getOrCreatePageId, getId, getId_view. rewrite Hnone.
  destruct (getId_batch_keeps UrlToPageId PageIdToUrl d url)
    as (Hid & Hseq & Hkeep); [done|].
  destruct (getId_batch url UrlToPageId PageIdToUrl d) as [id d1] eqn:Hb.
  simpl in *. split; [done|]. split; [done|].
  assert (Hget : ∀ url', bolt.Get (d1 UrlToPageId) url'
                         = bolt.Get (d UrlToPageId) url').
  { intros url'.
    destruct (decide (url' = url)) as [->|Hother]; [|by rewrite Hkeep].
    rewrite Hnone.
    unfold getId_batch, bolt.NextSequence in Hb. cbn zeta in Hb.
    injection Hb as _ <-.
    rewrite setBucket_ne, setBucket_eq by done.
    rewrite Put_refused by done. exact Hnone. }
  intros url'. unfold ContainsUrl. by rewrite Hget.
Qed.

End GetIdMore.

(** Two addresses on an empty store. *)
Lemma getId_ids_in_order_of_first_sight_witness :
  let d := foldl (λ d text, (getId text UrlToPageId PageIdToUrl d).2) emptyDB
             ["u1"; "u2"]%string in
  getId "u2" UrlToPageId PageIdToUrl d = (uint64ToByte (Z.of_nat 1 + 1), d)
  ∧ bolt.Get (d PageIdToUrl) (uint64ToByte (Z.of_nat 1 + 1)) = Some "u2"%string.
Proof.
  apply (getId_ids_in_order_of_first_sight UrlToPageId PageIdToUrl
           ["u1"; "u2"]%string 1 "u2").
  - done.
  - apply NoDup_cons. split; [|apply NoDup_singleton].
    intros Hin. apply list_elem_of_singleton in Hin. discriminate Hin.
  - repeat constructor; by vm_compute.
  - by vm_compute.
  - reflexivity.
Defined.

(** The empty address on an empty store. *)
Lemma ContainsUrl_false_after_refused_url_witness :
  let '(id, d1) := getOrCreatePageId EmptyString emptyDB in
  id = uint64ToByte ((bolt.sequence (emptyDB UrlToPageId) + 1) mod 2 ^ 64)
  ∧ bolt.sequence (d1 UrlToPageId)
    = (bolt.sequence (emptyDB UrlToPageId) + 1) mod 2 ^ 64
  ∧ ∀ url', ContainsUrl url' d1 = ContainsUrl url' emptyDB.
Proof.
  apply (ContainsUrl_false_after_refused_url emptyDB EmptyString).
  - intros [Hlt _]. vm_compute in Hlt. discriminate Hlt.
  - reflexivity.
Defined.

(** ** [setMaxTf], [getMaxTf], [updateForward] *)

Section ForwardMore.

Context `{Codec}.

(** X3.  [setMaxTf] and [getMaxTf] on a page id that bolt accepts as a
    key.  When the key of the page holds no nested bucket, [getMaxTf]
    decodes what [setMaxTf] has stored, whatever was stored before; when it
    holds one, [setMaxTf] changes nothing and [getMaxTf] decodes the nil
    slice.  In both cases the value read for another page stays. *)
Theorem getMaxTf_setMaxTf (d : DB) (pageId : bytes) (maxTf : Z) :
  0 < len pageId ≤ bolt.MaxKeySize →
  (bolt.sub (d ForwardTable) pageId = None →
   bolt.Get (setMaxTf pageId maxTf d ForwardTable) pageId
   = Some (intToByte maxTf)
   ∧ getMaxTf pageId (setMaxTf pageId maxTf d) = byteToInt (intToByte maxTf))
  ∧ (is_Some (bolt.sub (d ForwardTable) pageId) →
     (∀ t, setMaxTf pageId maxTf d t = d t)
     ∧ getMaxTf pageId (setMaxTf pageId maxTf d) = byteToInt EmptyString)
  ∧ (∀ other, other ≠ pageId →
              getMaxTf other (setMaxTf pageId maxTf d) = getMaxTf other d).
Proof.
  intros Hkey.
  assert (Hcheck : bolt.checkPut pageId (intToByte maxTf) = None).
  { apply checkPut_ok; [done | apply intToByte_value]. }
  split; [|split].
  - intros Hfree. unfold getMaxTf, setMaxTf. rewrite setBucket_eq.
    unfold bolt.Put. rewrite Hcheck. unfold bolt.sub in Hfree.
    destruct (bolt.pairs (d ForwardTable) !! pageId) as [[v|s]|]; try done.
    all: unfold bolt.Get; simpl; by rewrite lookup_insert_eq.
  - intros [s Hsub]. unfold bolt.sub in Hsub.
    assert (Hsame : (bolt.Put (d ForwardTable) pageId (intToByte maxTf)).1
                    = d ForwardTable).
    { unfold bolt.Put. rewrite Hcheck.
      by destruct (bolt.pairs (d ForwardTable) !! pageId) as [[v|s']|]. }
    split.
    + intros t. unfold setMaxTf. rewrite Hsame.
      destruct (decide (t = ForwardTable)) as [->|Hne].
      * by rewrite setBucket_eq.
      * by rewrite setBucket_ne.
    + unfold getMaxTf, setMaxTf. rewrite setBucket_eq, Hsame.
      unfold bolt.Get.
      by destruct (bolt.pairs (d ForwardTable) !! pageId) as [[v|s']|].
  - intros other Hother. unfold getMaxTf, setMaxTf. rewrite setBucket_eq.
    by rewrite Put_Get_ne.
Qed.

(** What the [Batch] of [updateForward] writes when the key of the page
    holds no plain value: the entry of the word in the bucket of the page,
    over what the bucket held for the word; the other entries of the page
    and the other pages stay. *)
Lemma updateForward_batch_writes (wordId pageId : bytes) (tf : Z) (d : DB) :
  0 < len pageId →
  0 < len wordId ≤ bolt.MaxKeySize →
  bolt.Get (d ForwardTable) pageId = None →
  ∃ d1,
    updateForward_batch wordId pageId tf ForwardTable d = Some d1
    ∧ forward d1 pageId wordId = Some (intToByte tf)
    ∧ bolt.Get (d1 ForwardTable) pageId = None
    ∧ (∀ other, other ≠ wordId → forward d1 pageId other = forward d pageId other)
    ∧ (∀ page w, page ≠ pageId → forward d1 page w = forward d page w)
    ∧ (∀ t, t ≠ ForwardTable → d1 t = d t).
Proof.
  intros Hpage Hword Hfree.
  assert (Hcheck : bolt.checkPut wordId (intToByte tf) = None).
  { apply checkPut_ok; [done | apply intToByte_value]. }
  unfold updateForward_batch, bolt.CreateBucketIfNotExists.
  rewrite decide_False by lia. unfold bolt.Get in Hfree.
  unfold forward, bolt.sub, bolt.Get.
  destruct (bolt.pairs (d ForwardTable) !! pageId) as [[v|s]|] eqn:Hkey;
    [done| |].
  all: eexists; split; [reflexivity|].
  all: rewrite setBucket_eq; unfold bolt.storeSub, bolt.SubPut; rewrite Hcheck;
    simpl; rewrite !lookup_insert_eq; simpl.
  all: split; [by rewrite lookup_insert_eq|]; split; [done|].
  all: split; [intros other Hother; rewrite lookup_insert_ne by done;
               by rewrite ?Hkey|].
  all: split; [intros page w Hne; by rewrite !lookup_insert_ne by done
              |intros t Hne; by rewrite setBucket_ne].
Qed.

(** X4.  [updateForward] run without interference, for a word that the
    store accepts as a key and a page whose key in the forward table holds
    no plain value: the frequency is stored under the id of the word in
    the bucket of the page; a second call for the same word and page
    overwrites it, and leaves the other words of the page and the other
    pages as they were. *)
Theorem updateForward_overwrites (d : DB) (word : string) (pageId : bytes)
    (tf tf' : Z) :
  IdTablesOk WordToWordId WordIdToWord d →
  bolt.sequence (d WordToWordId) + 1 < 2 ^ 64 →
  0 < len word ≤ bolt.MaxKeySize →
  0 < len pageId →
  bolt.Get (d ForwardTable) pageId = None →
  ∃ wordId d1 d2,
    updateForward word pageId tf ForwardTable d = Some d1
    ∧ bolt.Get (d1 WordToWordId) word = Some wordId
    ∧ forward d1 pageId wordId = Some (intToByte tf)
    ∧ updateForward word pageId tf' ForwardTable d1 = Some d2
    ∧ forward d2 pageId wordId = Some (intToByte tf')
    ∧ (∀ other, other ≠ wordId → forward d2 pageId other = forward d pageId other)
    ∧ (∀ page w, page ≠ pageId → forward d2 page w = forward d page w).
Proof.
  intros Hok Hroom Hword Hpage Hfree.
  destruct (getId_resolves WordToWordId WordIdToWord d word)
    as (wordId & d0 & n & Hid & Hn & Hfw & _ & _ & Hrest); try done.
  assert (Hkey : 0 < len wordId ≤ bolt.MaxKeySize).
  { rewrite Hn. apply uint64ToByte_key. }
  assert (Hfree0 : bolt.Get (d0 ForwardTable) pageId = None).
  { by rewrite Hrest. }
  destruct (updateForward_batch_writes wordId pageId tf d0)
    as (d1 & Hb1 & Hw1 & Hfree1 & Ho1 & Hp1 & Ht1); try done.
  destruct (updateForward_batch_writes wordId pageId tf' d1)
    as (d2 & Hb2 & Hw2 & _ & Ho2 & Hp2 & _); try done.
  assert (Hfw1 : bolt.Get (d1 WordToWordId) word = Some wordId).
  { by rewrite Ht1. }
  assert (Hsame : ∀ page w, forward d0 page w = forward d page w).
  { intros page w. unfold forward. by rewrite Hrest. }
  exists wordId, d1, d2.
  split. { unfold updateForward, getOrCreateWordId. by rewrite Hid. }
  split; [done|]. split; [done|].
  split.
  { unfold updateForward, getOrCreateWordId, getId, getId_view.
    by rewrite Hfw1. }
  split; [done|]. split.
  - intros other Hother. by rewrite Ho2, Ho1, Hsame.
  - intros page w Hne. by rewrite Hp2, Hp1, Hsame.
Qed.

End ForwardMore.

(** A page id of one byte whose key is free. *)
Lemma getMaxTf_setMaxTf_witness :
  (bolt.sub (emptyDB ForwardTable) "p" = None →
   bolt.Get (setMaxTf "p" 3 emptyDB ForwardTable) "p" = Some (intToByte 3)
   ∧ getMaxTf "p" (setMaxTf "p" 3 emptyDB) = byteToInt (intToByte 3))
  ∧ (is_Some (bolt.sub (emptyDB ForwardTable) "p") →
     (∀ t, setMaxTf "p" 3 emptyDB t = emptyDB t)
     ∧ getMaxTf "p" (setMaxTf "p" 3 emptyDB) = byteToInt EmptyString)
  ∧ (∀ other, other ≠ "p"%string →
              getMaxTf other (setMaxTf "p" 3 emptyDB) = getMaxTf other emptyDB).
Proof.
  apply (getMaxTf_setMaxTf emptyDB "p" 3).
  split; [reflexivity | by vm_compute].
Defined.

(** The word [a] of the page [p], first with frequency 1, then with 4. *)
Lemma updateForward_overwrites_witness :
  ∃ wordId d1 d2,
    updateForward "a" "p" 1 ForwardTable emptyDB = Some d1
    ∧ bolt.Get (d1 WordToWordId) "a" = Some wordId
    ∧ forward d1 "p" wordId = Some (intToByte 1)
    ∧ updateForward "a" "p" 4 ForwardTable d1 = Some d2
    ∧ forward d2 "p" wordId = Some (intToByte 4)
    ∧ (∀ other, other ≠ wordId →
                forward d2 "p" other = forward emptyDB "p" other)
    ∧ (∀ page w, page ≠ "p"%string → forward d2 page w = forward emptyDB page w).
Proof.
  apply (updateForward_overwrites emptyDB "a" "p" 1 4).
  - apply emptyDB_IdTablesOk.
  - reflexivity.
  - split; [reflexivity | by vm_compute].
  - reflexivity.
  - reflexivity.
Defined.

(** ** [UpdateOrAddPage] under every schedule *)

Ltac main_cases c Hstep :=
  unfold AddPage.stepMain in Hstep;
  destruct (AddPage.at_pc c) as [| |[|[? ?] ?]|? ?| | | |] eqn:?;
  repeat match type of Hstep with
         | context [getId_view ?w ?t ?d] => destruct (getId_view w t d) eqn:?
         | context [getId_batch ?w ?t ?t' ?d] =>
             destruct (getId_batch w t t' d) eqn:?
         | context [decide ?P] => destruct (decide P)
         end;
  try done; injection Hstep as <-.

Lemma staged_updateInverted_locked (w pg w' : Z) (i : Indexer) :
  dom (staged (updateInverted_locked w pg i) w')
  = if decide (w' = w) then {[pg]} ∪ dom (staged i w) else dom (staged i w').
Proof.
  unfold staged, updateInverted_locked.
  destruct (default ∅ (tempInverted i) !! w) as [postingList|] eqn:Hw; simpl.
  all: case_decide as Heq; [subst w'|].
  all: rewrite ?lookup_insert_eq, ?lookup_insert_ne by done; simpl; try done.
  all: rewrite dom_insert_L, ?Hw; simpl; by rewrite ?dom_empty_L.
Qed.

Lemma staged_tempInverted (i i' : Indexer) (w : Z) :
  tempInverted i' = tempInverted i → staged i' w = staged i w.
Proof. unfold staged. by intros ->. Qed.

Section EverySchedule.

Context `{Codec}.
Variable p : Document.
Variable order : list (string * Z).

(** X5.  [UpdateOrAddPage] never writes to the persisted inverted index:
    under every schedule and at every point of the call the inverted table
    is the one the call found.  The posting lists reach the store in
    [FlushInverted] only. *)
Theorem UpdateOrAddPage_leaves_inverted_table (schedule : list nat)
    (i : Indexer) (c : AddPage.config) :
  AddPage.UpdateOrAddPage p order schedule i = AddPage.Running c →
  db (AddPage.ix c) InvertedTable = db i InvertedTable.
Proof.
  unfold AddPage.UpdateOrAddPage, AddPage.start.
  apply (AddPage_run_invariant p order
           (λ c, db (AddPage.ix c) InvertedTable = db i InvertedTable));
    [|done].
  intros who c1 c2 Hinv Hstep. destruct who as [|k]; simpl in Hstep.
  - apply stepMain_frame in Hstep as (_ & _ & Hsame).
    by rewrite Hsame.
  - destruct (AddPage.goroutines c1 !! k) as [g|]; [|done]. simpl in Hstep.
    apply stepGoroutine_frame in Hstep as (_ & _ & _ & Hsame).
    by rewrite Hsame.
Qed.

Lemma StagesOwnPage_step (i : Indexer) (who : nat) (c c' : AddPage.config) :
  StagesOwnPage i c →
  AddPage.step p order who c = Some (AddPage.Running c') →
  StagesOwnPage i c'.
Proof.
  intros (Hgs & Hkeep & Hown) Hstep. destruct who as [|k]; simpl in Hstep.
  - assert (Hst : ∀ w, staged (AddPage.ix c') w = staged (AddPage.ix c) w).
    { intros w. apply staged_tempInverted.
      by apply stepMain_frame in Hstep as (Htemp & _). }
    unfold StagesOwnPage. setoid_rewrite Hst. clear Hst.
    main_cases c Hstep; simpl; (split; [done|]); (split; [done|]);
      intros w pg Hpg; destruct (Hown w pg Hpg) as [Hold|[[H1 H2] Hnew]];
      try (by left); try done.
    all: right; by repeat split.
  - destruct (AddPage.goroutines c !! k) as [g|] eqn:Hk; [|done].
    simpl in Hstep.
    assert (Hin : entered (AddPage.at_pc c)).
    { split; intros Hpc; rewrite Hpc in Hgs; by rewrite Hgs in Hk. }
    destruct (stepGoroutine_frame k g c c' Hstep) as (Hpc & Hpage & _ & _).
    unfold StagesOwnPage. rewrite Hpc, Hpage.
    split. { destruct Hin as [H1 H2]. by destruct (AddPage.at_pc c). }
    destruct (stepGoroutine_staging k g c c' Hstep)
      as [[Htemp _]|(wordId & _ & ->)].
    + setoid_rewrite (staged_tempInverted (AddPage.ix c) (AddPage.ix c'));
        done.
    + setoid_rewrite staged_updateInverted_locked. split.
      * intros w. case_decide; [subst w|done].
        specialize (Hkeep (byteToUint64 wordId)). set_solver.
      * intros w pg. case_decide; [subst w|apply Hown].
        rewrite elem_of_union, elem_of_singleton. intros [->|Hpg].
        -- by right.
        -- by apply Hown.
Qed.

(** X6.  Under every schedule and at every point of [UpdateOrAddPage], the
    staging structure holds every page id it held for a word id when the
    call began, and a page id it has gained is the one of the page of the
    call. *)
Theorem UpdateOrAddPage_stages_own_page_only (schedule : list nat)
    (i : Indexer) (c : AddPage.config) :
  AddPage.UpdateOrAddPage p order schedule i = AddPage.Running c →
  (∀ w, dom (staged i w) ⊆ dom (staged (AddPage.ix c) w))
  ∧ ∀ w pg, pg ∈ dom (staged (AddPage.ix c) w) →
            pg ∈ dom (staged i w) ∨ pg = byteToUint64 (AddPage.pageId c).
Proof.
  unfold AddPage.UpdateOrAddPage, AddPage.start. intros Hrun.
  apply (AddPage_run_invariant p order (StagesOwnPage i)) in Hrun.
  - destruct Hrun as (_ & Hkeep & Hown). split; [done|].
    intros w pg Hpg. destruct (Hown w pg Hpg) as [?|[_ ?]]; [by left | by right].
  - intros who c1 c2. apply StagesOwnPage_step.
  - split; [done|]. split; [done|]. intros w pg Hpg. by left.
Qed.

(** The [Batch] of [getId] registers a text that the store accepts as a
    key, in a table of plain pairs. *)
Lemma getId_batch_registers (fw inv : Table) (d : DB) (text : string) :
  fw ≠ inv → Flat (d fw) → 0 < len text ≤ bolt.MaxKeySize →
  bolt.Get ((getId_batch text fw inv d).2 fw) text
  = Some (getId_batch text fw inv d).1.
Proof.
  intros Hne Hflat Htext. pose proof MaxKeySize_MaxValueSize as Hsz.
  unfold getId_batch, bolt.NextSequence. cbn zeta. simpl.
  rewrite setBucket_ne by done. rewrite setBucket_eq.
  set (n := (bolt.sequence (d fw) + 1) mod 2 ^ 64).
  pose proof (uint64ToByte_key n) as Hid.
  rewrite Put_flat; [| apply checkPut_ok; lia | done].
  simpl. rewrite Get_insert_Leaf. by rewrite decide_True.
Qed.

Lemma UrlKnown_step (i : Indexer) (who : nat) (c c' : AddPage.config) :
  Flat (db i UrlToPageId) → 0 < len (Uri p) ≤ bolt.MaxKeySize →
  UrlKnown p i c →
  AddPage.step p order who c = Some (AddPage.Running c') →
  UrlKnown p i c'.
Proof.
  intros Hflat Huri Hinv Hstep. unfold UrlKnown in *.
  destruct who as [|k]; simpl in Hstep.
  - main_cases c Hstep; simpl; try done.
    destruct Hinv as [_ Hdb].
    match goal with
    | Hb : getId_batch _ _ _ _ = _ |- _ =>
        pose proof (getId_batch_registers UrlToPageId PageIdToUrl
                      (db (AddPage.ix c)) (Uri p)) as Hreg;
        rewrite Hb in Hreg; simpl in Hreg
    end.
    apply Hreg; [done| by rewrite Hdb | done].
  - destruct (AddPage.goroutines c !! k) as [g|] eqn:Hk; [|done].
    simpl in Hstep.
    destruct (stepGoroutine_frame k g c c' Hstep) as (Hpc & Hpage & _ & Hsame).
    rewrite Hpc, Hpage, Hsame by done.
    destruct (AddPage.at_pc c); try done.
    all: destruct Hinv as [Hgs _]; by rewrite Hgs in Hk.
Qed.

(** X7.  When the address of the page is one that the store accepts as a
    key and the table of addresses holds plain pairs only, then under
    every schedule, from the moment the caller has its page id, the
    address is registered under that id and [ContainsUrl] answers yes for
    it. *)
Theorem UpdateOrAddPage_registers_url (schedule : list nat) (i : Indexer)
    (c : AddPage.config) :
  Flat (db i UrlToPageId) → 0 < len (Uri p) ≤ bolt.MaxKeySize →
  AddPage.UpdateOrAddPage p order schedule i = AddPage.Running c →
  entered (AddPage.at_pc c) →
  bolt.Get (db (AddPage.ix c) UrlToPageId) (Uri p) = Some (AddPage.pageId c)
  ∧ ContainsUrl (Uri p) (db (AddPage.ix c)) = true.
Proof.
  unfold AddPage.UpdateOrAddPage, AddPage.start. intros Hflat Huri Hrun [H1 H2].
  apply (AddPage_run_invariant p order (UrlKnown p i)) in Hrun.
  - unfold UrlKnown in Hrun.
    assert (Hget : bolt.Get (db (AddPage.ix c) UrlToPageId) (Uri p)
                   = Some (AddPage.pageId c)).
    { by destruct (AddPage.at_pc c). }
    split; [done|]. unfold ContainsUrl. rewrite Hget.
    by apply bool_decide_eq_true.
  - intros who c1 c2. by apply UrlKnown_step.
  - done.
Qed.

End EverySchedule.

Lemma Flat_emptyBucket : Flat bolt.emptyBucket.
Proof. intros k s. simpl. by rewrite lookup_empty. Qed.

Lemma NoLeaf_emptyBucket : NoLeaf bolt.emptyBucket.
Proof. intros k s. simpl. by rewrite lookup_empty. Qed.

(** [Put] of an accepted pair on a key that holds no nested bucket. *)
Lemma Put_Get_eq (b : bolt.Bucket) (key value : bytes) :
  bolt.checkPut key value = None → bolt.sub b key = None →
  bolt.Get (bolt.Put b key value).1 key = Some value.
Proof.
  intros Hcheck Hfree. unfold bolt.Put. rewrite Hcheck.
  unfold bolt.sub in Hfree.
  destruct (bolt.pairs b !! key) as [[v|s]|]; try done.
  all: unfold bolt.Get; simpl; by rewrite lookup_insert_eq.
Qed.

Lemma Flat_sub (b : bolt.Bucket) (key : bytes) : Flat b → bolt.sub b key = None.
Proof.
  intros Hflat. unfold bolt.sub.
  destruct (bolt.pairs b !! key) as [[v|s]|] eqn:Hk; try done.
  by destruct (Hflat key s).
Qed.

Section PageRecordProofs.

Context `{Codec}.
Variable p : Document.
Variable order : list (string * Z).

Lemma PageIdOk_step (i : Indexer) (who : nat) (c c' : AddPage.config) :
  IdTablesOk UrlToPageId PageIdToUrl (db i) →
  PageIdOk i c →
  AddPage.step p order who c = Some (AddPage.Running c') →
  PageIdOk i c'.
Proof.
  intros (_ & _ & _ & Hmap) Hinv Hstep. unfold PageIdOk in *.
  destruct who as [|k]; simpl in Hstep.
  - main_cases c Hstep; simpl; try done.
    + destruct Hinv as [_ Hdb].
      match goal with
      | Hv : getId_view _ _ _ = Some _ |- _ =>
          unfold getId_view in Hv; rewrite Hdb in Hv;
          destruct (Hmap _ _ Hv) as (n & _ & Hn & _)
      end.
      by exists n.
    + match goal with
      | Hb : getId_batch _ _ _ _ = _ |- _ =>
          destruct (getId_batch_keeps UrlToPageId PageIdToUrl
                      (db (AddPage.ix c)) (Uri p)) as (Hid & _); [done|];
          rewrite Hb in Hid; simpl in Hid
      end.
      by eexists.
  - destruct (AddPage.goroutines c !! k) as [g|] eqn:Hk; [|done].
    simpl in Hstep.
    destruct (stepGoroutine_frame k g c c' Hstep) as (Hpc & Hpage & _ & Hsame).
    rewrite Hpc, Hpage, Hsame by done.
    destruct (AddPage.at_pc c); try done.
    all: destruct Hinv as [Hgs _]; by rewrite Hgs in Hk.
Qed.

Lemma PageIdOk_key (i : Indexer) (c : AddPage.config) :
  PageIdOk i c → entered (AddPage.at_pc c) →
  0 < len (AddPage.pageId c) ≤ bolt.MaxKeySize.
Proof.
  unfold PageIdOk. intros Hinv [H1 H2].
  destruct (AddPage.at_pc c); try done.
  all: destruct Hinv as [n ->]; apply uint64ToByte_key.
Qed.

Lemma PageRecord_step (i : Indexer) (who : nat) (c c' : AddPage.config) :
  Flat (db i PageInfo) → len (jsonMarshal p) ≤ bolt.MaxValueSize →
  PageIdOk i c → PageRecord p i c →
  AddPage.step p order who c = Some (AddPage.Running c') →
  PageRecord p i c'.
Proof.
  intros Hflat Hsize Hid Hinv Hstep. unfold PageRecord in *.
  destruct who as [|k]; simpl in Hstep.
  - pose proof (PageIdOk_key i c Hid) as Hkey.
    main_cases c Hstep; simpl; try done.
    + match goal with
      | Hb : getId_batch ?w ?fw ?inv ?d = _ |- _ =>
          pose proof (getId_batch_other w fw inv PageInfo d) as Hother;
          rewrite Hb in Hother; simpl in Hother
      end.
      by rewrite Hother.
    + unfold putPageInfo. rewrite setBucket_eq, Hinv.
      rewrite Put_flat; [| apply checkPut_ok; [by apply Hkey | done] | done].
      simpl. split.
      * destruct (db i PageInfo). rewrite Get_insert_Leaf.
        by rewrite decide_True.
      * intros other Hother. destruct (db i PageInfo).
        rewrite Get_insert_Leaf. by rewrite decide_False.
  - destruct (AddPage.goroutines c !! k) as [g|] eqn:Hk; [|done].
    simpl in Hstep.
    destruct (stepGoroutine_frame k g c c' Hstep) as (Hpc & Hpage & _ & Hsame).
    rewrite Hpc, Hpage, Hsame by done. done.
Qed.

(** X8.  On a store whose page tables are in the state that [getId]
    maintains and whose table of page records holds plain pairs only, for
    a record that fits in a value: under every schedule, when
    [UpdateOrAddPage] has returned, the record of the page is stored under
    its page id, and the record of every other page id is the one the call
    found. *)
Theorem UpdateOrAddPage_stores_page_record (schedule : list nat) (i : Indexer)
    (c : AddPage.config) :
  IdTablesOk UrlToPageId PageIdToUrl (db i) →
  Flat (db i PageInfo) →
  len (jsonMarshal p) ≤ bolt.MaxValueSize →
  AddPage.UpdateOrAddPage p order schedule i = AddPage.Running c →
  AddPage.at_pc c = AddPage.Returned →
  bolt.Get (db (AddPage.ix c) PageInfo) (AddPage.pageId c) = Some (jsonMarshal p)
  ∧ ∀ other, other ≠ AddPage.pageId c →
             bolt.Get (db (AddPage.ix c) PageInfo) other
             = bolt.Get (db i PageInfo) other.
Proof.
  unfold AddPage.UpdateOrAddPage, AddPage.start.
  intros Hok Hflat Hsize Hrun Hpc.
  apply (AddPage_run_invariant p order (λ c, PageIdOk i c ∧ PageRecord p i c))
    in Hrun.
  - destruct Hrun as [_ Hrec]. unfold PageRecord in Hrec.
    by rewrite Hpc in Hrec.
  - intros who c1 c2 [Hid Hrec] Hstep. split.
    + by eapply PageIdOk_step.
    + by eapply PageRecord_step.
  - done.
Qed.

Lemma MaxTfStored_step (i : Indexer) (who : nat) (c c' : AddPage.config) :
  MaxTfStored p i c →
  AddPage.step p [] who c = Some (AddPage.Running c') →
  MaxTfStored p i c'.
Proof.
  intros [Hgs Hinv] Hstep. unfold MaxTfStored in *.
  destruct who as [|k]; simpl in Hstep; [|by rewrite Hgs in Hstep].
  main_cases c Hstep; simpl; try done.
  all: split; [done|].
  all: try match goal with
           | Hb : getId_batch ?w ?fw ?inv ?d = _ |- _ =>
               pose proof (getId_batch_other w fw inv ForwardTable d) as Hother;
               rewrite Hb in Hother; simpl in Hother; by rewrite Hother
           end.
  all: unfold setMaxTf, putPageInfo;
    rewrite ?setBucket_eq, ?setBucket_ne by done; by rewrite ?Hinv.
Qed.

(** X9.  For a page without terms, on page tables in the state that
    [getId] maintains: under every schedule no goroutine is started, and
    when [UpdateOrAddPage] has returned and the key of the page in the
    forward table held no nested bucket, [getMaxTf] of the page decodes
    the [maxTf] that [setMaxTf] encoded, stored as a plain value under the
    key of the page. *)
Theorem UpdateOrAddPage_without_terms_stores_maxTf (schedule : list nat)
    (i : Indexer) (c : AddPage.config) :
  Words p = ∅ → order ≡ₚ map_to_list (Words p) →
  IdTablesOk UrlToPageId PageIdToUrl (db i) →
  AddPage.UpdateOrAddPage p order schedule i = AddPage.Running c →
  AddPage.at_pc c = AddPage.Returned →
  bolt.sub (db i ForwardTable) (AddPage.pageId c) = None →
  AddPage.goroutines c = []
  ∧ bolt.Get (db (AddPage.ix c) ForwardTable) (AddPage.pageId c)
    = Some (intToByte (MaxTf p))
  ∧ getMaxTf (AddPage.pageId c) (db (AddPage.ix c))
    = byteToInt (intToByte (MaxTf p)).
Proof.
  intros Hwords Horder Hok Hrun Hpc Hfree.
  rewrite Hwords, map_to_list_empty in Horder.
  apply Permutation_nil_r in Horder.
  unfold AddPage.UpdateOrAddPage, AddPage.start in Hrun.
  pose proof Hrun as Hrun'. rewrite Horder in Hrun'.
  apply (AddPage_run_invariant p order (PageIdOk i)) in Hrun;
    [| intros who c1 c2; by apply PageIdOk_step | done].
  apply (AddPage_run_invariant p [] (MaxTfStored p i)) in Hrun';
    [| intros who c1 c2; by apply MaxTfStored_step | done].
  destruct Hrun' as [Hgs Hfw]. rewrite Hpc in Hfw.
  assert (Hkey : 0 < len (AddPage.pageId c) ≤ bolt.MaxKeySize).
  { apply (PageIdOk_key i c Hrun). rewrite Hpc. by split. }
  assert (Hget : bolt.Get (db (AddPage.ix c) ForwardTable) (AddPage.pageId c)
                 = Some (intToByte (MaxTf p))).
  { rewrite Hfw. apply Put_Get_eq; [|done].
    apply checkPut_ok; [done | apply intToByte_value]. }
  split; [done|]. split; [done|].
  unfold getMaxTf. by rewrite Hget.
Qed.

End PageRecordProofs.

(** ** Panics of [UpdateOrAddPage] *)

Section PanicProofs.

Context `{Codec}.

Lemma updateForward_batch_NoLeaf (wordId pageId : bytes) (tf : Z) (d d1 : DB) :
  NoLeaf (d ForwardTable) →
  updateForward_batch wordId pageId tf ForwardTable d = Some d1 →
  NoLeaf (d1 ForwardTable).
Proof.
  unfold updateForward_batch, bolt.CreateBucketIfNotExists. intros Hno.
  case_decide; [done|].
  destruct (bolt.pairs (d ForwardTable) !! pageId) as [[v|s]|] eqn:Hkey; try done.
  all: intros [= <-]; rewrite setBucket_eq; unfold bolt.storeSub; simpl.
  all: intros key v; simpl; rewrite lookup_insert; case_decide; [done|].
  all: rewrite ?lookup_insert_ne by done; apply Hno.
Qed.

Lemma updateForward_batch_ok (wordId pageId : bytes) (tf : Z) (d : DB) :
  0 < len pageId → NoLeaf (d ForwardTable) →
  is_Some (updateForward_batch wordId pageId tf ForwardTable d).
Proof.
  unfold updateForward_batch, bolt.CreateBucketIfNotExists. intros Hlen Hno.
  rewrite decide_False by lia.
  destruct (bolt.pairs (d ForwardTable) !! pageId) as [[v|s]|] eqn:Hkey; try done.
  by destruct (Hno pageId v).
Qed.

(** [updateForward] panics on a key that holds a plain value:
    [CreateBucketIfNotExists] fails and [set] is nil. *)
Lemma updateForward_batch_Leaf (wordId pageId : bytes) (tf : Z) (d : DB) :
  is_Some (bolt.Get (d ForwardTable) pageId) →
  updateForward_batch wordId pageId tf ForwardTable d = None.
Proof.
  unfold updateForward_batch, bolt.CreateBucketIfNotExists, bolt.Get.
  intros [v Hv]. case_decide; [done|].
  by destruct (bolt.pairs (d ForwardTable) !! pageId) as [[v'|s]|].
Qed.

(** A step of a goroutine changes the forward table in the [Batch] of
    [updateForward] only. *)
Lemma stepGoroutine_forward (k : nat) (g : AddPage.goroutine)
    (c c' : AddPage.config) :
  AddPage.stepGoroutine k g c = Some (AddPage.Running c') →
  db (AddPage.ix c') ForwardTable = db (AddPage.ix c) ForwardTable
  ∨ ∃ wordId tf,
      g = AddPage.Forward (AddPage.ForwardPut wordId tf)
      ∧ updateForward_batch wordId (AddPage.pageId c) tf ForwardTable
          (db (AddPage.ix c))
        = Some (db (AddPage.ix c')).
Proof.
  intros Hstep. goroutine_cases g Hstep; simpl;
    rewrite ?updateInverted_locked_db; rewrite ?setBucket_ne by done;
    try (by left).
  right. by eexists _, _.
Qed.

Lemma stepMain_no_panic (p : Document) (order : list (string * Z))
    (c : AddPage.config) :
  AddPage.stepMain p order c ≠ Some AddPage.Crashed.
Proof.
  unfold AddPage.stepMain.
  destruct (AddPage.at_pc c) as [| |[|[w t] rest]|t rest| | | |]; try done.
  - by destruct (getId_view (Uri p) UrlToPageId (db (AddPage.ix c))).
  - by case_decide.
Qed.

(** The only step of a goroutine that can panic is the [Batch] of
    [updateForward]. *)
Lemma stepGoroutine_panic (k : nat) (g : AddPage.goroutine) (c : AddPage.config) :
  AddPage.stepGoroutine k g c = Some AddPage.Crashed →
  ∃ wordId tf,
    g = AddPage.Forward (AddPage.ForwardPut wordId tf)
    ∧ updateForward_batch wordId (AddPage.pageId c) tf ForwardTable
        (db (AddPage.ix c)) = None.
Proof.
  destruct g as [[]|[]]; simpl; try done.
  all: repeat match goal with
         | |- context [getId_view ?w ?t ?d] => destruct (getId_view w t d)
         | |- context [getId_batch ?w ?t ?t' ?d] =>
             destruct (getId_batch w t t' d)
         end; try done.
  destruct (updateForward_batch _ _ _ _ _) eqn:Hb; [done|].
  intros _. by eexists _, _.
Qed.

(** A run from a configuration of a set that every step keeps and in
    which no step panics does not panic. *)
Lemma AddPage_run_safe (p : Document) (order : list (string * Z))
    (P : AddPage.config → Prop) (schedule : list nat) (c : AddPage.config) :
  (∀ who c1 c2, P c1 → AddPage.step p order who c1 = Some (AddPage.Running c2) →
                P c2) →
  (∀ who c1, P c1 → AddPage.step p order who c1 ≠ Some AddPage.Crashed) →
  P c →
  AddPage.run p order schedule (AddPage.Running c) ≠ AddPage.Crashed.
Proof.
  intros Hkeep Hsafe. revert c.
  induction schedule as [|who schedule IH]; intros c Hc; [done|]. simpl.
  destruct (AddPage.step p order who c) as [[c1|]|] eqn:Hwho.
  - apply IH. by eapply Hkeep.
  - by destruct (Hsafe who c Hc).
  - by apply IH.
Qed.

Lemma pastBarrier_not_entered (a : AddPage.pc) : pastBarrier a → entered a.
Proof. intros [-> | [-> | ->]]; by split. Qed.

Lemma Barrier_entered (order : list (string * Z)) (c : AddPage.config)
    (k : nat) (g : AddPage.goroutine) :
  Barrier order c → AddPage.goroutines c !! k = Some g →
  entered (AddPage.at_pc c).
Proof.
  unfold Barrier. intros Hbar Hk.
  split; intros Hpc; rewrite Hpc in Hbar; by rewrite Hbar in Hk.
Qed.

Lemma Barrier_past (order : list (string * Z)) (c : AddPage.config) :
  Barrier order c → pastBarrier (AddPage.at_pc c) →
  Forall (λ g, AddPage.exited g = true) (AddPage.goroutines c).
Proof.
  unfold Barrier. intros Hbar [Hpc|[Hpc|Hpc]]; rewrite Hpc in Hbar;
    destruct Hbar as [Hz _]; by apply pending_zero.
Qed.

Variable p : Document.
Variable order : list (string * Z).
Hypothesis order_Words : order ≡ₚ map_to_list (Words p).

Lemma Safe_step (i : Indexer) (who : nat) (c c' : AddPage.config) :
  IdTablesOk UrlToPageId PageIdToUrl (db i) →
  Safe order i c →
  AddPage.step p order who c = Some (AddPage.Running c') →
  Safe order i c'.
Proof using order_Words.
  intros Hok (Hbar & Hid & Hfw) Hstep.
  split; [by eapply Barrier_step|]. split; [by eapply PageIdOk_step|].
  destruct who as [|k]; simpl in Hstep.
  - main_cases c Hstep; simpl;
      first [ left; unfold pastBarrier; by eauto
            | right; destruct Hfw as [[?|[?|?]]|Hfw]; try done ].
    match goal with
    | Hb : getId_batch ?w ?fw ?inv ?d = _ |- _ =>
        pose proof (getId_batch_other w fw inv ForwardTable d) as Hother;
        rewrite Hb in Hother; simpl in Hother; by rewrite Hother
    end.
  - destruct (AddPage.goroutines c !! k) as [g|] eqn:Hk; [|done].
    simpl in Hstep.
    destruct (stepGoroutine_frame k g c c' Hstep) as (Hpc & _).
    rewrite Hpc. destruct Hfw as [Hpast|Hno]; [by left|]. right.
    destruct (stepGoroutine_forward k g c c' Hstep)
      as [->|(wordId & tf & _ & Hb)]; [done|].
    by eapply updateForward_batch_NoLeaf.
Qed.

Lemma Safe_no_panic (i : Indexer) (who : nat) (c : AddPage.config) :
  Safe order i c → AddPage.step p order who c ≠ Some AddPage.Crashed.
Proof.
  intros (Hbar & Hid & Hfw). destruct who as [|k]; simpl.
  - apply stepMain_no_panic.
  - destruct (AddPage.goroutines c !! k) as [g|] eqn:Hk; [|done]. simpl.
    intros (wordId & tf & -> & Hnone)%stepGoroutine_panic.
    destruct Hfw as [Hpast|Hno].
    + pose proof (Barrier_past order c Hbar Hpast) as Hall.
      rewrite Forall_lookup in Hall. by specialize (Hall k _ Hk).
    + assert (Hkey : 0 < len (AddPage.pageId c) ≤ bolt.MaxKeySize).
      { apply (PageIdOk_key i c Hid). by eapply Barrier_entered. }
      destruct (updateForward_batch_ok wordId (AddPage.pageId c) tf
                  (db (AddPage.ix c))) as [d1 Hd1]; [lia|done|].
      congruence.
Qed.

(** X10.  On page tables in the state that [getId] maintains and a
    forward table that holds nested buckets only, [UpdateOrAddPage] does
    not panic, under any schedule. *)
Theorem UpdateOrAddPage_no_panic (schedule : list nat) (i : Indexer) :
  IdTablesOk UrlToPageId PageIdToUrl (db i) →
  NoLeaf (db i ForwardTable) →
  AddPage.UpdateOrAddPage p order schedule i ≠ AddPage.Crashed.
Proof using order_Words.
  intros Hok Hno. unfold AddPage.UpdateOrAddPage, AddPage.start.
  apply (AddPage_run_safe p order (Safe order i)).
  - intros who c1 c2. by apply Safe_step.
  - intros who c1. apply Safe_no_panic.
  - split; [done|]. split; [done|]. by right.
Qed.


End PanicProofs.

Lemma AddPage_run_step `{Codec} (p : Document) (order : list (string * Z))
    (who : nat) (schedule : list nat) (c : AddPage.config) (s : AddPage.state) :
  AddPage.step p order who c = Some s →
  AddPage.run p order (who :: schedule) (AddPage.Running c)
  = AddPage.run p order schedule s.
Proof. intros Hstep. simpl. by rewrite Hstep. Qed.

Section StuckProofs.

Context `{Codec}.
Variable p : Document.
Variable order : list (string * Z).
Hypothesis order_Words : order ≡ₚ map_to_list (Words p).
Hypothesis some_Words : Words p ≠ ∅.

Lemma order_nonempty : order ≠ [].
Proof using order_Words some_Words.
  intros Hnil. apply some_Words. apply map_size_empty_iff.
  by rewrite <- (order_length p order order_Words), Hnil.
Qed.

(** When all goroutines of the loop have exited, one of them has come
    back from [updateForward]. *)
Lemma forward_goroutine_exited (c : AddPage.config) :
  ForwardKey c →
  (length (AddPage.goroutines c) = 2 * length order)%nat →
  Forall (λ g, AddPage.exited g = true) (AddPage.goroutines c) →
  ∃ k g, AddPage.goroutines c !! k = Some g ∧ forwardWritten g.
Proof using order_Words some_Words.
  intros [_ Hkinds] Hlen Hall.
  pose proof order_nonempty as Hne.
  destruct (filter (λ g, isForward g = true) (AddPage.goroutines c))
    as [|g gs] eqn:Hf.
  { simpl in Hkinds. destruct order; [done|]. simpl in Hlen. lia. }
  assert (Hg : g ∈ filter (λ g, isForward g = true) (AddPage.goroutines c)).
  { rewrite Hf. by left. }
  apply list_elem_of_filter in Hg as [Hfw Hg].
  rewrite Forall_forall in Hall. pose proof (Hall g Hg) as Hex.
  apply list_elem_of_lookup in Hg as [k Hk]. exists k, g. split; [done|].
  destruct g as [a|a]; [done|]. destruct a; try done. by right.
Qed.

Lemma Stuck_step (id : bytes) (who : nat) (c c' : AddPage.config) :
  Stuck p order id c →
  AddPage.step p order who c = Some (AddPage.Running c') →
  Stuck p order id c'.
Proof using order_Words some_Words.
  intros (Hbar & Hkey & Hurl & Hleaf & Hnb & Hpage & Hnp) Hstep.
  assert (Hnot : ∀ k g, AddPage.goroutines c !! k = Some g → ¬ forwardWritten g).
  { intros k g Hk Hw. destruct Hkey as [Hkey _].
    destruct (Hkey k g Hk Hw) as [s Hs].
    rewrite (Hpage (Barrier_entered order c k g Hbar Hk)) in Hs.
    destruct Hleaf as [v Hv]. unfold bolt.sub in Hs. unfold bolt.Get in Hv.
    by destruct (bolt.pairs (db (AddPage.ix c) ForwardTable) !! id) as [[?|?]|]. }
  split; [by eapply Barrier_step|].
  destruct who as [|k]; simpl in Hstep.
  - split; [by eapply ForwardKey_stepMain|].
    main_cases c Hstep; simpl; unfold entered, pastBarrier in *.
    all: try (destruct Hnp; by eauto).
    all: try match goal with
             | Hv : getId_view _ _ _ = _ |- _ =>
                 unfold getId_view in Hv; rewrite Hurl in Hv
             end; try done.
    all: try by (repeat split; try done; try (by intros [?|[?|?]]);
                 try (intros _; apply Hpage; by split); congruence).
    (* the caller cannot pass wg.Wait() *)
    exfalso. unfold Barrier in Hbar.
    match goal with Hpc : AddPage.at_pc c = AddPage.Wait |- _ =>
      rewrite Hpc in Hbar end.
    destruct Hbar as [Hwg Hlen].
    destruct (forward_goroutine_exited c Hkey Hlen) as (k & g & Hk & Hw).
    { apply pending_zero. lia. }
    by apply (Hnot k g Hk).
  - destruct (AddPage.goroutines c !! k) as [g|] eqn:Hk; [|done].
    simpl in Hstep.
    split; [by eapply ForwardKey_stepGoroutine|].
    destruct (stepGoroutine_frame k g c c' Hstep) as (Hpc & Hpg & _ & Hsame).
    rewrite Hpc, Hpg, Hsame by done.
    repeat (split; [done|]).
    split; [|done].
    destruct (stepGoroutine_forward k g c c' Hstep)
      as [->|(wordId & tf & _ & Hb)]; [done|].
    rewrite updateForward_batch_Leaf in Hb; [done|].
    by rewrite (Hpage (Barrier_entered order c k g Hbar Hk)).
Qed.

(** The schedule that lets the loop start the goroutines of the first
    term and then runs the one of [updateForward]. *)
Lemma UpdateOrAddPage_panics (id : bytes) (i : Indexer) :
  bolt.Get (db i UrlToPageId) (Uri p) = Some id →
  is_Some (bolt.Get (db i ForwardTable) id) →
  AddPage.UpdateOrAddPage p order [0; 0; 0; 2; 2; 2; 2; 2]%nat i
  = AddPage.Crashed.
Proof using order_Words some_Words.
  intros Hurl Hleaf. pose proof order_nonempty as Hne.
  destruct order as [|[w t] rest] eqn:Horder; [done|].
  unfold AddPage.UpdateOrAddPage, AddPage.start.
  erewrite AddPage_run_step;
    [| simpl; unfold AddPage.stepMain; simpl; unfold getId_view;
       rewrite Hurl; reflexivity].
  do 2 (erewrite AddPage_run_step;
          [| simpl; unfold AddPage.stepMain; simpl; reflexivity]).
  do 2 (erewrite AddPage_run_step; [| simpl; reflexivity]).
  simpl AddPage.withGoroutine.
  destruct (getId_view w WordToWordId (db i)) as [wordId|] eqn:Hw.
  - erewrite AddPage_run_step; [| simpl; rewrite Hw; reflexivity].
    erewrite AddPage_run_step;
      [| simpl; rewrite updateForward_batch_Leaf by done; reflexivity].
    done.
  - erewrite AddPage_run_step; [| simpl; rewrite Hw; reflexivity].
    erewrite AddPage_run_step; [| simpl; reflexivity].
    erewrite AddPage_run_step;
      [| simpl; rewrite updateForward_batch_Leaf
           by (by rewrite !setBucket_ne); reflexivity].
    done.
Qed.

(** X12.  A page with terms whose address is registered under an id whose
    key in the forward table holds a plain value (as [setMaxTf] leaves it
    for a page that was added without terms): under no schedule does
    [UpdateOrAddPage] get past [wg.Wait()], so it never returns, and there
    is a schedule under which it panics, in [updateForward]. *)
Theorem UpdateOrAddPage_never_returns_on_plain_forward_key (id : bytes)
    (i : Indexer) :
  bolt.Get (db i UrlToPageId) (Uri p) = Some id →
  is_Some (bolt.Get (db i ForwardTable) id) →
  (∀ schedule c,
     AddPage.UpdateOrAddPage p order schedule i = AddPage.Running c →
     ¬ pastBarrier (AddPage.at_pc c))
  ∧ ∃ schedule, AddPage.UpdateOrAddPage p order schedule i = AddPage.Crashed.
Proof using order_Words some_Words.
  intros Hurl Hleaf. split; [|eexists; by eapply UpdateOrAddPage_panics].
  intros schedule c Hrun. unfold AddPage.UpdateOrAddPage, AddPage.start in Hrun.
  apply (AddPage_run_invariant p order (Stuck p order id)) in Hrun.
  - by destruct Hrun as (_ & _ & _ & _ & _ & _ & Hnp).
  - intros who c1 c2. apply Stuck_step.
  - split; [done|]. split; [by split|]. repeat (split; [done|]).
    split; [by intros [? _]|]. by intros [?|[?|?]].
Qed.

End StuckProofs.

(** ** Sample runs of the above *)

Lemma docNone_returns :
  ∃ c, AddPage.UpdateOrAddPage docNone [] (replicate 6 0%nat)
         (LoadIndexer emptyDB) = AddPage.Running c
       ∧ AddPage.at_pc c = AddPage.Returned.
Proof. vm_compute. eexists. split; reflexivity. Qed.

Lemma docSome_Words : [("a"%string, 1)] ≡ₚ map_to_list (Words docSome).
Proof. by vm_compute. Qed.

Lemma docAB_some_Words : Words docAB ≠ ∅.
Proof.
  intros Hempty. apply (f_equal size) in Hempty. vm_compute in Hempty.
  discriminate Hempty.
Qed.

Lemma docSome_some_Words : Words docSome ≠ ∅.
Proof.
  intros Hempty. apply (f_equal size) in Hempty. vm_compute in Hempty.
  discriminate Hempty.
Qed.

(** The page [docAB] on an empty store, under [lateAB]. *)
Lemma UpdateOrAddPage_leaves_inverted_table_witness :
  ∃ c, AddPage.UpdateOrAddPage docAB orderAB lateAB (LoadIndexer emptyDB)
       = AddPage.Running c
       ∧ db (AddPage.ix c) InvertedTable
         = db (LoadIndexer emptyDB) InvertedTable.
Proof.
  destruct lateAB_returns as (c & Hrun & _). exists c. split; [exact Hrun|].
  exact (UpdateOrAddPage_leaves_inverted_table docAB orderAB lateAB
           (LoadIndexer emptyDB) c Hrun).
Defined.

Lemma UpdateOrAddPage_stages_own_page_only_witness :
  ∃ c, AddPage.UpdateOrAddPage docAB orderAB lateAB (LoadIndexer emptyDB)
       = AddPage.Running c
       ∧ (∀ w, dom (staged (LoadIndexer emptyDB) w) ⊆ dom (staged (AddPage.ix c) w))
       ∧ ∀ w pg, pg ∈ dom (staged (AddPage.ix c) w) →
                 pg ∈ dom (staged (LoadIndexer emptyDB) w)
                 ∨ pg = byteToUint64 (AddPage.pageId c).
Proof.
  destruct lateAB_returns as (c & Hrun & _). exists c. split; [exact Hrun|].
  exact (UpdateOrAddPage_stages_own_page_only docAB orderAB lateAB
           (LoadIndexer emptyDB) c Hrun).
Defined.

Lemma UpdateOrAddPage_registers_url_witness :
  ∃ c, AddPage.UpdateOrAddPage docAB orderAB lateAB (LoadIndexer emptyDB)
       = AddPage.Running c
       ∧ bolt.Get (db (AddPage.ix c) UrlToPageId) (Uri docAB)
         = Some (AddPage.pageId c)
       ∧ ContainsUrl (Uri docAB) (db (AddPage.ix c)) = true.
Proof.
  destruct lateAB_returns as (c & Hrun & Hpc). exists c. split; [exact Hrun|].
  apply (UpdateOrAddPage_registers_url docAB orderAB lateAB
           (LoadIndexer emptyDB) c).
  - apply Flat_emptyBucket.
  - split; [reflexivity | by vm_compute].
  - exact Hrun.
  - rewrite Hpc. by split.
Defined.

Lemma UpdateOrAddPage_stores_page_record_witness :
  ∃ c, AddPage.UpdateOrAddPage docAB orderAB lateAB (LoadIndexer emptyDB)
       = AddPage.Running c
       ∧ bolt.Get (db (AddPage.ix c) PageInfo) (AddPage.pageId c)
         = Some (jsonMarshal docAB)
       ∧ ∀ other, other ≠ AddPage.pageId c →
                  bolt.Get (db (AddPage.ix c) PageInfo) other
                  = bolt.Get (db (LoadIndexer emptyDB) PageInfo) other.
Proof.
  destruct lateAB_returns as (c & Hrun & Hpc). exists c. split; [exact Hrun|].
  apply (UpdateOrAddPage_stores_page_record docAB orderAB lateAB
           (LoadIndexer emptyDB) c).
  - apply emptyDB_IdTablesOk.
  - apply Flat_emptyBucket.
  - by vm_compute.
  - exact Hrun.
  - exact Hpc.
Defined.

(** The page [docNone], which has no term, on an empty store. *)
Lemma UpdateOrAddPage_without_terms_stores_maxTf_witness :
  ∃ c, AddPage.UpdateOrAddPage docNone [] (replicate 6 0%nat)
         (LoadIndexer emptyDB) = AddPage.Running c
       ∧ MaxTf docNone = 5
       ∧ AddPage.goroutines c = []
       ∧ bolt.Get (db (AddPage.ix c) ForwardTable) (AddPage.pageId c)
         = Some (intToByte (MaxTf docNone))
       ∧ getMaxTf (AddPage.pageId c) (db (AddPage.ix c))
         = byteToInt (intToByte (MaxTf docNone)).
Proof.
  destruct docNone_returns as (c & Hrun & Hpc). exists c.
  split; [exact Hrun|]. split; [reflexivity|].
  apply (UpdateOrAddPage_without_terms_stores_maxTf docNone [] (replicate 6 0%nat)
           (LoadIndexer emptyDB) c).
  - reflexivity.
  - simpl. by rewrite map_to_list_empty.
  - apply emptyDB_IdTablesOk.
  - exact Hrun.
  - exact Hpc.
  - reflexivity.
Defined.

(** The page [docAB] on an empty store, under [raceAB]. *)
Lemma UpdateOrAddPage_no_panic_witness :
  NoLeaf (db (LoadIndexer emptyDB) ForwardTable)
  ∧ AddPage.UpdateOrAddPage docAB orderAB raceAB (LoadIndexer emptyDB)
    ≠ AddPage.Crashed.
Proof.
  split; [apply NoLeaf_emptyBucket|].
  apply (UpdateOrAddPage_no_panic docAB orderAB orderAB_Words raceAB
           (LoadIndexer emptyDB)).
  - apply emptyDB_IdTablesOk.
  - apply NoLeaf_emptyBucket.
Defined.


(** The address [u0] is added without terms, which leaves its [maxTf] as
    a plain value under the key of the page; then it is added with a
    term. *)
Lemma UpdateOrAddPage_never_returns_on_plain_forward_key_witness :
  let i := default (LoadIndexer emptyDB) (addPage docNone (LoadIndexer emptyDB)) in
  bolt.Get (db i UrlToPageId) (Uri docSome) = Some (uint64ToByte 1)
  ∧ bolt.Get (db i ForwardTable) (uint64ToByte 1) = Some (intToByte 5)
  ∧ (∀ schedule c,
       AddPage.UpdateOrAddPage docSome [("a"%string, 1)] schedule i
       = AddPage.Running c →
       ¬ pastBarrier (AddPage.at_pc c))
  ∧ ∃ schedule,
      AddPage.UpdateOrAddPage docSome [("a"%string, 1)] schedule i
      = AddPage.Crashed.
Proof.
  intros i. split; [by vm_compute|]. split; [by vm_compute|].
  apply (UpdateOrAddPage_never_returns_on_plain_forward_key docSome
           [("a"%string, 1)] docSome_Words docSome_some_Words
           (uint64ToByte 1) i).
  - by vm_compute.
  - exists (intToByte 5). by vm_compute.
Defined.

(** ** [splitToBigrams], [hasPhrase], [searchPhrase] *)

Lemma foldl_intersect_elem (first : list Z) (others : list (list Z)) (z : Z) :
  z ∈ foldl (λ docIDs docs, intersect docIDs docs) first others →
  z ∈ first ∧ ∀ l, l ∈ others → z ∈ l.
Proof.
  revert first. induction others as [|l others IH]; intros first; simpl.
  - intros Hz. split; [done|]. by intros l ?%elem_of_nil.
  - intros [[Hfirst Hl]%intersect_elem Hothers]%IH. split; [done|].
    intros l' [->|Hin]%elem_of_cons; [done | by apply Hothers].
Qed.

Lemma foldl_guarded_intersect_elem (first : list Z) (others : list (list Z))
    (z : Z) :
  z ∈ foldl (λ acc l, match acc with [] => [] | _ => intersect acc l end)
        first others →
  z ∈ first ∧ ∀ l, l ∈ others → z ∈ l.
Proof.
  revert first. induction others as [|l others IH]; intros first; simpl.
  - intros Hz. split; [done|]. by intros l ?%elem_of_nil.
  - intros [Hacc Hothers]%IH.
    assert (Hboth : z ∈ first ∧ z ∈ l).
    { destruct first as [|x first]; [by apply elem_of_nil in Hacc|].
      by apply intersect_elem. }
    destruct Hboth as [Hfirst Hl]. split; [done|].
    intros l' [->|Hin]%elem_of_cons; [done | by apply Hothers].
Qed.

Section RetrievalMore.

Context `{SortSlice}.

(** A page that [booleanFilter] returns is in the posting list of every
    term. *)
Lemma booleanFilter_elem (terms : list string) (viewer : Viewer) (z : Z)
    (term : string) :
  z ∈ booleanFilter terms viewer → term ∈ terms →
  z ∈ GetPostingList viewer term.
Proof.
  unfold booleanFilter. intros Hz Hterm.
  destruct (sort_Slice shorter (GetPostingList viewer <$> terms))
    as [|first others] eqn:Hsort; [by apply elem_of_nil in Hz|].
  apply foldl_guarded_intersect_elem in Hz as [Hfirst Hothers].
  assert (Hin : GetPostingList viewer term ∈ first :: others).
  { rewrite <- Hsort, sort_Slice_elem_of. by apply list_elem_of_fmap_2. }
  apply elem_of_cons in Hin as [->|Hin]; [done | by apply Hothers].
Qed.

(** X13.  [splitToBigrams] pairs each term of the query with the next
    one: a query of [n] terms gives [n - 1] bigrams (none for the empty
    query and for a query of one term), and the [i]-th bigram holds the
    [i]-th and the [i+1]-th term. *)
Theorem splitToBigrams_adjacent_terms (query : list string) :
  length (splitToBigrams query) = (length query - 1)%nat
  ∧ ∀ i bigram,
      splitToBigrams query !! i = Some bigram
      ↔ query !! i = Some (n1 bigram) ∧ query !! S i = Some (n2 bigram).
Proof.
  split; [apply splitToBigrams_length|].
  intros i [a b]. apply splitToBigrams_lookup.
Qed.

(** X14.  [hasPhrase] keeps candidates and keeps their order: its result
    is a subsequence of what [booleanFilter] returns for the two terms,
    and for every page it keeps, some offset of the first term is an
    offset of the second term moved back by one.  No order of the position
    lists is assumed. *)
Theorem hasPhrase_sound (bigram : Bigram) (viewer : Viewer) :
  hasPhrase bigram viewer `sublist_of` booleanFilter [n1 bigram; n2 bigram] viewer
  ∧ ∀ id, id ∈ hasPhrase bigram viewer → adjacent viewer bigram id.
Proof.
  rewrite hasPhrase_filter. split; [apply sublist_filter|].
  intros id [Hcommon _]%list_elem_of_filter. unfold adjacent.
  destruct (intersect _ _) as [|pos common] eqn:Heq; [simpl in Hcommon; lia|].
  exists pos. apply intersect_elem. rewrite Heq. by left.
Qed.

(** Each term of a query of two terms or more is in one of its
    bigrams. *)
Lemma splitToBigrams_covers (query : list string) (term : string) :
  (2 ≤ length query)%nat → term ∈ query →
  ∃ bigram, bigram ∈ splitToBigrams query
            ∧ (term = n1 bigram ∨ term = n2 bigram).
Proof.
  induction query as [|a [|b rest] IH]; simpl; [lia | lia |].
  intros _ [->|Hin]%elem_of_cons.
  - exists (mkBigram a b). split; [by left | by left].
  - destruct rest as [|c rest].
    + apply list_elem_of_singleton in Hin as ->.
      exists (mkBigram a b). split; [by left | by right].
    + destruct IH as (bigram & Hbg & Hterm); [simpl; lia | done |].
      exists bigram. split; [by right | done].
Qed.

(** X15.  Every page that [searchPhrase] returns is in the posting list
    of every term of the query, and for every two adjacent terms of the
    query some offset of the first one on the page is an offset of the
    second one moved back by one.  No order of the lists is assumed. *)
Theorem searchPhrase_sound (query : list string) (viewer : Viewer) (id : Z) :
  id ∈ searchPhrase query viewer →
  (∀ term, term ∈ query → id ∈ GetPostingList viewer term)
  ∧ ∀ bigram, bigram ∈ splitToBigrams query → adjacent viewer bigram id.
Proof.
  unfold searchPhrase. case_decide as Hlen.
  - intros Hid. split.
    + intros term. by apply booleanFilter_elem.
    + destruct query as [|a [|b rest]]; simpl in *; try lia.
      all: by intros bigram ?%elem_of_nil.
  - cbn zeta. rewrite collect_hasPhrase.
    destruct (sort_Slice shorter _) as [|first others] eqn:Hsort;
      [by intros ?%elem_of_nil|].
    rewrite app_nil_l. intros [Hfirst Hothers]%foldl_intersect_elem.
    assert (Hall : ∀ bigram, bigram ∈ splitToBigrams query →
                             id ∈ hasPhrase bigram viewer).
    { intros bigram Hbg.
      assert (Hin : hasPhrase bigram viewer ∈ first :: others).
      { rewrite <- Hsort, sort_Slice_elem_of.
        by apply (list_elem_of_fmap_2 (λ bigram, hasPhrase bigram viewer)). }
      apply elem_of_cons in Hin as [->|Hin]; [done | by apply Hothers]. }
    split.
    + intros term Hterm.
      destruct (splitToBigrams_covers query term) as (bigram & Hbg & Hor);
        [lia | done |].
      pose proof (Hall bigram Hbg) as Hhas.
      rewrite hasPhrase_filter in Hhas.
      apply list_elem_of_filter in Hhas as [_ Hcand].
      apply (booleanFilter_elem [n1 bigram; n2 bigram]); [done|].
      destruct Hor as [->| ->]; [by left | right; by left].
    + intros bigram Hbg. pose proof (Hall bigram Hbg) as Hhas.
      rewrite hasPhrase_filter in Hhas.
      apply list_elem_of_filter in Hhas as [Hcommon _]. unfold adjacent.
      destruct (intersect _ _) as [|pos common] eqn:Heq;
        [simpl in Hcommon; lia|].
      exists pos. apply intersect_elem. rewrite Heq. by left.
Qed.

End RetrievalMore.

(** The query [a b] over the page that reads [a b]. *)
Lemma searchPhrase_sound_witness :
  7 ∈ searchPhrase ["a"; "b"]%string pageAB
  ∧ (∀ term, term ∈ ["a"; "b"]%string → 7 ∈ GetPostingList pageAB term)
  ∧ ∀ bigram, bigram ∈ splitToBigrams ["a"; "b"]%string →
              adjacent pageAB bigram 7.
Proof.
  assert (Hid : 7 ∈ searchPhrase ["a"; "b"]%string pageAB).
  { vm_compute. by left. }
  split; [exact Hid|].
  exact (searchPhrase_sound ["a"; "b"]%string pageAB 7 Hid).
Defined.

(** ** [FlushInverted], [LoadIndexer], [DropAll] *)

Section FlushMore.

Context `{Codec} `{SortSlice}.

(** X16.  [FlushInverted] on a session that has staged nothing (as
    [LoadIndexer] leaves it) starts no task and opens no batch: under
    every schedule it does not panic and the indexer and the store are the
    ones it found; and it returns. *)
Theorem FlushInverted_nothing_staged (d : DB) (schedule : list Flush.pick) :
  (∃ c, Flush.FlushInverted schedule (LoadIndexer d) = Flush.Running c
        ∧ Flush.ix c = LoadIndexer d
        ∧ Flush.txn c = None
        ∧ Flush.tasks c = [])
  ∧ flush (LoadIndexer d) = Some (LoadIndexer d).
Proof.
  split.
  - unfold Flush.FlushInverted, Flush.start.
    enough (Hinv : ∀ c,
              Flush.ix c = LoadIndexer d → Flush.txn c = None →
              Flush.tasks c = [] →
              match Flush.at_pc c with
              | Flush.Range rest => rest = []
              | _ => True
              end →
              ∃ c', Flush.run schedule (Flush.Running c) = Flush.Running c'
                    ∧ Flush.ix c' = LoadIndexer d
                    ∧ Flush.txn c' = None
                    ∧ Flush.tasks c' = []).
    { by apply Hinv. }
    induction schedule as [|who schedule IH]; intros c Hix Htxn Hts Hpc.
    { by exists c. }
    simpl. destruct who as [|k|]; simpl.
    + unfold Flush.stepMain.
      destruct (Flush.at_pc c) as [| |rest| |] eqn:Hat.
      * apply IH; simpl; try done. rewrite Hix. simpl.
        by rewrite sort_Slice_nil.
      * rewrite Htxn. apply IH; simpl; try done. by rewrite Hix.
      * subst rest. apply IH; simpl; try done.
      * case_decide; apply IH; simpl; try done. by rewrite Hat.
      * apply IH; try done. by rewrite Hat.
    + unfold Flush.stepClosure. rewrite Hts, lookup_nil. by apply IH.
    + unfold Flush.stepCommit. rewrite Htxn. by apply IH.
  - unfold flush, Flush.FlushInverted, Flush.start. simpl.
    unfold Flush.stepMain. simpl. rewrite sort_Slice_nil. simpl.
    done.
Qed.

(** The pairs of a posting list after the loop of a closure: the marker
    under the key of each staged page, and what it held under every other
    key. *)
Lemma putAll_lookup (postingList : gmap Z bool) (wordSet : gmap string string) :
  (∀ docId, docId ∈ dom postingList →
            Flush.putAll postingList wordSet !! uint64ToByte docId = Some marker)
  ∧ (∀ key, (∀ docId, docId ∈ dom postingList → key ≠ uint64ToByte docId) →
            Flush.putAll postingList wordSet !! key = wordSet !! key).
Proof.
  unfold Flush.putAll.
  apply (map_fold_weak_ind
           (λ r m,
              (∀ docId, docId ∈ dom m → r !! uint64ToByte docId = Some marker)
              ∧ (∀ key, (∀ docId, docId ∈ dom m → key ≠ uint64ToByte docId) →
                        r !! key = wordSet !! key))).
  - split; [|done]. intros docId. rewrite dom_empty_L. set_solver.
  - intros docId b m r Hfresh [IHin IHout]. unfold bolt.SubPut.
    rewrite checkPut_ok by (apply uint64ToByte_key || apply marker_value).
    simpl. split.
    + intros pg Hpg. rewrite lookup_insert. case_decide; [done|].
      apply IHin. rewrite dom_insert_L in Hpg.
      apply elem_of_union in Hpg as [Hpg%elem_of_singleton|Hpg]; [|done].
      by subst pg.
    + intros key Hkey. rewrite lookup_insert_ne.
      * apply IHout. intros pg Hpg. apply Hkey. rewrite dom_insert_L.
        set_solver.
      * intros Heq. apply (Hkey docId); [|done]. rewrite dom_insert_L.
        set_solver.
Qed.

(** The loop of a closure run a second time on its own result changes
    nothing. *)
Lemma putAll_idempotent (postingList : gmap Z bool)
    (wordSet : gmap string string) :
  Flush.putAll postingList (Flush.putAll postingList wordSet)
  = Flush.putAll postingList wordSet.
Proof.
  apply map_eq. intros key.
  destruct (putAll_lookup postingList (Flush.putAll postingList wordSet))
    as [Hin Hout].
  destruct (decide (key ∈ (set_map uint64ToByte (dom postingList)
                           : gset string))) as [Hkey|Hkey].
  - apply elem_of_map in Hkey as (docId & -> & Hdoc).
    rewrite Hin by done.
    destruct (putAll_lookup postingList wordSet) as [Hin' _].
    by rewrite Hin'.
  - apply Hout. intros docId Hdoc ->. apply Hkey.
    apply elem_of_map. by exists docId.
Qed.

(** Under every schedule [FlushInverted] leaves the inverted table a
    table of nested buckets. *)
Lemma Flush_run_NoLeaf (schedule : list Flush.pick) (c c' : Flush.config) :
  NoLeaf (Flush.view c InvertedTable) →
  NoLeaf (db (Flush.ix c) InvertedTable) →
  Forall (λ t : option bytes, ∀ b, t = Some b → 0 < len b) (Flush.tasks c) →
  Flush.run schedule (Flush.Running c) = Flush.Running c' →
  NoLeaf (db (Flush.ix c') InvertedTable).
Proof.
  revert c. induction schedule as [|who schedule IH]; intros c Hno Hdb Hts.
  { by intros [= <-]. }
  simpl. destruct (Flush.step who c) as [s|] eqn:Hstep; [|by apply IH].
  destruct who as [|k|]; simpl in Hstep.
  - unfold Flush.stepMain in Hstep.
    destruct (Flush.at_pc c) as [| |[|x rest]| |]; try done;
      try case_decide; try done;
      try (destruct (Flush.txn c) eqn:Htxn; [done|]);
      injection Hstep as <-; apply IH; simpl; try done.
    all: try (unfold Flush.view in *; simpl in *; by rewrite ?Htxn in * ).
    apply Forall_app. split; [done|]. constructor; [|done].
    intros b [= <-]. apply uint64ToByte_key.
  - unfold Flush.stepClosure in Hstep.
    destruct (Flush.tasks c !! k) as [[idBytes|]|] eqn:Hk; try done.
    assert (Hlen : 0 < len idBytes).
    { rewrite Forall_forall in Hts. eapply Hts; [|done].
      by eapply list_elem_of_lookup_2. }
    destruct (merge_batch_NoLeaf idBytes (staged (Flush.ix c) (Flush.id c))
                (Flush.view c) Hlen Hno) as (d & Hd & Hno' & _).
    rewrite Hd in Hstep. injection Hstep as <-. apply IH; simpl; try done.
    apply Forall_insert; [done|]. by intros b.
  - unfold Flush.stepCommit in Hstep.
    destruct (Flush.txn c) as [d|] eqn:Htxn; [|done].
    injection Hstep as <-.
    assert (Hd : NoLeaf (d InvertedTable)).
    { unfold Flush.view in Hno. by rewrite Htxn in Hno. }
    by apply IH.
Qed.

(** [FlushInverted] without interference: the indexer it leaves. *)
Lemma FlushInverted_inOrder_result (i : Indexer) :
  NoLeaf (db i InvertedTable) → NoDup (wordIdList i) →
  Forall (λ w, 0 ≤ w < 2 ^ 64) (wordIdList i) →
  ∃ i',
    flush i = Some i'
    ∧ tempInverted i' = tempInverted i
    ∧ wordIdList i' = sort_Slice Z.ltb (wordIdList i)
    ∧ NoLeaf (db i' InvertedTable)
    ∧ (∀ w, w ∈ wordIdList i →
            posting (db i') w
            = Some (Flush.putAll (staged i w) (default ∅ (posting (db i) w))))
    ∧ (∀ key, (∀ w, w ∈ wordIdList i → key ≠ uint64ToByte w) →
              bolt.sub (db i' InvertedTable) key
              = bolt.sub (db i InvertedTable) key).
Proof.
  intros Hno Hnd Hrange.
  set (sorted := sort_Slice Z.ltb (wordIdList i)).
  assert (Hperm : sorted ≡ₚ wordIdList i) by apply sort_Slice_Permutation.
  assert (Hrun0 : ∃ c i',
            Flush.FlushInverted (Flush.inOrder (length (wordIdList i))) i
            = Flush.Running c
            ∧ Flush.at_pc c = Flush.Returned ∧ Flush.txn c = None
            ∧ Flush.ix c = i'
            ∧ tempInverted i' = tempInverted i
            ∧ wordIdList i' = sorted
            ∧ (∀ w, w ∈ sorted →
                    posting (db i') w
                    = Some (Flush.putAll (staged i w)
                              (default ∅ (posting (db i) w))))
            ∧ (∀ key, (∀ w, w ∈ sorted → key ≠ uint64ToByte w) →
                      bolt.sub (db i' InvertedTable) key
                      = bolt.sub (db i InvertedTable) key)).
  { unfold Flush.FlushInverted, Flush.start, Flush.inOrder.
    cbn [app Flush.run Flush.step]. unfold Flush.stepMain at 1.
    cbn [Flush.at_pc Flush.ix Flush.wg Flush.tasks Flush.id Flush.txn db
         tempInverted wordIdList].
    cbn [Flush.run Flush.step]. unfold Flush.stepMain at 1.
    cbn [Flush.at_pc Flush.ix Flush.wg Flush.tasks Flush.id Flush.txn db
         tempInverted wordIdList].
    fold sorted. rewrite Flush_run_app.
    replace (length (wordIdList i)) with (length sorted) by by rewrite Hperm.
    destruct (Flush_run_inOrderFrom sorted 0
                (mkIndexer (db i) (tempInverted i) sorted) 0)
      as (i' & id' & Hrun & Htemp & Hlist & Hpost & Hkeep).
    { done. }
    { by rewrite Hperm. }
    { by rewrite Hperm. }
    change (@nil (option bytes)) with (@replicate (option bytes) 0 None).
    rewrite Hrun. cbn [Flush.run Flush.step]. unfold Flush.stepMain at 1.
    cbn [Flush.at_pc Flush.withPc].
    cbn [Flush.run Flush.step]. unfold Flush.stepMain at 1.
    cbn [Flush.at_pc Flush.withPc Flush.wg]. rewrite decide_True by done.
    eexists _, i'. split; [reflexivity|]. by repeat (split; [done|]). }
  destruct Hrun0 as (c & i' & Hrun & Hpc & Htxn & Hix & Htemp & Hlist & Hpost
                     & Hkeep).
  exists i'. split.
  { unfold flush. rewrite Hrun. simpl. by rewrite Hpc, Htxn, Hix. }
  split; [done|]. split; [done|]. split.
  { rewrite <- Hix. revert Hrun. unfold Flush.FlushInverted, Flush.start.
    apply Flush_run_NoLeaf; simpl; [done | done | constructor]. }
  split.
  - intros w Hw. rewrite <- Hperm in Hw. by rewrite (Hpost w Hw).
  - intros key Hkey. apply Hkeep. intros w Hw. apply Hkey. by rewrite <- Hperm.
Qed.

(** X17.  Flushing again changes nothing: on an inverted table of nested
    buckets and a staging structure of distinct [uint64] word ids,
    [FlushInverted] run twice without interference leaves, the second
    time, every posting list of the inverted table as the first run left
    it.  The staging structure is not cleared by a flush, and the markers
    are written over themselves. *)
Theorem FlushInverted_again_changes_nothing (i : Indexer) :
  NoLeaf (db i InvertedTable) → NoDup (wordIdList i) →
  Forall (λ w, 0 ≤ w < 2 ^ 64) (wordIdList i) →
  ∃ i1 i2,
    flush i = Some i1
    ∧ flush i1 = Some i2
    ∧ tempInverted i2 = tempInverted i
    ∧ ∀ key, bolt.sub (db i2 InvertedTable) key
             = bolt.sub (db i1 InvertedTable) key.
Proof.
  intros Hno Hnd Hrange.
  destruct (FlushInverted_inOrder_result i Hno Hnd Hrange)
    as (i1 & Hflush1 & Htemp1 & Hlist1 & Hno1 & Hpost1 & Hkeep1).
  assert (Hperm : wordIdList i1 ≡ₚ wordIdList i).
  { rewrite Hlist1. apply sort_Slice_Permutation. }
  destruct (FlushInverted_inOrder_result i1)
    as (i2 & Hflush2 & Htemp2 & Hlist2 & Hno2 & Hpost2 & Hkeep2).
  { done. }
  { by rewrite Hperm. }
  { by rewrite Hperm. }
  exists i1, i2. split; [done|]. split; [done|].
  split; [by rewrite Htemp2|].
  intros key.
  destruct (decide (key ∈ uint64ToByte <$> wordIdList i1)) as [Hkey|Hkey].
  - apply list_elem_of_fmap in Hkey as (w & -> & Hw).
    pose proof (Hpost2 w Hw) as H2. unfold posting in H2. rewrite H2.
    rewrite Hperm in Hw. pose proof (Hpost1 w Hw) as H1.
    unfold posting in H1. rewrite H1. simpl.
    rewrite (staged_tempInverted i i1 w Htemp1).
    by rewrite putAll_idempotent.
  - apply Hkeep2. intros w Hw ->. apply Hkey. by apply list_elem_of_fmap_2.
Qed.

(** X18.  [DropAll] empties every table but leaves the staging structure
    of the session: no address is registered any more and the id
    sequences start again, yet what was staged is still staged, and the
    next [FlushInverted] (here without interference) writes to the emptied
    inverted table, for each staged word id, the posting list of exactly
    the page ids staged for it before the tables were dropped. *)
Theorem DropAll_keeps_staging (i : Indexer) :
  NoDup (wordIdList i) →
  Forall (λ w, 0 ≤ w < 2 ^ 64) (wordIdList i) →
  (∀ url, ContainsUrl url (db (DropAll i)) = false)
  ∧ (∀ t, bolt.sequence (db (DropAll i) t) = 0)
  ∧ (∀ w, staged (DropAll i) w = staged i w)
  ∧ wordIdList (DropAll i) = wordIdList i
  ∧ ∃ i',
      flush (DropAll i) = Some i'
      ∧ ∀ w, w ∈ wordIdList i →
             ∃ s, posting (db i') w = Some s
                  ∧ ∀ key, key ∈ dom s
                           ↔ ∃ pageId, pageId ∈ dom (staged i w)
                                       ∧ key = uint64ToByte pageId.
Proof.
  intros Hnd Hrange. repeat (split; [done|]).
  destruct (FlushInverted_inOrder_result (DropAll i))
    as (i' & Hflush & _ & _ & _ & Hpost & _);
    [apply NoLeaf_emptyBucket | done | done |].
  exists i'. split; [done|]. intros w Hw. rewrite (Hpost w Hw).
  eexists. split; [reflexivity|]. intros key.
  assert (Hempty : posting (db (DropAll i)) w = None).
  { unfold posting, bolt.sub. simpl. by rewrite lookup_empty. }
  rewrite putAll_dom_spec, Hempty. simpl. rewrite dom_empty_L.
  change (staged (DropAll i) w) with (staged i w). set_solver.
Qed.

End FlushMore.

(** The indexer [stagedTwoWords], flushed twice. *)
Lemma FlushInverted_again_changes_nothing_witness :
  ∃ i1 i2,
    flush stagedTwoWords = Some i1
    ∧ flush i1 = Some i2
    ∧ tempInverted i2 = tempInverted stagedTwoWords
    ∧ ∀ key, bolt.sub (db i2 InvertedTable) key
             = bolt.sub (db i1 InvertedTable) key.
Proof.
  apply (FlushInverted_again_changes_nothing stagedTwoWords).
  - apply NoLeaf_emptyBucket.
  - apply NoDup_cons. split; [|apply NoDup_singleton].
    intros Hin. apply list_elem_of_singleton in Hin. discriminate Hin.
  - repeat constructor; by vm_compute.
Defined.

(** The indexer [stagedTwoWords], whose tables are dropped. *)
Lemma DropAll_keeps_staging_witness :
  (∀ url, ContainsUrl url (db (DropAll stagedTwoWords)) = false)
  ∧ (∀ t, bolt.sequence (db (DropAll stagedTwoWords) t) = 0)
  ∧ (∀ w, staged (DropAll stagedTwoWords) w = staged stagedTwoWords w)
  ∧ wordIdList (DropAll stagedTwoWords) = wordIdList stagedTwoWords
  ∧ ∃ i',
      flush (DropAll stagedTwoWords) = Some i'
      ∧ ∀ w, w ∈ wordIdList stagedTwoWords →
             ∃ s, posting (db i') w = Some s
                  ∧ ∀ key, key ∈ dom s
                           ↔ ∃ pageId, pageId ∈ dom (staged stagedTwoWords w)
                                       ∧ key = uint64ToByte pageId.
Proof.
  apply (DropAll_keeps_staging stagedTwoWords).
  - apply NoDup_cons. split; [|apply NoDup_singleton].
    intros Hin. apply list_elem_of_singleton in Hin. discriminate Hin.
  - repeat constructor; by vm_compute.
Defined.

(** ** Sessions *)

Section SessionProofs.

Context `{Codec} `{SortSlice}.

Lemma AddPage_returned_Running (s : AddPage.state) (i' : Indexer) :
  AddPage.returned s = Some i' →
  ∃ c, s = AddPage.Running c ∧ AddPage.at_pc c = AddPage.Returned
       ∧ AddPage.ix c = i'.
Proof.
  destruct s as [c|]; [|done]. simpl.
  destruct (AddPage.at_pc c) eqn:Hpc; try done.
  intros [= <-]. by exists c.
Qed.

Lemma Flush_returned_Running (s : Flush.state) (i' : Indexer) :
  Flush.returned s = Some i' →
  ∃ c, s = Flush.Running c ∧ Flush.at_pc c = Flush.Returned
       ∧ Flush.txn c = None ∧ Flush.ix c = i'.
Proof.
  destruct s as [c|]; [|done]. simpl.
  destruct (Flush.at_pc c) eqn:Hpc; try done.
  destruct (Flush.txn c) eqn:Htxn; try done.
  intros [= <-]. by exists c.
Qed.

(** The word ids that [UpdateOrAddPage] lists are [uint64]. *)
Lemma AddPage_run_wordIdList (p : Document) (order : list (string * Z))
    (schedule : list nat) (i : Indexer) (c : AddPage.config) :
  Forall (λ w, 0 ≤ w < 2 ^ 64) (wordIdList i) →
  AddPage.UpdateOrAddPage p order schedule i = AddPage.Running c →
  Forall (λ w, 0 ≤ w < 2 ^ 64) (wordIdList (AddPage.ix c)).
Proof.
  unfold AddPage.UpdateOrAddPage, AddPage.start. intros Hi.
  apply (AddPage_run_invariant p order
           (λ c, Forall (λ w, 0 ≤ w < 2 ^ 64) (wordIdList (AddPage.ix c))));
    [|done].
  intros who c1 c2 Hinv Hstep. destruct who as [|k]; simpl in Hstep.
  - apply stepMain_frame in Hstep as (_ & Hlist & _). by rewrite Hlist.
  - destruct (AddPage.goroutines c1 !! k) as [g|]; [|done]. simpl in Hstep.
    apply stepGoroutine_staging in Hstep as [[_ Hlist]|(wordId & _ & ->)].
    + by rewrite Hlist.
    + unfold updateInverted_locked.
      destruct (default ∅ (tempInverted (AddPage.ix c1)) !! byteToUint64 wordId);
        simpl; [done|].
      apply Forall_app. split; [done|]. constructor; [|done].
      apply byteToUint64_range.
Qed.

Lemma AddPage_run_inverted_table (p : Document) (order : list (string * Z))
    (schedule : list nat) (i : Indexer) (c : AddPage.config) :
  AddPage.UpdateOrAddPage p order schedule i = AddPage.Running c →
  db (AddPage.ix c) InvertedTable = db i InvertedTable.
Proof.
  unfold AddPage.UpdateOrAddPage, AddPage.start.
  apply (AddPage_run_invariant p order
           (λ c, db (AddPage.ix c) InvertedTable = db i InvertedTable));
    [|done].
  intros who c1 c2 Hinv Hstep. destruct who as [|k]; simpl in Hstep.
  - apply stepMain_frame in Hstep as (_ & _ & Hsame).
    by rewrite Hsame.
  - destruct (AddPage.goroutines c1 !! k) as [g|]; [|done]. simpl in Hstep.
    apply stepGoroutine_frame in Hstep as (_ & _ & _ & Hsame).
    by rewrite Hsame.
Qed.

Lemma runCall_SessionOk (k : call) (i i' : Indexer) :
  SessionOk i → runCall k i = Some i' → SessionOk i'.
Proof.
  intros (Hst & Hrange & Hno). destruct k as [p order schedule|schedule]; simpl.
  - intros (c & Hrun & _ & <-)%AddPage_returned_Running.
    split; [by eapply UpdateOrAddPage_staging|].
    split; [by eapply AddPage_run_wordIdList|].
    by rewrite (AddPage_run_inverted_table p order schedule i c).
  - intros (c & Hrun & Hpc & _ & <-)%Flush_returned_Running.
    pose proof Hrun as Hinv. unfold Flush.FlushInverted, Flush.start in Hinv.
    apply (FlushInv_run i) in Hinv; [|apply FlushInv_start].
    destruct Hinv as (Htemp & _ & _ & _ & Hat). rewrite Hpc in Hat.
    destruct Hat as (Hlist & _ & _).
    assert (Hperm : wordIdList (Flush.ix c) ≡ₚ wordIdList i).
    { rewrite Hlist. apply sort_Slice_Permutation. }
    split; [|split].
    + destruct Hst as [Hnd Hdom]. split; [by rewrite Hperm|].
      intros w. by rewrite Hperm, Htemp.
    + by rewrite Hperm.
    + revert Hrun. unfold Flush.FlushInverted, Flush.start.
      apply Flush_run_NoLeaf; simpl; [done | done | constructor].
Qed.

(** X19.  In a session that starts from [LoadIndexer] on a store whose
    inverted table holds nested buckets only, whatever pages are added
    and whenever the index is flushed, under whatever schedules: after
    every call that has returned, [wordIdList] lists the keys of the
    staging structure, each once, the word ids are [uint64], the inverted
    table holds nested buckets only, and a [FlushInverted] called next
    does not panic under any schedule. *)
Theorem session_keeps_FlushInverted_safe (d : DB) (calls : list call)
    (i : Indexer) :
  NoLeaf (d InvertedTable) →
  session calls (LoadIndexer d) = Some i →
  SessionOk i
  ∧ ∀ schedule, Flush.FlushInverted schedule i ≠ Flush.Crashed.
Proof.
  intros Hno Hrun.
  assert (Hok : SessionOk i).
  { revert i Hrun. unfold session.
    induction calls as [|k calls IH] using rev_ind; intros i.
    - intros [= <-]. split; [apply LoadIndexer_staging|]. by split.
    - rewrite foldl_app. simpl.
      destruct (foldl (λ oi k, oi ≫= runCall k) (Some (LoadIndexer d)) calls)
        as [i0|]; [|done].
      simpl. apply runCall_SessionOk. by apply IH. }
  split; [done|]. intros schedule. destruct Hok as (_ & _ & Hno').
  unfold Flush.FlushInverted, Flush.start.
  apply Flush_run_no_panic; simpl; [done | constructor].
Qed.

End SessionProofs.

(** The page [docA] is added and the index is flushed. *)
Lemma session_keeps_FlushInverted_safe_witness :
  ∃ i,
    session [AddCall docA (map_to_list (Words docA))
               (AddPage.inOrder docA (map_to_list (Words docA))
                  (LoadIndexer emptyDB));
             FlushCall (Flush.inOrder 1)]
      (LoadIndexer emptyDB) = Some i
    ∧ SessionOk i
    ∧ ∀ schedule, Flush.FlushInverted schedule i ≠ Flush.Crashed.
Proof.
  assert (Hrun : ∃ i,
            session [AddCall docA (map_to_list (Words docA))
                       (AddPage.inOrder docA (map_to_list (Words docA))
                          (LoadIndexer emptyDB));
                     FlushCall (Flush.inOrder 1)]
              (LoadIndexer emptyDB) = Some i).
  { vm_compute. by eexists. }
  destruct Hrun as [i Hrun]. exists i. split; [exact Hrun|].
  apply (session_keeps_FlushInverted_safe emptyDB
           [AddCall docA (map_to_list (Words docA))
              (AddPage.inOrder docA (map_to_list (Words docA))
                 (LoadIndexer emptyDB));
            FlushCall (Flush.inOrder 1)] i).
  - apply NoLeaf_emptyBucket.
  - exact Hrun.
Defined.

(** ** [UpdateOrAddPage] without interference *)

Section InOrderProofs.

Context `{Codec}.
Variable p : Document.
Variable order : list (string * Z).

Lemma AddPage_run_idle (who : nat) (schedule : list nat) (c : AddPage.config) :
  AddPage.step p order who c = None →
  AddPage.run p order (who :: schedule) (AddPage.Running c)
  = AddPage.run p order schedule (AddPage.Running c).
Proof. intros Hstep. simpl. by rewrite Hstep. Qed.

Lemma step_first (i : Indexer) (a : AddPage.pc) (pg w : bytes) (t n : Z)
    (gs : list AddPage.goroutine) (g g2 : AddPage.goroutine) :
  AddPage.step p order (S (length gs))
    (AddPage.mkConfig i a pg w t n (gs ++ [g; g2]))
  = AddPage.stepGoroutine (length gs) g
      (AddPage.mkConfig i a pg w t n (gs ++ [g; g2])).
Proof.
  simpl. rewrite lookup_app_r, Nat.sub_diag by lia. done.
Qed.

Lemma step_second (i : Indexer) (a : AddPage.pc) (pg w : bytes) (t n : Z)
    (gs : list AddPage.goroutine) (g g2 : AddPage.goroutine) :
  AddPage.step p order (S (S (length gs)))
    (AddPage.mkConfig i a pg w t n (gs ++ [g; g2]))
  = AddPage.stepGoroutine (S (length gs)) g2
      (AddPage.mkConfig i a pg w t n (gs ++ [g; g2])).
Proof.
  simpl. rewrite lookup_app_r by lia.
  replace (S (length gs) - length gs)%nat with 1%nat by lia. done.
Qed.

Lemma insert_first (gs : list AddPage.goroutine) (g g' g2 : AddPage.goroutine) :
  <[length gs := g']> (gs ++ [g; g2]) = gs ++ [g'; g2].
Proof. rewrite insert_app_r_alt, Nat.sub_diag by lia. done. Qed.

Lemma insert_second (gs : list AddPage.goroutine) (g g2 g2' : AddPage.goroutine) :
  <[S (length gs) := g2']> (gs ++ [g; g2]) = gs ++ [g; g2'].
Proof.
  rewrite insert_app_r_alt by lia.
  replace (S (length gs) - length gs)%nat with 1%nat by lia. done.
Qed.

(** The first goroutine of a turn, run to its end. *)
Lemma run_inverted (i : Indexer) (rest : list (string * Z)) (pg w : bytes)
    (t n : Z) (gs : list AddPage.goroutine) (g2 : AddPage.goroutine)
    (more : list nat) :
  AddPage.run p order (replicate 6 (S (length gs)) ++ more)
    (AddPage.Running
       (AddPage.mkConfig i (AddPage.Range rest) pg w t n
          (gs ++ [AddPage.Inverted AddPage.InvertedStart; g2])))
  = AddPage.run p order more
      (AddPage.Running
         (AddPage.mkConfig (updateInverted w pg i) (AddPage.Range rest) pg w t
            (n - 1)
            (gs ++ [AddPage.Inverted AddPage.InvertedExited; g2]))).
Proof.
  cbn [replicate app].
  erewrite AddPage_run_step;
    [| rewrite step_first; cbn; unfold AddPage.withGoroutine, AddPage.withDB, AddPage.withWg; cbn; rewrite insert_first; reflexivity].
  unfold updateInverted, getOrCreateWordId, getId.
  destruct (getId_view w WordToWordId (db i)) as [wordId|] eqn:Hview.
  - erewrite AddPage_run_step;
      [| rewrite step_first; cbn; rewrite Hview; unfold AddPage.withGoroutine, AddPage.withDB, AddPage.withWg; cbn; rewrite insert_first; reflexivity].
    erewrite AddPage_run_step;
      [| rewrite step_first; cbn; unfold AddPage.withGoroutine, AddPage.withDB, AddPage.withWg; cbn; rewrite insert_first; reflexivity].
    erewrite AddPage_run_step;
      [| rewrite step_first; cbn; unfold AddPage.withGoroutine, AddPage.withDB, AddPage.withWg; cbn; rewrite insert_first; reflexivity].
    rewrite !AddPage_run_idle by (by rewrite step_first).
    by destruct i.
  - erewrite AddPage_run_step;
      [| rewrite step_first; cbn; rewrite Hview; unfold AddPage.withGoroutine, AddPage.withDB, AddPage.withWg; cbn; rewrite insert_first; reflexivity].
    erewrite AddPage_run_step;
      [| rewrite step_first; cbn; unfold AddPage.withGoroutine, AddPage.withDB, AddPage.withWg; cbn; rewrite insert_first; reflexivity].
    erewrite AddPage_run_step;
      [| rewrite step_first; cbn; unfold AddPage.withGoroutine, AddPage.withDB, AddPage.withWg; cbn; rewrite insert_first; reflexivity].
    erewrite AddPage_run_step;
      [| rewrite step_first; cbn; unfold AddPage.withGoroutine, AddPage.withDB, AddPage.withWg; cbn; rewrite insert_first; reflexivity].
    rewrite !AddPage_run_idle by (by rewrite step_first).
    done.
Qed.


Ltac first_goroutine tac :=
  erewrite AddPage_run_step;
  [| rewrite step_first; cbn; tac;
     unfold AddPage.withGoroutine, AddPage.withDB, AddPage.withWg; cbn;
     rewrite insert_first; reflexivity].

Ltac second_goroutine tac :=
  erewrite AddPage_run_step;
  [| rewrite step_second; cbn; tac;
     unfold AddPage.withGoroutine, AddPage.withDB, AddPage.withWg; cbn;
     rewrite insert_second; reflexivity].

(** The second goroutine of a turn, run to its end. *)
Lemma run_forward (i : Indexer) (rest : list (string * Z)) (pg w : bytes)
    (t n : Z) (gs : list AddPage.goroutine) (g1 : AddPage.goroutine)
    (more : list nat) (d2 : DB) :
  updateForward w pg t ForwardTable (db i) = Some d2 →
  AddPage.run p order (replicate 6 (S (S (length gs))) ++ more)
    (AddPage.Running
       (AddPage.mkConfig i (AddPage.Range rest) pg w t n
          (gs ++ [g1; AddPage.Forward AddPage.ForwardStart])))
  = AddPage.run p order more
      (AddPage.Running
         (AddPage.mkConfig (mkIndexer d2 (tempInverted i) (wordIdList i))
            (AddPage.Range rest) pg w t (n - 1)
            (gs ++ [g1; AddPage.Forward AddPage.ForwardExited]))).
Proof.
  intros Hfw. cbn [replicate app].
  second_goroutine idtac. second_goroutine idtac.
  unfold updateForward, getOrCreateWordId, getId in Hfw.
  destruct (getId_view w WordToWordId (db i)) as [wordId|] eqn:Hview.
  - second_goroutine ltac:(rewrite Hview).
    second_goroutine ltac:(rewrite Hfw).
    second_goroutine idtac.
    rewrite !AddPage_run_idle by (by rewrite step_second).
    done.
  - second_goroutine ltac:(rewrite Hview).
    second_goroutine idtac.
    cbn in Hfw.
    second_goroutine ltac:(rewrite Hfw).
    second_goroutine idtac.
    done.
Qed.


Lemma foldl_turn_None (pg : bytes) (rest : list (string * Z)) :
  foldl (λ oi wt, oi ≫= λ i, turn pg i wt) None rest = None.
Proof. by induction rest. Qed.

(** One turn of the loop without interference. *)
Lemma run_turn (i i' : Indexer) (rest : list (string * Z)) (pg w0 w : bytes)
    (t0 t n : Z) (gs : list AddPage.goroutine) (more : list nat) :
  turn pg i (w, t) = Some i' →
  AddPage.run p order
    ([0; 0]%nat ++ replicate 6 (S (length gs))
       ++ replicate 6 (S (S (length gs))) ++ more)
    (AddPage.Running
       (AddPage.mkConfig i (AddPage.Range ((w, t) :: rest)) pg w0 t0 n gs))
  = AddPage.run p order more
      (AddPage.Running
         (AddPage.mkConfig i' (AddPage.Range rest) pg w t (n - 1 - 1)
            (gs ++ [AddPage.Inverted AddPage.InvertedExited;
                    AddPage.Forward AddPage.ForwardExited]))).
Proof.
  unfold turn. cbn [fst snd].
  destruct (updateForward w pg t ForwardTable (db (updateInverted w pg i)))
    as [d2|] eqn:Hfw; [|done].
  intros [= <-]. cbn [app].
  do 2 (erewrite AddPage_run_step; [| cbn; reflexivity]).
  rewrite run_inverted. by rewrite (run_forward _ _ _ _ _ _ _ _ _ d2).
Qed.

(** The loop without interference. *)
Lemma run_loop (rest : list (string * Z)) (i i' : Indexer) (pg w0 : bytes)
    (t0 n : Z) (gs : list AddPage.goroutine) :
  foldl (λ oi wt, oi ≫= λ i, turn pg i wt) (Some i) rest = Some i' →
  ∃ c',
    (∀ more,
       AddPage.run p order (AddPage.inOrderFrom (length gs) (length rest) ++ more)
         (AddPage.Running
            (AddPage.mkConfig i (AddPage.Range rest) pg w0 t0 n gs))
       = AddPage.run p order more (AddPage.Running c'))
    ∧ AddPage.ix c' = i'
    ∧ AddPage.at_pc c' = AddPage.Range []
    ∧ AddPage.pageId c' = pg
    ∧ AddPage.wg c' = n - 2 * Z.of_nat (length rest).
Proof.
  revert i w0 t0 n gs. induction rest as [|[w t] rest IH];
    intros i w0 t0 n gs Hrest; simpl in Hrest.
  - injection Hrest as <-. eexists. split; [reflexivity|]. simpl.
    repeat (split; [done|]). lia.
  - destruct (turn pg i (w, t)) as [i1|] eqn:Hturn;
      [|by rewrite foldl_turn_None in Hrest].
    cbn [length AddPage.inOrderFrom].
    destruct (IH i1 w t (n - 1 - 1)
                (gs ++ [AddPage.Inverted AddPage.InvertedExited;
                        AddPage.Forward AddPage.ForwardExited]) Hrest)
      as (c' & Hrun & Hix & Hpc & Hpg & Hwg).
    exists c'. split; [|repeat (split; [done|]); lia].
    intros more. rewrite <- !(assoc_L (++)).
    rewrite (run_turn i i1) by done.
    rewrite <- Hrun. do 3 f_equal.
    rewrite length_app. simpl. lia.
Qed.

(** When the reading without goroutines does not panic, the call without
    interference returns what it leaves. *)
Lemma AddPage_inOrder_returns (i i' : Indexer) :
  length order = size (Words p) →
  addPageSeq p order i = Some i' →
  AddPage.returned
    (AddPage.UpdateOrAddPage p order (AddPage.inOrder p order i) i)
  = Some i'.
Proof.
  intros Hlen. unfold addPageSeq, getOrCreatePageId, getId.
  unfold AddPage.UpdateOrAddPage, AddPage.start, AddPage.inOrder, ContainsUrl.
  unfold getId_view.
  destruct (bolt.Get (db i UrlToPageId) (Uri p)) as [id|] eqn:Hview.
  - rewrite bool_decide_eq_true_2 by done.
    destruct (foldl _ _ order) as [i1|] eqn:Hloop; [|done].
    intros [= <-]. cbn [app].
    erewrite AddPage_run_step;
      [| cbn; unfold getId_view; rewrite Hview; reflexivity].
    unfold AddPage.enterLoop. cbn [AddPage.ix AddPage.word AddPage.tf
                                   AddPage.goroutines].
    destruct (run_loop order _ i1 id EmptyString 0
                (2 * Z.of_nat (size (Words p))) [] Hloop)
      as (c' & Hrun & Hix & Hpc & Hpg & Hwg).
    cbn [length] in Hrun. rewrite Hrun.
    destruct c' as [ix' pc' pg' w' t' wg' gs']. simpl in Hix, Hpc, Hpg, Hwg.
    subst ix' pc' pg' wg'.
    do 4 (erewrite AddPage_run_step;
            [| cbn; rewrite ?decide_True by lia; reflexivity]).
    done.
  - rewrite bool_decide_eq_false_2 by (by intros [? ?]).
    destruct (getId_batch (Uri p) UrlToPageId PageIdToUrl (db i))
      as [id d0] eqn:Hbatch.
    destruct (foldl _ _ order) as [i1|] eqn:Hloop; [|done].
    intros [= <-]. cbn [app].
    erewrite AddPage_run_step;
      [| cbn; unfold getId_view; rewrite Hview; reflexivity].
    erewrite AddPage_run_step;
      [| cbn [AddPage.step]; unfold AddPage.stepMain;
         cbn [AddPage.at_pc AddPage.withPc AddPage.ix]; rewrite Hbatch;
         reflexivity].
    unfold AddPage.enterLoop. cbn [AddPage.ix AddPage.word AddPage.tf
                                   AddPage.goroutines AddPage.withPc].
    destruct (run_loop order _ i1 id EmptyString 0
                (2 * Z.of_nat (size (Words p))) [] Hloop)
      as (c' & Hrun & Hix & Hpc & Hpg & Hwg).
    cbn [length] in Hrun. rewrite Hrun.
    destruct c' as [ix' pc' pg' w' t' wg' gs']. simpl in Hix, Hpc, Hpg, Hwg.
    subst ix' pc' pg' wg'.
    do 4 (erewrite AddPage_run_step;
            [| cbn; rewrite ?decide_True by lia; reflexivity]).
    done.
Qed.


Lemma AddPage_run_Crashed (schedule : list nat) :
  AddPage.run p order schedule AddPage.Crashed = AddPage.Crashed.
Proof. by destruct schedule. Qed.

(** The second goroutine of a turn, when [updateForward] panics. *)
Lemma run_forward_panic (i : Indexer) (rest : list (string * Z)) (pg w : bytes)
    (t n : Z) (gs : list AddPage.goroutine) (g1 : AddPage.goroutine)
    (more : list nat) :
  updateForward w pg t ForwardTable (db i) = None →
  AddPage.run p order (replicate 6 (S (S (length gs))) ++ more)
    (AddPage.Running
       (AddPage.mkConfig i (AddPage.Range rest) pg w t n
          (gs ++ [g1; AddPage.Forward AddPage.ForwardStart])))
  = AddPage.Crashed.
Proof.
  intros Hfw. cbn [replicate app].
  second_goroutine idtac. second_goroutine idtac.
  unfold updateForward, getOrCreateWordId, getId in Hfw.
  destruct (getId_view w WordToWordId (db i)) as [wordId|] eqn:Hview.
  - second_goroutine ltac:(rewrite Hview).
    erewrite AddPage_run_step;
      [| rewrite step_second; cbn; rewrite Hfw; reflexivity].
    apply AddPage_run_Crashed.
  - second_goroutine ltac:(rewrite Hview).
    second_goroutine idtac.
    cbn in Hfw.
    erewrite AddPage_run_step;
      [| rewrite step_second; cbn; rewrite Hfw; reflexivity].
    apply AddPage_run_Crashed.
Qed.

Lemma run_turn_panic (i : Indexer) (rest : list (string * Z)) (pg w0 w : bytes)
    (t0 t n : Z) (gs : list AddPage.goroutine) (more : list nat) :
  turn pg i (w, t) = None →
  AddPage.run p order
    ([0; 0]%nat ++ replicate 6 (S (length gs))
       ++ replicate 6 (S (S (length gs))) ++ more)
    (AddPage.Running
       (AddPage.mkConfig i (AddPage.Range ((w, t) :: rest)) pg w0 t0 n gs))
  = AddPage.Crashed.
Proof.
  unfold turn. cbn [fst snd].
  destruct (updateForward w pg t ForwardTable (db (updateInverted w pg i)))
    as [d2|] eqn:Hfw; [done|].
  intros _. cbn [app].
  do 2 (erewrite AddPage_run_step; [| cbn; reflexivity]).
  rewrite run_inverted. by rewrite run_forward_panic.
Qed.

Lemma run_loop_panic (rest : list (string * Z)) (i : Indexer) (pg w0 : bytes)
    (t0 n : Z) (gs : list AddPage.goroutine) (more : list nat) :
  foldl (λ oi wt, oi ≫= λ i, turn pg i wt) (Some i) rest = None →
  AddPage.run p order (AddPage.inOrderFrom (length gs) (length rest) ++ more)
    (AddPage.Running (AddPage.mkConfig i (AddPage.Range rest) pg w0 t0 n gs))
  = AddPage.Crashed.
Proof.
  revert i w0 t0 n gs. induction rest as [|[w t] rest IH];
    intros i w0 t0 n gs Hrest; simpl in Hrest; [done|].
  cbn [length AddPage.inOrderFrom]. rewrite <- !(assoc_L (++)).
  destruct (turn pg i (w, t)) as [i1|] eqn:Hturn.
  - rewrite (run_turn i i1) by done.
    specialize (IH i1 w t (n - 1 - 1)
                  (gs ++ [AddPage.Inverted AddPage.InvertedExited;
                          AddPage.Forward AddPage.ForwardExited]) Hrest).
    rewrite <- IH. do 3 f_equal. rewrite length_app. simpl. lia.
  - by rewrite run_turn_panic.
Qed.

(** When the reading without goroutines panics, so does the call without
    interference. *)
Lemma AddPage_inOrder_panics (i : Indexer) :
  addPageSeq p order i = None →
  AddPage.UpdateOrAddPage p order (AddPage.inOrder p order i) i
  = AddPage.Crashed.
Proof.
  unfold addPageSeq, getOrCreatePageId, getId.
  unfold AddPage.UpdateOrAddPage, AddPage.start, AddPage.inOrder, ContainsUrl.
  unfold getId_view.
  destruct (bolt.Get (db i UrlToPageId) (Uri p)) as [id|] eqn:Hview.
  - rewrite bool_decide_eq_true_2 by done.
    destruct (foldl _ _ order) as [i1|] eqn:Hloop; [done|].
    intros _. cbn [app].
    erewrite AddPage_run_step;
      [| cbn; unfold getId_view; rewrite Hview; reflexivity].
    unfold AddPage.enterLoop. cbn [AddPage.ix AddPage.word AddPage.tf
                                   AddPage.goroutines].
    by rewrite (run_loop_panic order _ id EmptyString 0
                  (2 * Z.of_nat (size (Words p))) []).
  - rewrite bool_decide_eq_false_2 by (by intros [? ?]).
    destruct (getId_batch (Uri p) UrlToPageId PageIdToUrl (db i))
      as [id d0] eqn:Hbatch.
    destruct (foldl _ _ order) as [i1|] eqn:Hloop; [done|].
    intros _. cbn [app].
    erewrite AddPage_run_step;
      [| cbn; unfold getId_view; rewrite Hview; reflexivity].
    erewrite AddPage_run_step;
      [| cbn [AddPage.step]; unfold AddPage.stepMain;
         cbn [AddPage.at_pc AddPage.withPc AddPage.ix]; rewrite Hbatch;
         reflexivity].
    unfold AddPage.enterLoop. cbn [AddPage.ix AddPage.word AddPage.tf
                                   AddPage.goroutines AddPage.withPc].
    by rewrite (run_loop_panic order _ id EmptyString 0
                  (2 * Z.of_nat (size (Words p))) []).
Qed.

(** X20.  [UpdateOrAddPage] without interference is [UpdateOrAddPage]
    read without goroutines.  When each goroutine runs to its end as soon
    as it is started, the call returns with the indexer that these calls
    leave, one after the other: [getOrCreatePageId], then [updateInverted]
    and [updateForward] for each term in the order of [range], then
    [setMaxTf] and the write of the page record; and it panics when one of
    these calls of [updateForward] does. *)
Theorem UpdateOrAddPage_inOrder_is_sequential (i : Indexer) :
  length order = size (Words p) →
  AddPage.returned
    (AddPage.UpdateOrAddPage p order (AddPage.inOrder p order i) i)
  = addPageSeq p order i
  ∧ (addPageSeq p order i = None →
     AddPage.UpdateOrAddPage p order (AddPage.inOrder p order i) i
     = AddPage.Crashed).
Proof.
  intros Hlen. split; [|apply AddPage_inOrder_panics].
  destruct (addPageSeq p order i) as [i'|] eqn:Hseq.
  - by apply AddPage_inOrder_returns.
  - by rewrite AddPage_inOrder_panics.
Qed.

End InOrderProofs.

Section SequentialProofs.

Context `{Codec}.

(** [getId] keeps the ids that are there, and draws one number at
    most. *)
Lemma getId_monotone (fw inv : Table) (d : DB) (text text' : string) (x : bytes) :
  fw ≠ inv →
  bolt.Get (d fw) text' = Some x →
  bolt.Get ((getId text fw inv d).2 fw) text' = Some x.
Proof.
  intros Hne Hget. unfold getId, getId_view.
  destruct (bolt.Get (d fw) text) as [id|] eqn:Hview; [done|].
  destruct (getId_batch_keeps fw inv d text Hne) as (_ & _ & Hkeep).
  rewrite Hkeep; [done|]. intros ->. congruence.
Qed.

Lemma getId_sequence (fw inv : Table) (d : DB) (text : string) :
  fw ≠ inv → bolt.sequence (d fw) + 1 < 2 ^ 64 → 0 ≤ bolt.sequence (d fw) →
  bolt.sequence ((getId text fw inv d).2 fw) ≤ bolt.sequence (d fw) + 1.
Proof.
  intros Hne Hroom Hpos. unfold getId, getId_view.
  destruct (bolt.Get (d fw) text) as [id|] eqn:Hview; [simpl; lia|].
  destruct (getId_batch_keeps fw inv d text Hne) as (_ & Hseq & _).
  rewrite Hseq, Z.mod_small; lia.
Qed.

Lemma IdTablesOk_tables (fw inv : Table) (d d' : DB) :
  d' fw = d fw → d' inv = d inv → IdTablesOk fw inv d → IdTablesOk fw inv d'.
Proof. unfold IdTablesOk. by intros -> ->. Qed.

(** What a turn of the loop read without goroutines leaves, on word
    tables in the state that [getId] maintains and a forward table of
    nested buckets. *)
Lemma turn_spec (pageId : bytes) (i : Indexer) (w : string) (t : Z) :
  IdTablesOk WordToWordId WordIdToWord (db i) →
  bolt.sequence (db i WordToWordId) + 1 < 2 ^ 64 →
  0 < len w ≤ bolt.MaxKeySize →
  0 < len pageId →
  NoLeaf (db i ForwardTable) →
  ∃ i' wordId,
    turn pageId i (w, t) = Some i'
    ∧ IdTablesOk WordToWordId WordIdToWord (db i')
    ∧ bolt.sequence (db i' WordToWordId) ≤ bolt.sequence (db i WordToWordId) + 1
    ∧ NoLeaf (db i' ForwardTable)
    ∧ bolt.Get (db i' WordToWordId) w = Some wordId
    ∧ forward (db i') pageId wordId = Some (intToByte t)
    ∧ byteToUint64 pageId ∈ dom (staged i' (byteToUint64 wordId))
    ∧ (∀ w' x, bolt.Get (db i WordToWordId) w' = Some x →
               bolt.Get (db i' WordToWordId) w' = Some x)
    ∧ (∀ other, other ≠ wordId →
                forward (db i') pageId other = forward (db i) pageId other)
    ∧ (∀ w', dom (staged i w') ⊆ dom (staged i' w')).
Proof.
  intros Hok Hroom Hw Hpage Hno.
  pose proof Hok as (Hseq & _).
  destruct (getId_resolves WordToWordId WordIdToWord (db i) w)
    as (wordId & d0 & n & Hid & Hn & Hfw & _ & Hok0 & Hrest); try done.
  assert (Hkey : 0 < len wordId ≤ bolt.MaxKeySize).
  { rewrite Hn. apply uint64ToByte_key. }
  assert (Hd0 : d0 = (getId w WordToWordId WordIdToWord (db i)).2).
  { by rewrite Hid. }
  assert (Hfree : bolt.Get (d0 ForwardTable) pageId = None).
  { rewrite Hrest by done. unfold bolt.Get.
    destruct (bolt.pairs (db i ForwardTable) !! pageId) as [[v|s]|] eqn:Hp;
      try done. by destruct (Hno pageId v). }
  destruct (updateForward_batch_writes wordId pageId t d0)
    as (d2 & Hb & Hwritten & _ & Hothers & _ & Htables); try done.
  exists (mkIndexer d2
            (tempInverted (updateInverted w pageId i))
            (wordIdList (updateInverted w pageId i))), wordId.
  assert (Hdb1 : db (updateInverted w pageId i) = d0).
  { unfold updateInverted, getOrCreateWordId. rewrite Hid.
    by rewrite updateInverted_locked_db. }
  split.
  { unfold turn. cbn [fst snd]. rewrite Hdb1.
    unfold updateForward, getOrCreateWordId, getId, getId_view.
    rewrite Hfw, Hb. done. }
  cbn [db]. split.
  { apply (IdTablesOk_tables _ _ d0); [by apply Htables..|done]. }
  split.
  { rewrite Htables by done. rewrite Hd0. apply getId_sequence; [done|done|lia]. }
  split.
  { eapply updateForward_batch_NoLeaf; [|done].
    by rewrite Hrest. }
  split; [by rewrite Htables|]. split; [done|].
  assert (Hst : ∀ w', dom (staged (mkIndexer d2
            (tempInverted (updateInverted w pageId i))
            (wordIdList (updateInverted w pageId i))) w')
          = if decide (w' = byteToUint64 wordId)
            then {[byteToUint64 pageId]} ∪ dom (staged i (byteToUint64 wordId))
            else dom (staged i w')).
  { intros w'. unfold updateInverted, getOrCreateWordId. rewrite Hid.
    change (dom (staged
                   (updateInverted_locked (byteToUint64 wordId)
                      (byteToUint64 pageId)
                      (mkIndexer d0 (tempInverted i) (wordIdList i))) w')
            = if decide (w' = byteToUint64 wordId)
              then {[byteToUint64 pageId]}
                   ∪ dom (staged (mkIndexer d0 (tempInverted i) (wordIdList i))
                            (byteToUint64 wordId))
              else dom (staged (mkIndexer d0 (tempInverted i) (wordIdList i))
                          w')).
    apply staged_updateInverted_locked. }
  split. { rewrite Hst, decide_True by done. set_solver. }
  split.
  { intros w' x Hget. rewrite Htables by done. rewrite Hd0.
    by apply getId_monotone. }
  split.
  { intros other Hother. rewrite Hothers by done.
    unfold forward. by rewrite Hrest. }
  intros w'. rewrite Hst. case_decide; [subst w'|done]. set_solver.
Qed.


(** The loop read without goroutines, over terms that are distinct. *)
Lemma loop_spec (pageId : bytes) (rest : list (string * Z)) (i : Indexer) :
  IdTablesOk WordToWordId WordIdToWord (db i) →
  bolt.sequence (db i WordToWordId) + Z.of_nat (length rest) < 2 ^ 64 →
  Forall (λ wt : string * Z, 0 < len wt.1 ≤ bolt.MaxKeySize) rest →
  NoDup rest.*1 →
  0 < len pageId →
  NoLeaf (db i ForwardTable) →
  ∃ i',
    foldl (λ oi wt, oi ≫= λ i, turn pageId i wt) (Some i) rest = Some i'
    ∧ (∀ w tf, (w, tf) ∈ rest →
         ∃ wordId,
           bolt.Get (db i' WordToWordId) w = Some wordId
           ∧ forward (db i') pageId wordId = Some (intToByte tf)
           ∧ byteToUint64 pageId ∈ dom (staged i' (byteToUint64 wordId)))
    ∧ (∀ w' x, bolt.Get (db i WordToWordId) w' = Some x →
               bolt.Get (db i' WordToWordId) w' = Some x)
    ∧ (∀ w' x, bolt.Get (db i WordToWordId) w' = Some x → w' ∉ rest.*1 →
               forward (db i') pageId x = forward (db i) pageId x)
    ∧ (∀ w', dom (staged i w') ⊆ dom (staged i' w')).
Proof.
  revert i. induction rest as [|[w t] rest IH];
    intros i Hok Hroom Hvalid Hnd Hpage Hno.
  - exists i. split; [done|]. split; [by intros w tf ?%elem_of_nil|]. done.
  - apply Forall_cons in Hvalid as [Hw Hvalid]. cbn [fst] in Hw.
    rewrite fmap_cons in Hnd. apply NoDup_cons in Hnd as [Hfresh Hnd].
    cbn [fst] in Hfresh. cbn [length] in Hroom.
    pose proof Hok as (Hseq & _).
    destruct (turn_spec pageId i w t)
      as (i1 & wordId & Hturn & Hok1 & Hseq1 & Hno1 & Hget1 & Hfw1 & Hst1
          & Hmono1 & Hother1 & Hgrow1); try done; [lia|].
    destruct (IH i1) as (i' & Hloop & Hterms & Hmono & Hkeep & Hgrow);
      try done; [lia|].
    exists i'. split.
    { cbn [foldl]. simpl. by rewrite Hturn. }
    split; [|split; [|split]].
    + intros w' tf [[= -> ->]|Hin]%elem_of_cons; [|by apply Hterms].
      exists wordId. split; [by apply Hmono|]. split.
      * by rewrite (Hkeep w wordId).
      * by apply Hgrow.
    + intros w' x Hget. by apply Hmono, Hmono1.
    + intros w' x Hget Hnot. rewrite fmap_cons, not_elem_of_cons in Hnot.
      cbn [fst] in Hnot. destruct Hnot as [Hne Hnot].
      rewrite (Hkeep w' x); [|by apply Hmono1|done].
      apply Hother1. intros ->. apply Hne.
      apply (IdTablesOk_inj WordToWordId WordIdToWord (db i1) w' w wordId);
        [done | by apply Hmono1 | done].
    + intros w'. etrans; [apply Hgrow1 | apply Hgrow].
Qed.

(** [UpdateOrAddPage] read without goroutines indexes every term. *)
Lemma addPageSeq_spec (p : Document) (i : Indexer) :
  IdTablesOk UrlToPageId PageIdToUrl (db i) →
  IdTablesOk WordToWordId WordIdToWord (db i) →
  bolt.sequence (db i WordToWordId) + Z.of_nat (size (Words p)) < 2 ^ 64 →
  (∀ w tf, Words p !! w = Some tf → 0 < len w ≤ bolt.MaxKeySize) →
  NoLeaf (db i ForwardTable) →
  ∃ i',
    addPageSeq p (map_to_list (Words p)) i = Some i'
    ∧ ∀ w tf, Words p !! w = Some tf →
        ∃ wordId,
          bolt.Get (db i' WordToWordId) w = Some wordId
          ∧ forward (db i') (getOrCreatePageId (Uri p) (db i)).1 wordId
            = Some (intToByte tf)
          ∧ byteToUint64 (getOrCreatePageId (Uri p) (db i)).1
            ∈ dom (staged i' (byteToUint64 wordId)).
Proof.
  intros Hpages Hwords Hroom Hvalid Hno. unfold addPageSeq.
  destruct (getOrCreatePageId (Uri p) (db i)) as [pageId d0] eqn:Hpg.
  cbn [fst].
  assert (Hd0 : ∀ t, t ≠ UrlToPageId → t ≠ PageIdToUrl → d0 t = db i t).
  { intros t H1 H2. unfold getOrCreatePageId, getId in Hpg.
    destruct (getId_view _ _ _); [by injection Hpg as _ <-|].
    pose proof (getId_batch_other (Uri p) UrlToPageId PageIdToUrl t (db i) H1 H2)
      as Hother.
    by rewrite Hpg in Hother. }
  assert (Hkey : 0 < len pageId).
  { unfold getOrCreatePageId, getId, getId_view in Hpg.
    destruct (bolt.Get (db i UrlToPageId) (Uri p)) as [id|] eqn:Hview.
    - injection Hpg as <- _. destruct Hpages as (_ & _ & _ & Hmap).
      destruct (Hmap _ _ Hview) as (n & _ & -> & _). apply uint64ToByte_key.
    - destruct (getId_batch_keeps UrlToPageId PageIdToUrl (db i) (Uri p))
        as (Hid & _); [done|].
      rewrite Hpg in Hid. simpl in Hid. rewrite Hid. apply uint64ToByte_key. }
  destruct (loop_spec pageId (map_to_list (Words p))
              (mkIndexer d0 (tempInverted i) (wordIdList i)))
    as (i1 & Hloop & Hterms & _ & _ & _); cbn [db].
  { apply (IdTablesOk_tables _ _ (db i)); [by apply Hd0..|done]. }
  { rewrite Hd0 by done. by rewrite length_map_to_list. }
  { apply Forall_forall. intros [w tf] Hin%elem_of_map_to_list.
    by apply (Hvalid w tf). }
  { apply NoDup_fst_map_to_list. }
  { done. }
  { by rewrite Hd0. }
  rewrite Hloop. cbn [mbind option_bind].
  eexists. split; [reflexivity|]. cbn [db tempInverted].
  intros w tf Hin%elem_of_map_to_list.
  destruct (Hterms w tf Hin) as (wordId & Hget & Hfw & Hst).
  exists wordId. split; [|split].
  - unfold putPageInfo, setMaxTf. by rewrite !setBucket_ne.
  - unfold forward in *. unfold putPageInfo. rewrite setBucket_ne by done.
    destruct (bolt.sub (db i1 ForwardTable) pageId) as [s|] eqn:Hsub; [|done].
    by rewrite setMaxTf_sub, Hsub.
  - done.
Qed.

End SequentialProofs.

Section InOrderMore.

Context `{Codec}.

(** X21.  [UpdateOrAddPage] without interference indexes every term.  On
    page and word tables in the state that [getId] maintains, with room in
    the word sequence, for terms that the store accepts as keys and a
    forward table of nested buckets: when each goroutine runs to its end
    as soon as it is started, the call returns, and for every term of the
    page and its frequency, the term has a word id, the forward index of
    the page holds the frequency under that word id, and the page is
    staged under that word id. *)
Theorem UpdateOrAddPage_inOrder_indexes_every_term (p : Document)
    (i : Indexer) :
  IdTablesOk UrlToPageId PageIdToUrl (db i) →
  IdTablesOk WordToWordId WordIdToWord (db i) →
  bolt.sequence (db i WordToWordId) + Z.of_nat (size (Words p)) < 2 ^ 64 →
  (∀ w tf, Words p !! w = Some tf → 0 < len w ≤ bolt.MaxKeySize) →
  NoLeaf (db i ForwardTable) →
  ∃ i',
    addPage p i = Some i'
    ∧ ∀ w tf, Words p !! w = Some tf →
        ∃ wordId,
          bolt.Get (db i' WordToWordId) w = Some wordId
          ∧ forward (db i') (getOrCreatePageId (Uri p) (db i)).1 wordId
            = Some (intToByte tf)
          ∧ byteToUint64 (getOrCreatePageId (Uri p) (db i)).1
            ∈ dom (staged i' (byteToUint64 wordId)).
Proof.
  intros Hpages Hwords Hroom Hvalid Hno.
  destruct (addPageSeq_spec p i Hpages Hwords Hroom Hvalid Hno)
    as (i' & Hseq & Hterms).
  exists i'. split; [|done]. unfold addPage.
  apply AddPage_inOrder_returns; [|done]. apply length_map_to_list.
Qed.

End InOrderMore.

(** The page [docAB] on an empty store, [range] visiting [a] then [b]. *)
Lemma UpdateOrAddPage_inOrder_is_sequential_witness :
  AddPage.returned
    (AddPage.UpdateOrAddPage docAB orderAB
       (AddPage.inOrder docAB orderAB (LoadIndexer emptyDB))
       (LoadIndexer emptyDB))
  = addPageSeq docAB orderAB (LoadIndexer emptyDB)
  ∧ (addPageSeq docAB orderAB (LoadIndexer emptyDB) = None →
     AddPage.UpdateOrAddPage docAB orderAB
       (AddPage.inOrder docAB orderAB (LoadIndexer emptyDB))
       (LoadIndexer emptyDB)
     = AddPage.Crashed).
Proof.
  apply (UpdateOrAddPage_inOrder_is_sequential docAB orderAB
           (LoadIndexer emptyDB)).
  reflexivity.
Defined.

Lemma UpdateOrAddPage_inOrder_indexes_every_term_witness :
  ∃ i',
    addPage docAB (LoadIndexer emptyDB) = Some i'
    ∧ ∀ w tf, Words docAB !! w = Some tf →
        ∃ wordId,
          bolt.Get (db i' WordToWordId) w = Some wordId
          ∧ forward (db i')
              (getOrCreatePageId (Uri docAB) (db (LoadIndexer emptyDB))).1
              wordId
            = Some (intToByte tf)
          ∧ byteToUint64
              (getOrCreatePageId (Uri docAB) (db (LoadIndexer emptyDB))).1
            ∈ dom (staged i' (byteToUint64 wordId)).
Proof.
  apply (UpdateOrAddPage_inOrder_indexes_every_term docAB (LoadIndexer emptyDB)).
  - apply emptyDB_IdTablesOk.
  - apply emptyDB_IdTablesOk.
  - by vm_compute.
  - intros w tf Hw. unfold docAB in Hw. cbn [Words] in Hw.
    apply lookup_insert_Some in Hw as [[<- _]|[_ Hw]];
      [split; [reflexivity | by vm_compute]|].
    apply lookup_insert_Some in Hw as [[<- _]|[_ Hw]];
      [split; [reflexivity | by vm_compute]|].
    by rewrite lookup_empty in Hw.
  - apply NoLeaf_emptyBucket.
Defined.

(** ** The command [print] *)

(** X22.  The command [print] ends at [break] exactly when one of the
    lines it reads is [q] followed by a newline and no read before it was
    empty; it then has answered each earlier line, in turn, by the [switch]
    on the number read from the first byte of the line.  On an input
    without such a line it panics, at the latest at the end of the input,
    where [ReadString] returns the empty string and [opt[0]] is out of
    range; so a line that only starts with [q], or a [q] that the input
    ends after, does not end it. *)
Theorem print_main_exits_iff (stdin : list string) :
  (∀ out, Print.main stdin = Print.Exited out ↔
     ∃ before rest,
       stdin = before ++ Print.quit :: rest
       ∧ Forall (λ opt, opt ≠ EmptyString ∧ opt ≠ Print.quit) before
       ∧ out = Print.answer <$> before)
  ∧ ((∀ opt, opt ∈ stdin → opt ≠ Print.quit) →
     ∃ out, Print.main stdin = Print.Panicked out).
Proof.
  split.
  - induction stdin as [|opt stdin IH]; intros out.
    + simpl. split; [done|]. intros (before & rest & Heq & _).
      by destruct before.
    + cbn [Print.main]. destruct opt as [|c opt].
      { split; [done|]. intros (before & rest & Heq & Hall & _).
        destruct before as [|b before]; [done|]. simpl in Heq.
        injection Heq as <- _. apply Forall_cons in Hall as [[Hne _] _]. done. }
      cbn zeta. case_decide as Hq.
      * split.
        -- intros [= <-]. exists [], stdin. rewrite Hq. by repeat split.
        -- intros (before & rest & Heq & Hall & ->).
           destruct before as [|b before]; [done|].
           simpl in Heq. injection Heq as <- _.
           apply Forall_cons in Hall as [[_ Hne] _]. done.
      * destruct (Print.main stdin) as [out'|out']; simpl.
        -- split.
           ++ intros [= <-].
              destruct (proj1 (IH out') eq_refl)
                as (before & rest & -> & Hall & ->).
              exists (String c opt :: before), rest. split; [done|].
              split; [by constructor|]. done.
           ++ intros (before & rest & Heq & Hall & ->).
              destruct before as [|b before].
              { simpl in Heq. congruence. }
              simpl in Heq. injection Heq as <- ->.
              apply Forall_cons in Hall as [_ Hall].
              assert (Hout : Print.Exited out'
                             = Print.Exited (Print.answer <$> before)).
              { apply IH. by exists before, rest. }
              injection Hout as ->. done.
        -- split; [done|].
           intros (before & rest & Heq & Hall & ->).
           destruct before as [|b before].
           { simpl in Heq. congruence. }
           simpl in Heq. injection Heq as <- ->.
           apply Forall_cons in Hall as [_ Hall].
           assert (Hout : Print.Panicked out'
                          = Print.Exited (Print.answer <$> before)); [|done].
           apply IH. by exists before, rest.
  - induction stdin as [|opt stdin IH]; intros Hno; [by eexists|].
    cbn [Print.main]. destruct opt as [|c opt]; [by eexists|].
    cbn zeta. rewrite decide_False by (apply Hno; by left).
    destruct IH as [out Hout]. { intros o Ho. apply Hno. by right. }
    rewrite Hout. by eexists.
Qed.
